(** * fh5dl: the asset-acquisition and assembly pipeline

    A shallow embedding of the Go packages [internal/book] (book.go) and
    [cmd] (main.go): identifier resolution, manifest normalisation, image
    flattening, the per-image download with retries and alternate URLs, the
    batched download and capture phases, and the assembly of the ordered
    page list handed to the PDF encoder; with them the helpers for file
    names and durations (main.go) and for the identifiers of queue entries
    (termui.go).

    Go's [int] is modelled by [Z]: every integer below is a page number, a
    slice index or a slice length, all bounded by the length of a slice, so
    no 64-bit wrap-around can occur.  Where a value is not so bounded, in
    [strconv.Atoi] and in the arithmetic of [time.Duration], the 64 bits
    are written out.  Go strings are byte strings and are modelled by
    [string]. *)

From Stdlib Require Import ZArith String Ascii List Lia Permutation Sorted.
From stdpp Require Import base tactics option list gmap strings pretty sorting.

Set Warnings "-register-all,-clear-no-such-hyp".
Local Open Scope string_scope.
Local Open Scope list_scope.
Local Open Scope Z_scope.

(** ** Go's [strings] package: the functions the program calls *)

Module strings.

Fixpoint drop (n : nat) (s : string) : string :=
  match n, s with
  | O, _ => s
  | S n', String _ s' => drop n' s'
  | S _, EmptyString => EmptyString
  end.

Fixpoint take (n : nat) (s : string) : string :=
  match n, s with
  | O, _ => EmptyString
  | S n', String c s' => String c (take n' s')
  | S _, EmptyString => EmptyString
  end.

(** [strings.HasPrefix(s, prefix)] *)
Definition HasPrefix (s pre : string) : bool := String.prefix pre s.

(** [strings.TrimPrefix(s, prefix)] *)
Definition TrimPrefix (s pre : string) : string :=
  if HasPrefix s pre then drop (String.length pre) s else s.

(** [strings.HasSuffix(s, suffix)] *)
Definition HasSuffix (s suf : string) : bool :=
  (String.length suf <=? String.length s)%nat
  && String.eqb (drop (String.length s - String.length suf) s) suf.

(** [strings.TrimSuffix(s, suffix)] *)
Definition TrimSuffix (s suf : string) : string :=
  if HasSuffix s suf then take (String.length s - String.length suf) s else s.

(** [strings.Contains(s, substr)] *)
Fixpoint Contains (s sub : string) : bool :=
  HasPrefix s sub ||
  match s with
  | EmptyString => false
  | String _ s' => Contains s' sub
  end.

(** [strings.Replace(s, old, new, 1)] for a non-empty [old]: the first
    occurrence of [old] is replaced. *)
Fixpoint Replace1 (s old new : string) : string :=
  if HasPrefix s old then new +:+ drop (String.length old) s
  else match s with
       | EmptyString => EmptyString
       | String c s' => String c (Replace1 s' old new)
       end.

Fixpoint TrimLeftByte (s : string) (c : ascii) : string :=
  match s with
  | String a s' => if Ascii.eqb a c then TrimLeftByte s' c else s
  | EmptyString => EmptyString
  end.

Fixpoint TrimRightByte (s : string) (c : ascii) : string :=
  match s with
  | EmptyString => EmptyString
  | String a s' =>
      match TrimRightByte s' c with
      | EmptyString => if Ascii.eqb a c then EmptyString else String a EmptyString
      | r => String a r
      end
  end.

(** [strings.Trim(s, cutset)] for a one-byte cutset. *)
Definition Trim1 (s : string) (c : ascii) : string :=
  TrimRightByte (TrimLeftByte s c) c.

(** [strings.Cut(s, sep)] for a one-byte separator: the text before the
    first [sep], and the text after it when [sep] occurs. *)
Fixpoint Cut1 (s : string) (c : ascii) : string * option string :=
  match s with
  | EmptyString => (EmptyString, None)
  | String a s' =>
      if Ascii.eqb a c then (EmptyString, Some s')
      else let '(b, r) := Cut1 s' c in (String a b, r)
  end.

(** [strings.ReplaceAll(s, old, new)] for a one-byte [old]: every
    occurrence of the byte is replaced. *)
Fixpoint ReplaceAll1 (s : string) (old : ascii) (new : string) : string :=
  match s with
  | EmptyString => EmptyString
  | String a s' =>
      if Ascii.eqb a old then new +:+ ReplaceAll1 s' old new
      else String a (ReplaceAll1 s' old new)
  end.

(** [strings.Split(s, sep)] for a one-byte separator: the pieces between
    the separators, one more than there are separators. *)
Fixpoint Split1 (s : string) (c : ascii) : list string :=
  match s with
  | EmptyString => [EmptyString]
  | String a s' =>
      if Ascii.eqb a c then EmptyString :: Split1 s' c
      else match Split1 s' c with
           | p :: ps => String a p :: ps
           | [] => [String a EmptyString]
           end
  end.

End strings.

(** ** Go's [strconv] and [path/filepath]: the functions the program calls *)

Module strconv.

Definition digitVal (c : ascii) : option Z :=
  let n := nat_of_ascii c in
  if ((48 <=? n) && (n <=? 57))%nat then Some (Z.of_nat n - 48) else None.

(** The value of a run of decimal digits read from the left, starting
    from [acc]; [None] at the first byte that is no digit. *)
Fixpoint parseDigits (s : string) (acc : Z) : option Z :=
  match s with
  | EmptyString => Some acc
  | String c r =>
      match digitVal c with
      | Some d => parseDigits r (acc * 10 + d)
      | None => None
      end
  end.

(** [strconv.Atoi(s)] where [int] has 64 bits: an optional sign and at
    least one decimal digit, nothing else; [None] is a syntax error or a
    value out of range. *)
Definition Atoi (s : string) : option Z :=
  match s with
  | EmptyString => None
  | String s0 r =>
      let digits := if Ascii.eqb s0 "-" || Ascii.eqb s0 "+" then r else s in
      if String.eqb digits "" then None
      else
        match parseDigits digits 0 with
        | Some n =>
            let n := if Ascii.eqb s0 "-" then - n else n in
            if (- 2 ^ 63 <=? n) && (n <=? 2 ^ 63 - 1) then Some n else None
        | None => None
        end
  end.

End strconv.

Module filepath.

(** What follows the last slash of [s], or [acc] followed by [s] when
    [s] has no slash. *)
Fixpoint lastElement (s acc : string) : string :=
  match s with
  | EmptyString => acc
  | String a s' =>
      if Ascii.eqb a "/" then lastElement s' EmptyString
      else lastElement s' (acc +:+ String a EmptyString)
  end.

(** [filepath.Base(path)] with the slash as the separator: trailing
    slashes are removed, then everything up to the last slash. *)
Definition Base (path : string) : string :=
  if String.eqb path "" then "."
  else
    let path := strings.TrimRightByte path "/" in
    let path := lastElement path EmptyString in
    if String.eqb path "" then "/" else path.

End filepath.

(** ** The operating environment: file system, network, browser, clock *)

Module sys.

(** What [client.Do] gives back: a transport error, or a response with
    its status code. *)
Inductive HttpResult :=
| HttpFail
| HttpStatus (code : Z).

Inductive Message :=
| MsgImageLimit (found : Z)
| MsgCaptureError (page : Z)
| MsgFailedPages (pages : list Z)
| MsgStillFailed (page : Z)
| MsgRetrySucceeded (page : Z).

(** The observable actions of a run, in the order they happen. *)
Inductive Event :=
| EvSleep (d : Z)
| EvGet (url : string)
| EvCreate (path : string)
| EvRemove (path : string)
| EvWriteFile (path : string)
| EvChrome (url : string)
| EvPrint (m : Message)
| EvEncode (images : list string) (pdfPath : string).

(** The answers of the outside world.  The [nat] argument is the number
    of events logged so far, so an answer may change over time. *)
Record Env := mkEnv {
  http_NewRequest_ok : string -> bool;
  http_Do : nat -> string -> HttpResult;
  os_Create_ok : nat -> string -> bool;
  io_Copy_ok : nat -> bool;
  bufio_Flush_ok : nat -> bool;
  file_Close_ok : nat -> bool;
  os_Remove_ok : nat -> string -> bool;
  chromedp_Run : nat -> string -> option nat;
  os_WriteFile_ok : nat -> string -> bool;
  ImportImagesFile_ok : nat -> bool
}.

Record World := mkWorld {
  files : gset string;
  log : list Event
}.

Definition M (A : Type) : Type := World -> A * World.

Definition ret {A} (a : A) : M A := fun w => (a, w).

Definition bind {A B} (m : M A) (k : A -> M B) : M B :=
  fun w => let '(a, w') := m w in k a w'.

Definition now (w : World) : nat := length (log w).

Definition emit (e : Event) : M unit :=
  fun w => (tt, mkWorld (files w) (log w ++ [e])).

(** [time.Duration] counts nanoseconds. *)
Definition Millisecond : Z := 1000000.
Definition Second : Z := 1000000000.

Definition time_Sleep (d : Z) : M unit := emit (EvSleep d).

(** [_, err := os.Stat(path); err == nil] *)
Definition os_Stat (path : string) : M bool :=
  fun w => (bool_decide (path ∈ files w), w).

(** [client.Do(req)]: a request on a cancelled context fails without
    reaching the network. *)
Definition client_Do (env : Env) (cancelled : bool) (url : string) : M HttpResult :=
  fun w =>
    if cancelled then (HttpFail, w)
    else (http_Do env (now w) url, mkWorld (files w) (log w ++ [EvGet url])).

(** [os.Create(path)]: on success the (empty) file exists. *)
Definition os_Create (env : Env) (path : string) : M bool :=
  fun w =>
    if os_Create_ok env (now w) path
    then (true, mkWorld ({[path]} ∪ files w) (log w ++ [EvCreate path]))
    else (false, w).

(** [os.Remove(path)]; the program ignores its error. *)
Definition os_Remove (env : Env) (path : string) : M unit :=
  fun w =>
    if os_Remove_ok env (now w) path
    then (tt, mkWorld (files w ∖ {[path]}) (log w ++ [EvRemove path]))
    else (tt, mkWorld (files w) (log w ++ [EvRemove path])).

Definition io_Copy (env : Env) : M bool := fun w => (io_Copy_ok env (now w), w).
Definition bufio_Flush (env : Env) : M bool := fun w => (bufio_Flush_ok env (now w), w).
Definition file_Close (env : Env) : M bool := fun w => (file_Close_ok env (now w), w).

(** [os.WriteFile(path, buf, 0644)] *)
Definition os_WriteFile (env : Env) (path : string) : M bool :=
  fun w =>
    if os_WriteFile_ok env (now w) path
    then (true, mkWorld ({[path]} ∪ files w) (log w ++ [EvWriteFile path]))
    else (false, w).

(** [chromedp.Run(...)] of the whole navigate/reveal/isolate/screenshot
    sequence: [None] is an error, [Some n] a screenshot of [n] bytes. *)
Definition chromedp_run (env : Env) (pageUrl : string) : M (option nat) :=
  fun w => (chromedp_Run env (now w) pageUrl,
            mkWorld (files w) (log w ++ [EvChrome pageUrl])).

(** [pdfcpu_api.ImportImagesFile(images, pdfPath, nil, conf)] *)
Definition ImportImagesFile (env : Env) (images : list string) (pdfPath : string)
  : M bool :=
  fun w =>
    if ImportImagesFile_ok env (now w)
    then (true, mkWorld ({[pdfPath]} ∪ files w) (log w ++ [EvEncode images pdfPath]))
    else (false, mkWorld (files w) (log w ++ [EvEncode images pdfPath])).

(** [filepath.Join(dir, name)] for a clean directory and a plain name. *)
Definition filepath_Join (dir name : string) : string := dir +:+ "/" +:+ name.

(** [sort.Slice] / [sort.Ints] by an integer key.  Go's sort is not
    stable; on lists with distinct keys every sort returns this list. *)
Fixpoint insertBy {A} (key : A -> Z) (x : A) (l : list A) : list A :=
  match l with
  | [] => [x]
  | y :: l' => if key x <=? key y then x :: l else y :: insertBy key x l'
  end.

Definition sortBy {A} (key : A -> Z) (l : list A) : list A :=
  foldr (insertBy key) [] l.

(** A Go function either returns or panics. *)
Inductive outcome (A : Type) :=
| Returned (a : A)
| Panicked.
Global Arguments Returned {A} a.
Global Arguments Panicked {A}.

(** A [for ... range l] loop over a state, stopping at a panic. *)
Fixpoint forEach {A S} (body : S -> A -> M (outcome S)) (l : list A) (s : S)
  : M (outcome S) :=
  match l with
  | [] => ret (Returned s)
  | a :: rest =>
      bind (body s a) (fun o =>
        match o with
        | Returned s' => forEach body rest s'
        | Panicked => ret Panicked
        end)
  end.

End sys.

Notation "x <- m ;; k" := (sys.bind m (fun x => k))
  (at level 100, m at next level, right associativity, only parsing).
Notation "m ;;; k" := (sys.bind m (fun _ => k))
  (at level 100, right associativity, only parsing).

(** ** Package [book] (internal/book/book.go): data *)

Module book.

Record Page := mkPage {
  Number : Z;
  ThumbnailUrl : string;
  ImageUrls : list string
}.

Record Book := mkBook {
  Url : string;
  Id : string;
  Title : string;
  Pages : list Page
}.

Record PageImage := mkPageImage {
  PageNumber : Z;
  ImageNumber : Z;
  OverallOrder : Z;
  ImageUrl : string
}.

Record DownloadedImage := mkDownloadedImage {
  dPageNumber : Z;
  dImageNumber : Z;
  dOverallOrder : Z;
  dUrl : string;
  dFullPath : string
}.

Record InteractivePageImage := mkInteractivePageImage {
  iPageNumber : Z;
  iOverallOrder : Z;
  iUrl : string;
  iFullPath : string
}.

(** The manifest field [page.Images] is an [interface{}] decoded from
    JSON: a string, an array, or any other JSON value. *)
Inductive jsonValue :=
| JString (s : string)
| JArray (l : list jsonValue)
| JOther.

Record page := mkpage {
  Images : jsonValue;
  ThumbUrl : string
}.

(** *** [idRegex = ^(\w+\/\w+)\/?] *)

(** RE2's [\w]: ASCII letters, digits and the underscore. *)
Definition isWord (c : ascii) : bool :=
  let n := nat_of_ascii c in
  ((48 <=? n) && (n <=? 57) || (65 <=? n) && (n <=? 90)
   || (97 <=? n) && (n <=? 122) || (n =? 95))%nat.

(** The longest run of word bytes at the head of [s], and what follows. *)
Fixpoint spanWord (s : string) : string * string :=
  match s with
  | String c r =>
      if isWord c then let '(w, r') := spanWord r in (String c w, r')
      else (EmptyString, s)
  | EmptyString => (EmptyString, EmptyString)
  end.

(** [idRegex.FindStringSubmatch(s)]: [nil] when there is no match, else
    the whole match followed by the first group.  Both [\w+] are greedy
    and a word byte is never a slash, so each takes the longest run. *)
Definition idRegex_FindStringSubmatch (s : string) : option (list string) :=
  let '(w1, r1) := spanWord s in
  match w1, r1 with
  | String _ _, String "/" r2 =>
      let '(w2, r3) := spanWord r2 in
      match w2 with
      | String _ _ =>
          let g := w1 +:+ "/" +:+ w2 in
          match r3 with
          | String "/" _ => Some [g +:+ "/"; g]
          | _ => Some [g; g]
          end
      | EmptyString => None
      end
  | _, _ => None
  end.

(** The two fields of [url.URL] that [ParseId] reads. *)
Record URL := mkURL { Host : string; Path : string }.

Inductive error :=
| ErrInvalidId (input : string)
| ErrNewRequest (url : string)
| ErrTransport (url : string)
| ErrCanceled
| ErrStatus (status : Z)
| ErrCreate (path : string)
| ErrCopy
| ErrFlush
| ErrClose
| ErrWriteFile (path : string)
| ErrChrome (page : Z)
| ErrExhausted (what : string) (attempts : Z) (last : option error)
| ErrNoCaptures
| ErrPdfExists (path : string)
| ErrEncode
| ErrWrap (e : error).

Section ParseId.
(** [net/url.Parse] belongs to Go's standard library; [ParseId] is
    modelled over any such parser. *)
Variable url_Parse : string -> option URL.

Definition ParseId (idOrUrl : string) : string + error :=
  match idRegex_FindStringSubmatch idOrUrl with
  | Some (_ :: g :: _) => inl g
  | _ =>
      match url_Parse idOrUrl with
      | Some u =>
          if negb (String.eqb (Host u) "") then
            let trimmedPath := strings.Trim1 (Path u) "/" in
            match idRegex_FindStringSubmatch trimmedPath with
            | Some (_ :: g :: _) => inl g
            | _ => inr (ErrInvalidId idOrUrl)
            end
          else inr (ErrInvalidId idOrUrl)
      | None => inr (ErrInvalidId idOrUrl)
      end
  end.
End ParseId.

(** A model of [url.Parse] for URLs without user information, port,
    IPv6 literal or percent escape: fragment and query are cut off, a
    scheme is a letter followed by letters, digits, [+], [-] or [.] up
    to the first colon, and after [//] the authority runs to the next
    slash.  Used only to evaluate [ParseId] on concrete inputs. *)
Definition isAlpha (c : ascii) : bool :=
  let n := nat_of_ascii c in
  ((65 <=? n) && (n <=? 90) || (97 <=? n) && (n <=? 122))%nat.

Definition isSchemeByte (c : ascii) : bool :=
  let n := nat_of_ascii c in
  isAlpha c || ((48 <=? n) && (n <=? 57) || (n =? 43) || (n =? 45) || (n =? 46))%nat.

(** [getScheme]: [Some (scheme, rest)], or [None] for a leading colon. *)
Fixpoint getScheme_go (first : bool) (acc s : string) (whole : string)
  : option (string * string) :=
  match s with
  | EmptyString => Some (EmptyString, whole)
  | String c r =>
      if isAlpha c then getScheme_go false (acc +:+ String c EmptyString) r whole
      else if isSchemeByte c then
        if first then Some (EmptyString, whole)
        else getScheme_go false (acc +:+ String c EmptyString) r whole
      else if Ascii.eqb c ":" then
        if first then None else Some (acc, r)
      else Some (EmptyString, whole)
  end.

Definition getScheme (rawURL : string) : option (string * string) :=
  getScheme_go true EmptyString rawURL rawURL.

Definition url_Parse_model (rawURL : string) : option URL :=
  let '(u, _) := strings.Cut1 rawURL "#" in
  match getScheme u with
  | None => None
  | Some (scheme, rest0) =>
      let '(rest, _) := strings.Cut1 rest0 "?" in
      if negb (strings.HasPrefix rest "/") && negb (String.eqb scheme "")
      then Some (mkURL "" "")
      else if negb (strings.HasPrefix rest "/")
              && strings.Contains (fst (strings.Cut1 rest "/")) ":"
      then None
      else if strings.HasPrefix rest "//"
              && (negb (String.eqb scheme "") || negb (strings.HasPrefix rest "///"))
      then
        let '(authority, after) := strings.Cut1 (strings.drop 2 rest) "/" in
        Some (mkURL authority
                (match after with Some p => "/" +:+ p | None => "" end))
      else Some (mkURL "" rest)
  end.

(** *** [Get]: the page loop (book.go, lines 782-817) *)

Definition fileRoot (id : string) : string :=
  "https://online.fliphtml5.com/" +:+ id +:+ "/".

(** The body of the [switch v := pageInfo.Images.(type)], with the two
    cases as the source has them. *)
Definition imagesOf (id : string) (v : jsonValue) : list string :=
  match v with
  | JArray l =>
      foldl (fun images img =>
               match img with
               | JString imgStr =>
                   let trimmed := strings.TrimPrefix imgStr "./" in
                   if strings.HasPrefix trimmed "files/"
                   then images ++ ["https://online.fliphtml5.com/" +:+ id +:+ "/" +:+ trimmed]
                   else images ++ ["https://online.fliphtml5.com/" +:+ id +:+ "/files/large/" +:+ trimmed]
               | _ => images
               end) [] l
  | JString v =>
      let trimmed := strings.TrimPrefix v "./" in
      if strings.HasPrefix trimmed "files/"
      then [] ++ ["https://online.fliphtml5.com/" +:+ id +:+ "/" +:+ trimmed]
      else [] ++ ["https://online.fliphtml5.com/" +:+ id +:+ "/files/large/" +:+ trimmed]
  | JOther => []
  end.

(** [for i, pageInfo := range htmlConfig.Pages]: [i] is the index. *)
Fixpoint pagesOf_go (id : string) (i : Z) (ps : list page) (pages : list Page)
  : list Page :=
  match ps with
  | [] => pages
  | pageInfo :: rest =>
      pagesOf_go id (i + 1) rest
        (pages ++ [mkPage (i + 1) (ThumbUrl pageInfo) (imagesOf id (Images pageInfo))])
  end.

Definition pagesOf (id : string) (ps : list page) : list Page :=
  pagesOf_go id 0 ps [].

(** *** [FindAllImages] (book.go, lines 827-845) *)

(** The inner loop [for j, imageUrl := range page.ImageUrls]. *)
Fixpoint FindAllImages_inner (i j order : Z) (urls : list string)
    (images : list PageImage) : list PageImage * Z :=
  match urls with
  | [] => (images, order)
  | imageUrl :: rest =>
      FindAllImages_inner i (j + 1) (order + 1) rest
        (images ++ [mkPageImage (i + 1) (j + 1) order imageUrl])
  end.

(** The outer loop [for i, page := range b.Pages]. *)
Fixpoint FindAllImages_outer (i order : Z) (pages : list Page)
    (images : list PageImage) : list PageImage :=
  match pages with
  | [] => images
  | page :: rest =>
      let '(images', order') :=
        FindAllImages_inner i 0 order (ImageUrls page) images in
      FindAllImages_outer (i + 1) order' rest images'
  end.

Definition FindAllImages (b : Book) : list PageImage :=
  FindAllImages_outer 0 1 (Pages b) [].

(** *** [Download] (book.go, lines 847-998) *)

Definition maxRetries : Z := 3.

(** The local file of an image: [{page}-{imageIndex}.jpg]. *)
Definition imagePath (outputFolder : string) (i : PageImage) : string :=
  sys.filepath_Join outputFolder
    (pretty (PageNumber i) +:+ "-" +:+ pretty (ImageNumber i) +:+ ".jpg").

Definition downloaded (i : PageImage) (fullPath : string) : DownloadedImage :=
  mkDownloadedImage (PageNumber i) (ImageNumber i) (OverallOrder i)
    (ImageUrl i) fullPath.

(** [i.Url = alt] *)
Definition setUrl (i : PageImage) (url : string) : PageImage :=
  mkPageImage (PageNumber i) (ImageNumber i) (OverallOrder i) url.

(** The alternative URL forms tried after a non-200 status. *)
Definition candidates (url : string) : list string :=
  (if strings.Contains url "/files/large/"
   then [strings.Replace1 url "/files/large/" "/files/"] else [])
  ++ (if strings.HasSuffix url ".webp"
      then let base := strings.TrimSuffix url ".webp" in
           [base +:+ ".jpg"; base +:+ ".png"]
      else []).

(** [for _, alt := range candidates]: the first alternative that answers
    200, if any ([goto OK]). *)
Fixpoint tryCandidates (env : sys.Env) (cancelled : bool) (cands : list string)
  : sys.M (option string) :=
  match cands with
  | [] => sys.ret None
  | alt :: rest =>
      if sys.http_NewRequest_ok env alt then
        resAlt <- sys.client_Do env cancelled alt ;;
        match resAlt with
        | sys.HttpStatus 200 => sys.ret (Some alt)
        | _ => tryCandidates env cancelled rest
        end
      else tryCandidates env cancelled rest
  end.

(** How one turn of the retry loop ends. *)
Inductive attemptResult :=
| Continue (lastErr : error)
| Return (d : DownloadedImage).

(** From the label [OK:] to the end of the loop body. *)
Definition writeImage (env : sys.Env) (fullPath : string) (i : PageImage)
  : sys.M attemptResult :=
  created <- sys.os_Create env fullPath ;;
  if negb created then sys.ret (Continue (ErrCreate fullPath))
  else
    copyOk <- sys.io_Copy env ;;
    flushOk <- sys.bufio_Flush env ;;
    closeOk <- sys.file_Close env ;;
    if negb copyOk then
      (sys.os_Remove env fullPath ;;; sys.ret (Continue ErrCopy))
    else if negb flushOk then
      (sys.os_Remove env fullPath ;;; sys.ret (Continue ErrFlush))
    else if negb closeOk then
      (sys.os_Remove env fullPath ;;; sys.ret (Continue ErrClose))
    else sys.ret (Return (downloaded i fullPath)).

(** The body of [for attempt := 0; attempt < maxRetries; attempt++].
    The receiver [i] is a pointer, so the body returns the descriptor
    as it leaves it. *)
Definition Download_attempt (env : sys.Env) (cancelled : bool)
    (fullPath : string) (attempt : Z) (i : PageImage)
  : sys.M (PageImage * attemptResult) :=
  (if 0 <? attempt then sys.time_Sleep (2 ^ attempt * sys.Second) else sys.ret tt) ;;;
  if negb (sys.http_NewRequest_ok env (ImageUrl i))
  then sys.ret (i, Continue (ErrNewRequest (ImageUrl i)))
  else
    res <- sys.client_Do env cancelled (ImageUrl i) ;;
    match res with
    | sys.HttpFail =>
        sys.ret (i, Continue (if cancelled then ErrCanceled else ErrTransport (ImageUrl i)))
    | sys.HttpStatus code =>
        if code =? 200 then
          r <- writeImage env fullPath i ;; sys.ret (i, r)
        else
          found <- tryCandidates env cancelled (candidates (ImageUrl i)) ;;
          match found with
          | Some alt =>
              let i' := setUrl i alt in
              r <- writeImage env fullPath i' ;; sys.ret (i', r)
          | None =>
              let altUrl := strings.Replace1 (ImageUrl i) "/files/large/" "/files/" in
              if sys.http_NewRequest_ok env altUrl then
                resAlt <- sys.client_Do env cancelled altUrl ;;
                match resAlt with
                | sys.HttpStatus 200 =>
                    (* [i.Url = altUrl; res = resAlt], then the
                       statements after the [if]: [lastErr = ...; continue] *)
                    sys.ret (setUrl i altUrl, Continue (ErrStatus 200))
                | _ => sys.ret (i, Continue (ErrStatus code))
                end
              else sys.ret (i, Continue (ErrStatus code))
          end
    end.

(** The retry loop with [n] turns left, then the final [return nil, ...]. *)
Fixpoint Download_loop (env : sys.Env) (cancelled : bool) (fullPath : string)
    (n : nat) (attempt : Z) (i : PageImage) (lastErr : option error)
  : sys.M (PageImage * (option DownloadedImage * option error)) :=
  match n with
  | O =>
      sys.ret (i, (None,
        Some (ErrWrap (ErrExhausted "failed to download image" maxRetries lastErr))))
  | S n' =>
      r <- Download_attempt env cancelled fullPath attempt i ;;
      match r with
      | (i', Return d) => sys.ret (i', (Some d, None))
      | (i', Continue e) =>
          Download_loop env cancelled fullPath n' (attempt + 1) i' (Some e)
      end
  end.

(** [func (i *PageImage) Download(ctx, outputFolder)]: the descriptor
    after the call, and the pair Go returns. *)
Definition Download (env : sys.Env) (cancelled : bool) (i : PageImage)
    (outputFolder : string)
  : sys.M (PageImage * (option DownloadedImage * option error)) :=
  let fullPath := imagePath outputFolder i in
  found <- sys.os_Stat fullPath ;;
  if found then sys.ret (i, (Some (downloaded i fullPath), None))
  else Download_loop env cancelled fullPath (Z.to_nat maxRetries) 0 i None.

(** *** [CaptureInteractivePageQuiet] (book.go, lines 440-719) *)

Definition capturePath (outputFolder : string) (pageNumber : Z) : string :=
  sys.filepath_Join outputFolder ("interactive-" +:+ pretty pageNumber +:+ ".png").

(** The retry loop around [chromedp.Run]: [err] and the length of [buf]
    when the loop ends. *)
Fixpoint capture_loop (env : sys.Env) (pageUrl : string) (n : nat) (attempt : Z)
    (err : bool) (buf : nat) : sys.M (bool * nat) :=
  match n with
  | O => sys.ret (err, buf)
  | S n' =>
      (if 0 <? attempt then sys.time_Sleep (2 * sys.Second) else sys.ret tt) ;;;
      r <- sys.chromedp_run env pageUrl ;;
      let err' := match r with None => true | Some _ => false end in
      let buf' := match r with None => buf | Some len => len end in
      if negb err' && (0 <? buf')%nat then sys.ret (err', buf')
      else capture_loop env pageUrl n' (attempt + 1) err' buf'
  end.

Definition CaptureInteractivePageQuiet (env : sys.Env) (pageUrl outputFolder : string)
    (pageNumber overallOrder : Z)
  : sys.M (option InteractivePageImage * option error) :=
  let fullPath := capturePath outputFolder pageNumber in
  found <- sys.os_Stat fullPath ;;
  if found then
    sys.ret (Some (mkInteractivePageImage pageNumber overallOrder pageUrl fullPath), None)
  else
    r <- capture_loop env pageUrl 2 0 false 0 ;;
    let '(err, buf) := r in
    if err then
      sys.ret (None, Some (ErrWrap (ErrExhausted "error capturing page" 2 (Some (ErrChrome pageNumber)))))
    else if (buf =? 0)%nat then
      sys.ret (None, Some (ErrWrap (ErrExhausted "failed to capture page" 2 None)))
    else
      written <- sys.os_WriteFile env fullPath ;;
      if negb written then sys.ret (None, Some (ErrWrap (ErrWriteFile fullPath)))
      else sys.ret (Some (mkInteractivePageImage pageNumber overallOrder pageUrl fullPath), None).

(** *** [downloadHtmlConfig]: from the script to the JSON text
    (book.go, lines 758-760) *)

(** [startTrimPattern.ReplaceAllLiteralString] of [s] by the empty
    string, with [startTrimPattern = ^[^\{]+]: the bytes before the first
    opening brace are removed.  A brace is a one-byte rune, so the runes the
    pattern takes are the bytes before it. *)
Fixpoint startTrim (s : string) : string :=
  match s with
  | EmptyString => EmptyString
  | String c r => if Ascii.eqb c "{" then s else startTrim r
  end.

(** [endTrimPattern.ReplaceAllLiteralString] of [s] by the empty string,
    with [endTrimPattern = [^}]+$]: the leftmost match starts right after
    the last closing brace, so the bytes after it are removed. *)
Fixpoint endTrim (s : string) : string :=
  match s with
  | EmptyString => EmptyString
  | String c r =>
      match endTrim r with
      | EmptyString => if Ascii.eqb c "}" then String c EmptyString else EmptyString
      | t => String c t
      end
  end.

(** The text handed to [json.Unmarshal]. *)
Definition jsonConfigOf (jsConfig : string) : string :=
  let jsonConfig := startTrim jsConfig in
  endTrim jsonConfig.

End book.

(** ** Package [main] (cmd/main.go) *)

Module main.
Import book.

Record Args := mkArgs {
  Concurrency : Z;
  Force : bool;
  Interactive : bool;
  BatchSize : Z
}.

Definition len {A} (l : list A) : Z := Z.of_nat (length l).

(** [l[start:end]] for [0 <= start <= end <= len(l)]. *)
Definition slice {A} (l : list A) (start stop : Z) : list A :=
  take (Z.to_nat (stop - start)) (drop (Z.to_nat start) l).

(** *** [downloadImages] (lines 62-190)

    The image folder [imageOutputRoot] (lines 38-60) is an argument.  The
    progress bar and the rate report do not take part in the result and
    are left out; [mainBar.Add] and [mainBar.Close] are taken to
    succeed.  The goroutines of a batch are run one after the other in
    submission order, the schedule of [Concurrency = 1]; the final sort
    makes the result independent of the order of completion. *)

(** The body of one [eg.Go] closure.  [firstErr] is the error [eg.Wait]
    will return; once it is set the batch context is cancelled.  A [nil]
    result with a [nil] error would be dereferenced: a panic. *)
Definition downloadOne (env : sys.Env) (imageOutputRoot : string)
    (st : list DownloadedImage * option error) (image : PageImage)
  : sys.M (sys.outcome (list DownloadedImage * option error)) :=
  let '(downloadedImages, firstErr) := st in
  let expectedPath := imagePath imageOutputRoot image in
  found <- sys.os_Stat expectedPath ;;
  if found then
    sys.ret (sys.Returned
      (downloadedImages ++
         [mkDownloadedImage (PageNumber image) (ImageNumber image)
            (OverallOrder image) (ImageUrl image) expectedPath],
       firstErr))
  else
    r <- Download env (bool_decide (is_Some firstErr)) image imageOutputRoot ;;
    match snd r with
    | (_, Some err) =>
        sys.ret (sys.Returned
          (downloadedImages,
           match firstErr with Some e => Some e | None => Some (ErrWrap err) end))
    | (Some result, None) =>
        sys.ret (sys.Returned (downloadedImages ++ [result], firstErr))
    | (None, None) => sys.ret sys.Panicked
    end.

(** [for batchIdx := 0; batchIdx < numBatches; batchIdx++] with [n]
    batches left: the accumulated images, or the error of the batch
    that failed. *)
Fixpoint downloadBatches (env : sys.Env) (imageOutputRoot : string)
    (images : list PageImage) (batchSize : Z) (n : nat) (batchIdx : Z)
    (downloadedImages : list DownloadedImage)
  : sys.M (sys.outcome (list DownloadedImage * option error)) :=
  match n with
  | O => sys.ret (sys.Returned (downloadedImages, None))
  | S n' =>
      let start := batchIdx * batchSize in
      let stop := (batchIdx + 1) * batchSize in
      let stop := if len images <? stop then len images else stop in
      let batchImages := slice images start stop in
      o <- sys.forEach (downloadOne env imageOutputRoot) batchImages
             (downloadedImages, None) ;;
      match o with
      | sys.Panicked => sys.ret sys.Panicked
      | sys.Returned (_, Some err) => sys.ret (sys.Returned ([], Some (ErrWrap err)))
      | sys.Returned (downloadedImages', None) =>
          downloadBatches env imageOutputRoot images batchSize n' (batchIdx + 1)
            downloadedImages'
      end
  end.

Definition downloadImages (env : sys.Env) (imageOutputRoot : string)
    (images : list PageImage)
  : sys.M (sys.outcome (list DownloadedImage * option error)) :=
  let batchSize := 50 in
  let batchSize := if len images <=? batchSize then len images else batchSize in
  (* [(len(images) + batchSize - 1) / batchSize] panics on a zero divisor *)
  if batchSize =? 0 then sys.ret sys.Panicked
  else
    let numBatches := Z.quot (len images + batchSize - 1) batchSize in
    o <- downloadBatches env imageOutputRoot images batchSize
           (Z.to_nat numBatches) 0 [] ;;
    match o with
    | sys.Panicked => sys.ret sys.Panicked
    | sys.Returned (_, Some err) => sys.ret (sys.Returned ([], Some err))
    | sys.Returned (downloadedImages, None) =>
        sys.ret (sys.Returned (sys.sortBy dOverallOrder downloadedImages, None))
    end.

(** *** [captureInteractivePages] (lines 218-496)

    The capture folder [interactiveOutputRoot] (lines 194-216) is an
    argument; progress bars and time estimates are left out.  The
    captures of a batch are run one after the other in the order of the
    batch. *)

Definition pageUrl (b : Book) (pageNumber : Z) : string :=
  Url b +:+ "#p=" +:+ pretty pageNumber.

(** [if pageNum > 1 && pageNum%2 == 0 && pageNum < len(b.Pages)]: the
    reference for the odd page, on the same file as the even page. *)
Definition oddReference (b : Book) (pageNum : Z) (fullPath : string)
  : list InteractivePageImage :=
  if (1 <? pageNum) && (Z.rem pageNum 2 =? 0) && (pageNum <? len (Pages b))
  then let oddPageNumber := pageNum + 1 in
       [mkInteractivePageImage oddPageNumber oddPageNumber
          (pageUrl b oddPageNumber) fullPath]
  else [].

(** [for i := 2; i <= len(b.Pages); i += 2] *)
Fixpoint evenPages (fuel : nat) (i n : Z) (pagesToCapture : list Z) : list Z :=
  match fuel with
  | O => pagesToCapture
  | S fuel' =>
      if i <=? n then evenPages fuel' (i + 2) n (pagesToCapture ++ [i])
      else pagesToCapture
  end.

Definition pagesToCapture (b : Book) : list Z :=
  evenPages (length (Pages b)) 2 (len (Pages b)) [1].

(** The shared lists [capturedPages] and [failedPages]. *)
Definition captureState : Type := list InteractivePageImage * list Z.

(** One turn of [for _, pageNumber := range currentBatch]. *)
Definition captureOne (env : sys.Env) (b : Book) (interactiveOutputRoot : string)
    (st : captureState) (pageNumber : Z) : sys.M (sys.outcome captureState) :=
  let '(capturedPages, failedPages) := st in
  let fullPath := capturePath interactiveOutputRoot pageNumber in
  found <- sys.os_Stat fullPath ;;
  if found then
    sys.ret (sys.Returned
      ((capturedPages ++
          [mkInteractivePageImage pageNumber pageNumber (pageUrl b pageNumber) fullPath])
         ++ oddReference b pageNumber fullPath,
       failedPages))
  else
    sys.time_Sleep (200 * sys.Millisecond) ;;;
    r <- CaptureInteractivePageQuiet env (pageUrl b pageNumber)
           interactiveOutputRoot pageNumber pageNumber ;;
    match r with
    | (_, Some err) =>
        sys.emit (sys.EvPrint (sys.MsgCaptureError pageNumber)) ;;;
        sys.ret (sys.Returned (capturedPages, failedPages ++ [pageNumber]))
    | (Some result, None) =>
        sys.ret (sys.Returned
          ((capturedPages ++ [result]) ++ oddReference b pageNumber (iFullPath result),
           failedPages))
    | (None, None) => sys.ret sys.Panicked
    end.

(** [for batchIndex := 0; batchIndex < numBatches; batchIndex++] *)
Fixpoint captureBatches (env : sys.Env) (b : Book) (interactiveOutputRoot : string)
    (pages : list Z) (batchSize numBatches : Z) (n : nat) (batchIndex : Z)
    (st : captureState) : sys.M (sys.outcome captureState) :=
  match n with
  | O => sys.ret (sys.Returned st)
  | S n' =>
      let startIdx := batchIndex * batchSize in
      let endIdx := (batchIndex + 1) * batchSize in
      let endIdx := if len pages <? endIdx then len pages else endIdx in
      let currentBatch := slice pages startIdx endIdx in
      o <- sys.forEach (captureOne env b interactiveOutputRoot) currentBatch st ;;
      match o with
      | sys.Panicked => sys.ret sys.Panicked
      | sys.Returned st' =>
          (if batchIndex <? numBatches - 1
           then sys.time_Sleep (2 * sys.Second) else sys.ret tt) ;;;
          captureBatches env b interactiveOutputRoot pages batchSize numBatches
            n' (batchIndex + 1) st'
      end
  end.

(** One turn of [for _, pageNum := range failedPages] in the retry pass. *)
Definition retryOne (env : sys.Env) (b : Book) (interactiveOutputRoot : string)
    (capturedPages : list InteractivePageImage) (pageNum : Z)
  : sys.M (sys.outcome (list InteractivePageImage)) :=
  sys.time_Sleep (3 * sys.Second) ;;;
  r <- CaptureInteractivePageQuiet env (pageUrl b pageNum)
         interactiveOutputRoot pageNum pageNum ;;
  match r with
  | (_, Some err) =>
      sys.emit (sys.EvPrint (sys.MsgStillFailed pageNum)) ;;;
      sys.ret (sys.Returned capturedPages)
  | (Some result, None) =>
      sys.emit (sys.EvPrint (sys.MsgRetrySucceeded pageNum)) ;;;
      sys.ret (sys.Returned
        ((capturedPages ++ [result]) ++ oddReference b pageNum (iFullPath result)))
  | (None, None) => sys.ret sys.Panicked
  end.

Definition captureInteractivePages (env : sys.Env) (args : Args) (b : Book)
    (interactiveOutputRoot : string)
  : sys.M (sys.outcome (list InteractivePageImage * option error)) :=
  let concurrencyLimit := 4 in
  let concurrencyLimit :=
    if (0 <? Concurrency args) && (Concurrency args <? concurrencyLimit)
    then Concurrency args else concurrencyLimit in
  let batchSize := 8 in
  let batchSize := if 0 <? BatchSize args then BatchSize args else batchSize in
  let batchSize := if batchSize <? concurrencyLimit then concurrencyLimit else batchSize in
  let pages := pagesToCapture b in
  let numBatches := Z.quot (len pages + batchSize - 1) batchSize in
  o <- captureBatches env b interactiveOutputRoot pages batchSize numBatches
         (Z.to_nat numBatches) 0 ([], []) ;;
  match o with
  | sys.Panicked => sys.ret sys.Panicked
  | sys.Returned (capturedPages, failedPages) =>
      let failedPages := sys.sortBy id failedPages in
      (if 0 <? len failedPages
       then sys.emit (sys.EvPrint (sys.MsgFailedPages failedPages))
       else sys.ret tt) ;;;
      let capturedPages := sys.sortBy iOverallOrder capturedPages in
      if len capturedPages =? 0 then sys.ret (sys.Returned ([], Some ErrNoCaptures))
      else if (0 <? len failedPages) && (len failedPages <? len pages) then
        o' <- sys.forEach (retryOne env b interactiveOutputRoot) failedPages
                capturedPages ;;
        match o' with
        | sys.Panicked => sys.ret sys.Panicked
        | sys.Returned capturedPages' =>
            sys.ret (sys.Returned (sys.sortBy iOverallOrder capturedPages', None))
        end
      else sys.ret (sys.Returned (capturedPages, None))
  end.

(** *** [generateInteractivePDF] (lines 627-669) and [generatePDF] *)

(** [pageMap]: first the normal images, then the interactive ones. *)
Definition pageMapOf (downloadedImages : list DownloadedImage)
    (interactiveImages : list InteractivePageImage) : gmap Z string :=
  foldl (fun pageMap intImg => <[iPageNumber intImg := iFullPath intImg]> pageMap)
    (foldl (fun pageMap img => <[dPageNumber img := dFullPath img]> pageMap)
       ∅ downloadedImages)
    interactiveImages.

(** The ordered list of image files handed to the encoder.  Ranging
    over a Go map visits the keys in no fixed order; [sort.Ints] then
    fixes it. *)
Definition orderedImages (downloadedImages : list DownloadedImage)
    (interactiveImages : list InteractivePageImage) : list string :=
  let pageMap := pageMapOf downloadedImages interactiveImages in
  let pageNums := sys.sortBy id (map fst (map_to_list pageMap)) in
  map (fun num => default "" (pageMap !! num)) pageNums.

Definition generateInteractivePDF (env : sys.Env)
    (downloadedImages : list DownloadedImage)
    (interactiveImages : list InteractivePageImage) (pdfPath : string) (force : bool)
  : sys.M (option error) :=
  found <- sys.os_Stat pdfPath ;;
  if found && negb force then sys.ret (Some (ErrPdfExists pdfPath))
  else
    let images := orderedImages downloadedImages interactiveImages in
    ok <- sys.ImportImagesFile env images pdfPath ;;
    sys.ret (if ok then None else Some (ErrWrap ErrEncode)).

Definition generatePDF (env : sys.Env) (images : list DownloadedImage)
    (pdfPath : string) (force : bool) : sys.M (option error) :=
  found <- sys.os_Stat pdfPath ;;
  if found && negb force then sys.ret (Some (ErrPdfExists pdfPath))
  else
    let imageFiles := map dFullPath images in
    ok <- sys.ImportImagesFile env imageFiles pdfPath ;;
    sys.ret (if ok then None else Some (ErrWrap ErrEncode)).

(** *** [downloadPdf2], from [images := b.FindAllImages()] on (lines 555-623) *)

(** [if len(images) > 1000 { ...; images = images[:1000] }] *)
Definition limitImages (images : list PageImage) : sys.M (list PageImage) :=
  if 1000 <? len images then
    sys.emit (sys.EvPrint (sys.MsgImageLimit (len images))) ;;;
    sys.ret (slice images 0 1000)
  else sys.ret images.

Definition wrapErr (e : option error) : option error :=
  match e with Some err => Some (ErrWrap err) | None => None end.

Definition downloadPdf2 (env : sys.Env) (args : Args) (b : Book)
    (imageOutputRoot interactiveOutputRoot pdfPath : string)
  : sys.M (sys.outcome (option error)) :=
  let images := FindAllImages b in
  images <- limitImages images ;;
  o <- downloadImages env imageOutputRoot images ;;
  match o with
  | sys.Panicked => sys.ret sys.Panicked
  | sys.Returned (_, Some err) => sys.ret (sys.Returned (Some (ErrWrap err)))
  | sys.Returned (downloadedImages, None) =>
      if Interactive args then
        c <- captureInteractivePages env args b interactiveOutputRoot ;;
        match c with
        | sys.Panicked => sys.ret sys.Panicked
        | sys.Returned (_, Some err) => sys.ret (sys.Returned (Some (ErrWrap err)))
        | sys.Returned (interactiveImages, None) =>
            if 0 <? len interactiveImages then
              e <- generateInteractivePDF env downloadedImages interactiveImages
                     pdfPath (Force args) ;;
              sys.ret (sys.Returned (wrapErr e))
            else
              e <- generatePDF env downloadedImages pdfPath (Force args) ;;
              sys.ret (sys.Returned (wrapErr e))
        end
      else
        e <- generatePDF env downloadedImages pdfPath (Force args) ;;
        sys.ret (sys.Returned (wrapErr e))
  end.

(** *** [sanitizeFilename] (lines 758-764) *)

(** [invalidChars], each a string of one byte: slash, backslash, colon,
    star, question mark, double quote, less, greater, bar. *)
Definition invalidChars : list ascii :=
  map ascii_of_nat [47; 92; 58; 42; 63; 34; 60; 62; 124]%nat.

Definition sanitizeFilename (filename : string) : string :=
  foldl (fun filename char => strings.ReplaceAll1 filename char "")
    filename invalidChars.

(** *** [downloadPdf2], the whole (lines 519-623)

    [b] is the book that [book.Get] returned and [outputDir] the output
    directory, which exists; [numCPU] is [runtime.NumCPU()].  The message
    of the skip and the reports of the elapsed time are left out. *)

(** [args.Concurrency] as lines 521-526 leave it. *)
Definition defaultConcurrency (numCPU : Z) (args : Args) : Args :=
  if Concurrency args <=? 0 then
    let c := numCPU - 1 in
    mkArgs (if c <=? 0 then 1 else c) (Force args) (Interactive args) (BatchSize args)
  else args.

Definition pdfPathOf (b : Book) (outputDir : string) : string :=
  let sanitizedTitle := sanitizeFilename (Title b) in
  sys.filepath_Join outputDir (sanitizedTitle +:+ ".pdf").

Definition downloadPdf2_book (env : sys.Env) (numCPU : Z) (args : Args) (b : Book)
    (outputDir imageOutputRoot interactiveOutputRoot : string)
  : sys.M (sys.outcome (option error)) :=
  let args := defaultConcurrency numCPU args in
  let pdfPath := pdfPathOf b outputDir in
  found <- sys.os_Stat pdfPath ;;
  if found && negb (Force args) then sys.ret (sys.Returned None)
  else downloadPdf2 env args b imageOutputRoot interactiveOutputRoot pdfPath.

(** *** [extractPageNumber] (lines 739-749) *)

Definition extractPageNumber (filename : string) : Z :=
  let base := filepath.Base filename in
  let numStr := strings.TrimPrefix base "interactive-" in
  let numStr := strings.TrimSuffix numStr ".png" in
  match strconv.Atoi numStr with
  | Some num => num
  | None => 0
  end.

(** *** [formatDuration] (lines 499-511)

    A [time.Duration] is an [int64] of nanoseconds. *)

Definition Minute : Z := 60 * sys.Second.
Definition Hour : Z := 60 * Minute.

Definition int64 (x : Z) : Z := (x + 2 ^ 63) mod 2 ^ 64 - 2 ^ 63.
Definition uint64 (x : Z) : Z := x mod 2 ^ 64.

Definition minDuration : Z := - 2 ^ 63.
Definition maxDuration : Z := 2 ^ 63 - 1.

(** [lessThanHalf(x, y)]: [uint64(x)+uint64(x) < uint64(y)] *)
Definition lessThanHalf (x y : Z) : bool :=
  uint64 (uint64 x + uint64 x) <? uint64 y.

(** [d.Round(m)] of package [time]: to the nearest multiple of [m],
    halfway values away from zero. *)
Definition Round (d m : Z) : Z :=
  if m <=? 0 then d
  else
    let r := Z.rem d m in
    if d <? 0 then
      let r := int64 (- r) in
      if lessThanHalf r m then int64 (d + r)
      else
        let d1 := int64 (int64 (d - m) + r) in
        if d1 <? d then d1 else minDuration
    else
      if lessThanHalf r m then int64 (d - r)
      else
        let d1 := int64 (int64 (d + m) - r) in
        if d <? d1 then d1 else maxDuration.

(** The verb [%02d]: at least two digits for a number that is not
    negative; a sign takes the place of the padding. *)
Definition fmt02d (x : Z) : string :=
  if x <? 0 then pretty x
  else if x <? 10 then "0" +:+ pretty x
  else pretty x.

Definition formatDuration (d : Z) : string :=
  let d := Round d sys.Second in
  let h := Z.quot d Hour in
  let d := int64 (d - int64 (h * Hour)) in
  let m := Z.quot d Minute in
  let d := int64 (d - int64 (m * Minute)) in
  let s := Z.quot d sys.Second in
  if 0 <? h then fmt02d h +:+ ":" +:+ fmt02d m +:+ ":" +:+ fmt02d s
  else fmt02d m +:+ ":" +:+ fmt02d s.

End main.

(** ** The terminal front end (cmd/termui.go): identifiers of queue entries *)

Module termui.

(** The bytes of the class [a-zA-Z0-9_-]. *)
Definition isSafe (c : ascii) : bool :=
  let n := nat_of_ascii c in
  ((97 <=? n) && (n <=? 122) || (65 <=? n) && (n <=? 90)
   || (48 <=? n) && (n <=? 57) || (n =? 95) || (n =? 45))%nat.

(** The width of the first rune of a non-empty [s] as
    [utf8.DecodeRuneInString] finds it, which is how the [regexp] package
    steps through a string: an invalid or cut-off encoding counts as one
    rune of width 1. *)
Definition runeWidth (s : string) : nat :=
  let between lo hi c :=
    let n := nat_of_ascii c in ((lo <=? n) && (n <=? hi))%nat in
  let cont := between 128%nat 191%nat in
  match s with
  | EmptyString => 0%nat
  | String c0 r =>
      let s0 := nat_of_ascii c0 in
      if (s0 <? 194)%nat then 1%nat
      else if (s0 <? 224)%nat then
        match r with
        | String c1 _ => if cont c1 then 2%nat else 1%nat
        | _ => 1%nat
        end
      else if (s0 <? 240)%nat then
        let first :=
          if (s0 =? 224)%nat then between 160%nat 191%nat
          else if (s0 =? 237)%nat then between 128%nat 159%nat
          else cont in
        match r with
        | String c1 (String c2 _) => if first c1 && cont c2 then 3%nat else 1%nat
        | _ => 1%nat
        end
      else if (s0 <? 245)%nat then
        let first :=
          if (s0 =? 240)%nat then between 144%nat 191%nat
          else if (s0 =? 244)%nat then between 128%nat 143%nat
          else cont in
        match r with
        | String c1 (String c2 (String c3 _)) =>
            if first c1 && cont c2 && cont c3 then 4%nat else 1%nat
        | _ => 1%nat
        end
      else 1%nat
  end.

(** [re.ReplaceAllString(name, "_")] with [re = [^a-zA-Z0-9_-]]: every
    rune outside the class becomes one underscore.  [skip] counts the
    bytes of the current rune that are still to be passed over. *)
Fixpoint replaceUnsafe (skip : nat) (s : string) : string :=
  match s with
  | EmptyString => EmptyString
  | String c r =>
      match skip with
      | S k => replaceUnsafe k r
      | O =>
          if isSafe c then String c (replaceUnsafe 0 r)
          else String "_" (replaceUnsafe (runeWidth s - 1) r)
      end
  end.

Definition generateSafeID (fileName : string) : string :=
  let name := strings.TrimSuffix fileName ".txt" in
  let safeName := replaceUnsafe 0 name in
  if (64 <? String.length safeName)%nat then strings.take 64 safeName
  else safeName.

Inductive idError :=
| ErrInvalidUrlFormat
| ErrCouldNotExtract.

(** [parts[k]]: an index out of range is a panic. *)
Definition index (parts : list string) (k : Z) : sys.outcome string :=
  if (0 <=? k) && (k <? main.len parts) then
    match parts !! Z.to_nat k with
    | Some p => sys.Returned p
    | None => sys.Panicked
    end
  else sys.Panicked.

Definition extractBookID (url : string) : sys.outcome (string + idError) :=
  let parts := strings.Split1 (strings.TrimSuffix url "/") "/" in
  if main.len parts <? 2 then sys.Returned (inr ErrInvalidUrlFormat)
  else
    let last := main.len parts - 1 in
    let secondLast := main.len parts - 2 in
    if (0 <=? last) && (0 <=? secondLast) then
      match index parts secondLast, index parts last with
      | sys.Returned a, sys.Returned b => sys.Returned (inl (a +:+ "_" +:+ b))
      | _, _ => sys.Panicked
      end
    else sys.Returned (inr ErrCouldNotExtract).

End termui.

(** * Specification vocabulary

    The notions used to state the properties: the rules of the
    specification in its own words, the classification of log events,
    and the invariants of the loops. *)

Import book.

(** ** The rules of the specification *)

(** The rule in the words of the specification: strip a leading [./];
    a name that already begins with [files/] is appended to the root URL
    of the publication as it is, any other name goes below
    [files/large/]. *)
Definition normalizeImage_spec (id filename : string) : string :=
  let name := strings.TrimPrefix filename "./" in
  if strings.HasPrefix name "files/" then fileRoot id +:+ name
  else fileRoot id +:+ "files/large/" +:+ name.

(** Every byte of [s] is a word byte. *)
Fixpoint allWord (s : string) : bool :=
  match s with
  | EmptyString => true
  | String c r => isWord c && allWord r
  end.

(** [s] does not begin with a word byte. *)
Definition noWordHead (s : string) : bool :=
  match s with
  | EmptyString => true
  | String c _ => negb (isWord c)
  end.

(** The two-segment pattern in the words of the specification: the text
    begins with a non-empty run of word bytes, a slash and a second
    non-empty run of word bytes (each run as long as it can be); [id] is
    that beginning. *)
Definition twoSegment (s id : string) : Prop :=
  exists w1 w2 rest,
    s = w1 +:+ "/" +:+ w2 +:+ rest
    /\ id = w1 +:+ "/" +:+ w2
    /\ w1 <> "" /\ w2 <> ""
    /\ allWord w1 = true /\ allWord w2 = true /\ noWordHead rest = true.

(** A URL with a non-empty host whose path, without the slashes around
    it, begins with the two-segment pattern. *)
Definition urlWithId (url_Parse : string -> option URL) (s id : string) : Prop :=
  exists u, url_Parse s = Some u /\ Host u <> ""
            /\ twoSegment (strings.Trim1 (Path u) "/") id.

(** The content path the specification asks for on page [n]: the path of
    the last captured asset of that page when there is one, otherwise the
    path of the last downloaded entry of that page. *)
Definition chosenPath (downloadedImages : list DownloadedImage)
    (interactiveImages : list InteractivePageImage) (n : Z) : string :=
  match last (filter (fun c => iPageNumber c = n) interactiveImages) with
  | Some c => iFullPath c
  | None =>
      match last (filter (fun d => dPageNumber d = n) downloadedImages) with
      | Some d => dFullPath d
      | None => ""
      end
  end.

(** The records the specification asks for after page [n] is captured on
    the file [path]: an even page from 2 on gives its own record and,
    exactly when it is below the page count, one for the next page on the
    same file; page 1 and odd pages give a single record. *)
Definition spreadRecords (b : Book) (n : Z) (path : string)
  : list InteractivePageImage :=
  let rec k := mkInteractivePageImage k k (main.pageUrl b k) path in
  if Z.even n && (2 <=? n)
  then (if n <? main.len (Pages b) then [rec n; rec (n + 1)] else [rec n])
  else [rec n].

(** The order of two elements by their integer keys. *)
Definition keyLe {A} (key : A -> Z) (x y : A) : Prop := key x <= key y.

(** ** Runs and logs *)

(** [wp m Q w]: running [m] from the world [w] ends in a result and a
    world that satisfy [Q]. *)
Definition wp {A} (m : sys.M A) (Q : A -> sys.World -> Prop) (w : sys.World) : Prop :=
  Q (m w).1 (m w).2.

(** [w'] continues the log of [w]. *)
Definition extends (w w' : sys.World) : Prop :=
  exists evs, sys.log w' = sys.log w ++ evs.

(** [evs] is what the run from [w] to [w'] adds to the log. *)
Definition trace (w : sys.World) (evs : list sys.Event) (w' : sys.World) : Prop :=
  sys.log w' = sys.log w ++ evs.

(** The pauses of a piece of log, in order. *)
Definition sleepsOf (evs : list sys.Event) : list Z :=
  omap (fun e => match e with sys.EvSleep d => Some d | _ => None end) evs.

(** [e] is a network request. *)
Definition isGet (e : sys.Event) : Prop :=
  match e with sys.EvGet _ => True | _ => False end.

(** Every creation of a file in [evs] is directly followed by its removal. *)
Fixpoint removedAfterCreate (evs : list sys.Event) : Prop :=
  match evs with
  | [] => True
  | sys.EvCreate p :: rest =>
      match rest with
      | sys.EvRemove q :: _ => p = q /\ removedAfterCreate rest
      | _ => False
      end
  | _ :: rest => removedAfterCreate rest
  end.

(** The pause that opens attempt number [attempt]. *)
Definition sleepPart (attempt : Z) : list sys.Event :=
  if 0 <? attempt then [sys.EvSleep (2 ^ attempt * sys.Second)] else [].

(** The pauses of the attempts [attempt], ..., [attempt + n - 1]. *)
Fixpoint sleepSeq (attempt : Z) (n : nat) : list Z :=
  match n with
  | O => []
  | S n' => sleepsOf (sleepPart attempt) ++ sleepSeq (attempt + 1) n'
  end.

(** ** The download of an image and of a list of images *)

(** The fields of an asset that do not depend on the URL in use. *)
Definition assetKey (d : DownloadedImage) : Z * Z * Z * string :=
  (dPageNumber d, dImageNumber d, dOverallOrder d, dFullPath d).

(** The same fields as they follow from a descriptor and the image folder. *)
Definition expectedKey (root : string) (i : PageImage) : Z * Z * Z * string :=
  (PageNumber i, ImageNumber i, OverallOrder i, imagePath root i).

(** The global order among these fields. *)
Definition keyOrder (k : Z * Z * Z * string) : Z := k.1.2.

(** [i'] is the descriptor [i] up to its URL. *)
Definition sameIds (i i' : PageImage) : Prop :=
  PageNumber i' = PageNumber i /\ ImageNumber i' = ImageNumber i
  /\ OverallOrder i' = OverallOrder i.

(** The asset the resume path makes up from a descriptor. *)
Definition synthesized (root : string) (i : PageImage) : DownloadedImage :=
  downloaded i (imagePath root i).

(** How the part of an attempt from [OK:] on ends. *)
Definition writePost (env : sys.Env) (path : string) (w : sys.World)
    (i : PageImage) (r : attemptResult) (tail : list sys.Event) (w' : sys.World)
  : Prop :=
  trace w tail w'
  /\ match r with
     | Return d =>
         tail = [sys.EvCreate path] /\ d = downloaded i path
         /\ sys.files w' = {[path]} ∪ sys.files w
     | Continue _ =>
         (tail = [] /\ sys.files w' = sys.files w)
         \/ (tail = [sys.EvCreate path; sys.EvRemove path]
             /\ (sys.files w' = ({[path]} ∪ sys.files w) ∖ {[path]}
                 \/ (sys.files w' = {[path]} ∪ sys.files w
                     /\ exists t, sys.os_Remove_ok env t path = false)))
     end.

(** How one attempt ends: the pause of the attempt, then requests, then
    at most the creation of the file and, if writing failed, its
    removal.  The descriptor keeps its numbers; its URL changes only to
    an alternative that answered 200. *)
Definition attemptPost (env : sys.Env) (path : string) (attempt : Z)
    (w : sys.World) (i : PageImage) (r : PageImage * attemptResult)
    (w' : sys.World) : Prop :=
  sameIds i r.1
  /\ (ImageUrl r.1 = ImageUrl i
      \/ exists t, sys.http_Do env t (ImageUrl r.1) = sys.HttpStatus 200)
  /\ exists gets tail w2,
       Forall isGet gets
       /\ trace w (sleepPart attempt ++ gets) w2
       /\ sys.files w2 = sys.files w
       /\ writePost env path w2 r.1 r.2 tail w'.

(** How the retry loop ends when it starts at attempt number [a] with
    [n] turns left. *)
Definition loopPost (env : sys.Env) (path : string) (w : sys.World) (a : Z)
    (n : nat) (lastErr : option error) (i : PageImage)
    (r : PageImage * (option DownloadedImage * option error))
    (w' : sys.World) : Prop :=
  sameIds i r.1
  /\ (ImageUrl r.1 = ImageUrl i
      \/ exists t, sys.http_Do env t (ImageUrl r.1) = sys.HttpStatus 200)
  /\ exists evs,
       trace w evs w'
       /\ match r.2 with
          | (Some d, None) =>
              d = downloaded r.1 path /\ path ∈ sys.files w'
              /\ exists k, (1 <= k <= n)%nat /\ sleepsOf evs = sleepSeq a k
          | (None, Some e) =>
              (exists le,
                  e = ErrWrap (ErrExhausted "failed to download image" maxRetries le)
                  /\ (n = O -> le = lastErr) /\ (n <> O -> is_Some le))
              /\ sleepsOf evs = sleepSeq a n
              /\ removedAfterCreate evs
              /\ (path ∉ sys.files w ->
                  sys.files w' = sys.files w
                  \/ exists t, sys.os_Remove_ok env t path = false)
          | _ => False
          end.

(** The whole of [Download]: an existing file is returned as it is and
    nothing happens; otherwise the retry loop runs from attempt 0. *)
Definition downloadPost (env : sys.Env) (root : string) (w : sys.World)
    (i : PageImage) (r : PageImage * (option DownloadedImage * option error))
    (w' : sys.World) : Prop :=
  (imagePath root i ∈ sys.files w
   /\ r = (i, (Some (downloaded i (imagePath root i)), None)) /\ w' = w)
  \/ ((imagePath root i ∉ sys.files w)
      /\ loopPost env (imagePath root i) w 0 3 None i r w').

(** What holds of a batch state after the images [seen]: as long as no
    download failed, each image seen has its asset, in order. *)
Definition batchInv (root : string) (acc0 : list DownloadedImage)
    (seen : list PageImage) (st : list DownloadedImage * option error)
    (w : sys.World) : Prop :=
  st.2 = None ->
  exists ds, st.1 = acc0 ++ ds
             /\ map assetKey ds = map (expectedKey root) seen.

(** How the download phase ends: with an asset for every descriptor, in
    global order, or with an error and no image; it panics only on the
    empty list. *)
Definition downloadImagesPost (root : string) (images : list PageImage)
    (o : sys.outcome (list DownloadedImage * option error)) : Prop :=
  match o with
  | sys.Returned (ds, None) =>
      map assetKey ds = sys.sortBy keyOrder (map (expectedKey root) images)
  | sys.Returned (ds, Some _) => ds = []
  | sys.Panicked => images = []
  end.

(** ** The capture phase *)

(** The records of the pages [S]. *)
Definition recordsOf (b : Book) (root : string) (S : list Z)
  : list InteractivePageImage :=
  flat_map (fun n => spreadRecords b n (capturePath root n)) S.

(** The capture files of the pages [S]. *)
Definition filesOf (root : string) (S : list Z) : gset string :=
  list_to_set (map (capturePath root) S).

(** What holds in the first pass after the pages [seen]: they split into
    the pages [S] that were captured, whose records were collected and
    whose files were added, and the failed pages, which were reported and
    had no file at the start. *)
Definition captureInv (b : Book) (root : string) (w0 : sys.World)
    (seen : list Z) (st : main.captureState) (w : sys.World) : Prop :=
  extends w0 w
  /\ exists S,
       seen ≡ₚ S ++ st.2
       /\ st.1 = recordsOf b root S
       /\ sys.files w = sys.files w0 ∪ filesOf root S
       /\ forall n, n ∈ st.2 -> capturePath root n ∉ sys.files w0.

(** The same for the retry pass over the failed pages. *)
Definition retryInv (b : Book) (root : string) (w1 : sys.World)
    (captured1 : list InteractivePageImage) (seen : list Z)
    (captured : list InteractivePageImage) (w : sys.World) : Prop :=
  extends w1 w
  /\ exists S2 F2,
       seen ≡ₚ S2 ++ F2
       /\ captured = captured1 ++ recordsOf b root S2
       /\ sys.files w = sys.files w1 ∪ filesOf root S2
       /\ forall n, n ∈ F2 -> sys.EvPrint (sys.MsgStillFailed n) ∈ sys.log w.

(** How the capture phase ends: the requested pages split into the
    captured pages [S] and the still failing pages [F]. *)
Definition capturePhasePost (b : Book) (root : string) (w0 : sys.World)
    (o : sys.outcome (list InteractivePageImage * option error))
    (w' : sys.World) : Prop :=
  match o with
  | sys.Panicked => False
  | sys.Returned (captured, err) =>
      exists S F,
        main.pagesToCapture b ≡ₚ S ++ F
        /\ sys.files w' = sys.files w0 ∪ filesOf root S
        /\ (forall n, n ∈ F -> capturePath root n ∉ sys.files w0)
        /\ ((err = Some ErrNoCaptures /\ captured = [] /\ S = [])
            \/ (err = None /\ S <> []
                /\ captured ≡ₚ recordsOf b root S
                /\ StronglySorted (keyLe iOverallOrder) captured
                /\ forall n, n ∈ F ->
                     sys.EvPrint (sys.MsgStillFailed n) ∈ sys.log w'))
  end.

(** ** Concrete environments, worlds and books *)

(** A world with no file and an empty log. *)
Definition emptyWorld : sys.World := sys.mkWorld ∅ [].

(** The first image of a book, in the large-size folder. *)
Definition image11 : PageImage :=
  mkPageImage 1 1 1 "https://online.fliphtml5.com/ab/cd/files/large/1.webp".

(** A world in which the file of [image11] exists. *)
Definition worldWithImage : sys.World := sys.mkWorld {["out/1-1.jpg"]} [].

(** A server that answers 200 to every request, and a disk on which
    copying the body always fails. *)
Definition envCopyFails : sys.Env :=
  sys.mkEnv (fun _ => true) (fun _ _ => sys.HttpStatus 200) (fun _ _ => true)
    (fun _ => false) (fun _ => true) (fun _ => true) (fun _ _ => true)
    (fun _ _ => None) (fun _ _ => true) (fun _ => true).

(** A server on which only the flat form of the URL of [image11]
    exists. *)
Definition envAlternate : sys.Env :=
  sys.mkEnv (fun _ => true)
    (fun _ u =>
       if String.eqb u "https://online.fliphtml5.com/ab/cd/files/1.webp"
       then sys.HttpStatus 200 else sys.HttpStatus 404)
    (fun _ _ => true) (fun _ => true) (fun _ => true) (fun _ => true)
    (fun _ _ => true) (fun _ _ => None) (fun _ _ => true) (fun _ => true).



(** A book of [n] pages without images. *)
Definition bookOfPages (n : nat) : Book :=
  mkBook "https://online.fliphtml5.com/ab/cd/" "ab/cd" "t"
    (map (fun k => mkPage (Z.of_nat k) "" []) (seq 1 n)).


(** ** Bytes of a string *)

(** The byte [c] occurs in [s]. *)
Fixpoint occurs (c : ascii) (s : string) : bool :=
  match s with
  | EmptyString => false
  | String a r => Ascii.eqb a c || occurs c r
  end.

(** Every byte of [s] satisfies [P]. *)
Fixpoint allBytes (P : ascii -> bool) (s : string) : bool :=
  match s with
  | EmptyString => true
  | String a r => P a && allBytes P r
  end.

(** A decimal digit. *)
Definition isDigit (c : ascii) : bool :=
  let n := nat_of_ascii c in ((48 <=? n) && (n <=? 57))%nat.

(** ** Image descriptors *)

(** What a descriptor says of its image, apart from the global order. *)
Definition descr (i : PageImage) : Z * Z * string :=
  (PageNumber i, ImageNumber i, ImageUrl i).

(** The order of descriptors by page number, then by image number. *)
Definition lexLt (x y : PageImage) : Prop :=
  PageNumber x < PageNumber y
  \/ (PageNumber x = PageNumber y /\ ImageNumber x < ImageNumber y).

(** While the URLs of the page at index [i] are read and [j] of them are
    done: [x] belongs to an earlier page or is one of these [j]. *)
Definition inPage (i j : Z) (x : PageImage) : Prop :=
  PageNumber x < i + 1 \/ (PageNumber x = i + 1 /\ ImageNumber x < j + 1).

(** The string of a JSON value, if it is one. *)
Definition stringOf (v : jsonValue) : option string :=
  match v with JString s => Some s | _ => None end.

(** ** Files and requests *)

(** What holds of the files during the download phase, after the images
    [seen]: the files [F0] of the start are still there, and as long as
    no download failed the file of every image seen is there. *)
Definition keepsFiles (root : string) (F0 : gset string) (seen : list PageImage)
    (firstErr : option error) (w : sys.World) : Prop :=
  F0 ⊆ sys.files w
  /\ (firstErr = None -> forall i, i ∈ seen -> imagePath root i ∈ sys.files w).


(** The URLs requested in a piece of log, in order. *)
Definition getsOf (evs : list sys.Event) : list string :=
  omap (fun e => match e with sys.EvGet u => Some u | _ => None end) evs.

(** The number of requests logged so far. *)
Definition requests (w : sys.World) : nat := length (getsOf (sys.log w)).

(** An image whose URL has no alternative form. *)
Definition imageFlat : PageImage :=
  mkPageImage 1 1 1 "https://online.fliphtml5.com/ab/cd/files/1.jpg".

(** A server that answers 404 when the number of events logged so far
    is even and 200 when it is odd: a request refused first succeeds
    when it is repeated at once. *)
Definition envSecondAnswer : sys.Env :=
  sys.mkEnv (fun _ => true)
    (fun t _ => if Nat.even t then sys.HttpStatus 404 else sys.HttpStatus 200)
    (fun _ _ => true) (fun _ => true) (fun _ => true) (fun _ => true)
    (fun _ _ => true) (fun _ _ => None) (fun _ _ => true) (fun _ => true).

(** * Properties *)

(** ** Sorting *)

Section sorting.
Context {A : Type} (key : A -> Z).

Lemma insertBy_Permutation x l : sys.insertBy key x l ≡ₚ x :: l.
Proof.
  induction l as [|y l IH]; simpl; [done|].
  destruct (key x <=? key y); [done|].
  rewrite IH. apply Permutation_swap.
Qed.

Lemma sortBy_Permutation l : sys.sortBy key l ≡ₚ l.
Proof.
  induction l as [|x l IH]; simpl; [done|].
  rewrite insertBy_Permutation. by rewrite IH.
Qed.

Lemma sortBy_length l : length (sys.sortBy key l) = length l.
Proof. by rewrite sortBy_Permutation. Qed.

Lemma sortBy_elem_of x l : x ∈ sys.sortBy key l ↔ x ∈ l.
Proof. by rewrite sortBy_Permutation. Qed.

Lemma insertBy_Sorted x l :
  StronglySorted (keyLe key) l -> StronglySorted (keyLe key) (sys.insertBy key x l).
Proof.
  induction 1 as [|y l Hl IH Hy]; simpl.
  - repeat constructor.
  - destruct (Z.leb_spec (key x) (key y)).
    + constructor; [by constructor|].
      constructor; [done|].
      eapply Forall_impl; [exact Hy|]. unfold keyLe. intros; lia.
    + constructor; [done|].
      rewrite insertBy_Permutation. constructor; [unfold keyLe; lia|done].
Qed.

Lemma sortBy_Sorted l : StronglySorted (keyLe key) (sys.sortBy key l).
Proof.
  induction l; simpl; [constructor|]. by apply insertBy_Sorted.
Qed.


End sorting.

Lemma insertBy_map {A B} (f : A -> B) (key : A -> Z) (key' : B -> Z) x l :
  (forall a, key' (f a) = key a) ->
  map f (sys.insertBy key x l) = sys.insertBy key' (f x) (map f l).
Proof.
  intros Hk. induction l as [|y l IH]; simpl; [done|].
  rewrite !Hk. destruct (key x <=? key y); simpl; [done|]. by rewrite IH.
Qed.

Lemma sortBy_map {A B} (f : A -> B) (key : A -> Z) (key' : B -> Z) l :
  (forall a, key' (f a) = key a) ->
  map f (sys.sortBy key l) = sys.sortBy key' (map f l).
Proof.
  intros Hk. induction l as [|x l IH]; simpl; [done|].
  rewrite (insertBy_map f key key') by done. by rewrite IH.
Qed.

(** Sorting by the identity key yields a strictly ascending list when the
    input has no duplicates. *)
Lemma sortBy_id_strict (l : list Z) :
  NoDup l -> StronglySorted Z.lt (sys.sortBy id l).
Proof.
  intros Hnd.
  assert (NoDup (sys.sortBy id l)) as Hnd' by by rewrite sortBy_Permutation.
  pose proof (sortBy_Sorted id l) as Hs.
  induction Hs as [|x l' Hl' IH Hx]; [constructor|].
  apply NoDup_cons in Hnd' as [Hnotin Hnd'].
  constructor; [by apply IH|].
  apply Forall_forall. intros y Hy.
  rewrite Forall_forall in Hx. specialize (Hx y Hy). unfold keyLe, id in Hx.
  assert (x <> y) by (intros ->; done). lia.
Qed.

(** ** C8: global sequence numbers *)

Section FindAllImages.

Lemma FindAllImages_inner_spec i j order urls images :
  let r := FindAllImages_inner i j order urls images in
  map OverallOrder r.1 = map OverallOrder images ++ seqZ order (main.len urls)
  /\ map ImageUrl r.1 = map ImageUrl images ++ urls
  /\ r.2 = order + main.len urls.
Proof.
  unfold main.len.
  revert j order images.
  induction urls as [|u urls IH]; intros j order images; simpl.
  - rewrite seqZ_nil by lia. rewrite !app_nil_r. split_and!; [done|done|lia].
  - destruct (IH (j + 1) (order + 1) (images ++ [mkPageImage (i + 1) (j + 1) order u]))
      as (H1 & H2 & H3).
    rewrite H1, H2, H3. rewrite !map_app. simpl.
    rewrite <- !app_assoc. simpl.
    split_and!; [|done|lia].
    f_equal. rewrite (seqZ_cons order) by lia.
    do 2 f_equal; lia.
Qed.

Lemma FindAllImages_outer_spec i order pages images :
  let r := FindAllImages_outer i order pages images in
  let urls := concat (map ImageUrls pages) in
  map OverallOrder r = map OverallOrder images ++ seqZ order (main.len urls)
  /\ map ImageUrl r = map ImageUrl images ++ urls.
Proof.
  revert i order images.
  induction pages as [|p pages IH]; intros i order images; simpl.
  - rewrite seqZ_nil by (unfold main.len; simpl; lia).
    by rewrite !app_nil_r.
  - pose proof (FindAllImages_inner_spec i 0 order (ImageUrls p) images) as Hin.
    destruct (FindAllImages_inner i 0 order (ImageUrls p) images) as [images' order'].
    simpl in Hin. destruct Hin as (H1 & H2 & H3).
    destruct (IH (i + 1) order' images') as (G1 & G2).
    rewrite G1, G2, H1, H2, H3. rewrite <- !app_assoc.
    split; [|done]. f_equal.
    unfold main.len. rewrite length_app, Nat2Z.inj_add.
    rewrite seqZ_app by lia. done.
Qed.

End FindAllImages.

Lemma seqZ_StronglySorted m n : StronglySorted Z.lt (seqZ m n).
Proof.
  destruct (Z.le_gt_cases n 0) as [Hn|Hn].
  { rewrite seqZ_nil by done. constructor. }
  rewrite <- (Z2Nat.id n) by lia.
  generalize (Z.to_nat n) as k. clear. intros k. revert m.
  induction k as [|k IH]; intros m.
  - rewrite seqZ_nil by lia. constructor.
  - rewrite seqZ_cons by lia.
    replace (Z.pred (Z.of_nat (S k))) with (Z.of_nat k) by lia.
    constructor; [apply IH|].
    apply Forall_forall. intros x Hx. apply elem_of_seqZ in Hx. lia.
Qed.


(** C8.  For every book, [FindAllImages] lists the image URLs of the pages
    in page-then-image order, and the global sequence numbers it assigns
    are exactly 1, 2, ..., N for the N images, strictly increasing along
    the list. *)
Theorem C8_overall_order_contiguous (b : Book) :
  let images := FindAllImages b in
  let N := main.len (concat (map ImageUrls (Pages b))) in
  map ImageUrl images = concat (map ImageUrls (Pages b))
  /\ main.len images = N
  /\ map OverallOrder images = seqZ 1 N
  /\ StronglySorted Z.lt (map OverallOrder images).
Proof.
  intros images N. subst images N. unfold FindAllImages.
  destruct (FindAllImages_outer_spec 0 1 (Pages b) []) as [H1 H2].
  simpl in H1, H2.
  split_and!; [done| |done|].
  - unfold main.len. rewrite <- H2. by rewrite length_map.
  - rewrite H1. apply seqZ_StronglySorted.
Qed.

(** ** Byte strings *)

Section string_facts.

Lemma str_app_cons (x : ascii) (a b : string) :
  String x a +:+ b = String x (a +:+ b).
Proof. reflexivity. Qed.

Lemma str_app_assoc (a b c : string) : (a +:+ b) +:+ c = a +:+ (b +:+ c).
Proof.
  induction a as [|x a IH]; [done|]. by rewrite !str_app_cons, IH.
Qed.

Lemma str_app_nil_r (a : string) : a +:+ "" = a.
Proof. induction a as [|x a IH]; [done|]. by rewrite str_app_cons, IH. Qed.

Lemma str_length_app (a b : string) :
  String.length (a +:+ b) = (String.length a + String.length b)%nat.
Proof.
  induction a as [|x a IH]; [done|]. rewrite str_app_cons. simpl. by rewrite IH.
Qed.

Lemma HasPrefix_app (pre r : string) : strings.HasPrefix (pre +:+ r) pre = true.
Proof.
  unfold strings.HasPrefix. induction pre as [|x pre IH].
  - by destruct r.
  - rewrite str_app_cons. simpl. destruct (ascii_dec x x); [done|congruence].
Qed.

Lemma HasPrefix_inv (s pre : string) :
  strings.HasPrefix s pre = true -> exists r, s = pre +:+ r.
Proof.
  unfold strings.HasPrefix. revert s.
  induction pre as [|x pre IH]; intros s.
  - by exists s.
  - destruct s as [|y s]; simpl; [done|].
    destruct (ascii_dec x y) as [->|]; [|done].
    intros H. destruct (IH _ H) as [r ->]. by exists r.
Qed.

Lemma drop_app (pre r : string) : strings.drop (String.length pre) (pre +:+ r) = r.
Proof. induction pre as [|x pre IH]; [done|]. rewrite str_app_cons. exact IH. Qed.

Lemma TrimPrefix_app (pre r : string) : strings.TrimPrefix (pre +:+ r) pre = r.
Proof. unfold strings.TrimPrefix. by rewrite HasPrefix_app, drop_app. Qed.

Lemma TrimPrefix_none (s pre : string) :
  strings.HasPrefix s pre = false -> strings.TrimPrefix s pre = s.
Proof. unfold strings.TrimPrefix. by intros ->. Qed.

End string_facts.

(** ** C6: normalisation of the manifest's image field *)

Lemma normalizeImage_spec_unfold (id filename : string) :
  normalizeImage_spec id filename
  = if strings.HasPrefix (strings.TrimPrefix filename "./") "files/"
    then "https://online.fliphtml5.com/" +:+ id +:+ "/" +:+ strings.TrimPrefix filename "./"
    else "https://online.fliphtml5.com/" +:+ id +:+ "/files/large/"
         +:+ strings.TrimPrefix filename "./".
Proof.
  unfold normalizeImage_spec, fileRoot.
  destruct (strings.HasPrefix _ _); by rewrite !str_app_assoc.
Qed.

Lemma imagesOf_array_go id (l : list string) (acc : list string) :
  foldl (fun images img =>
           match img with
           | JString imgStr =>
               let trimmed := strings.TrimPrefix imgStr "./" in
               if strings.HasPrefix trimmed "files/"
               then images ++ ["https://online.fliphtml5.com/" +:+ id +:+ "/" +:+ trimmed]
               else images ++ ["https://online.fliphtml5.com/" +:+ id +:+ "/files/large/" +:+ trimmed]
           | _ => images
           end) acc (map JString l)
  = acc ++ map (normalizeImage_spec id) l.
Proof.
  revert acc. induction l as [|s l IH]; intros acc; simpl.
  - by rewrite app_nil_r.
  - rewrite normalizeImage_spec_unfold.
    destruct (strings.HasPrefix (strings.TrimPrefix s "./") "files/");
      by rewrite IH, <- app_assoc.
Qed.

Lemma pagesOf_go_images id i ps pages :
  map ImageUrls (pagesOf_go id i ps pages)
  = map ImageUrls pages ++ map (fun p => imagesOf id (Images p)) ps.
Proof.
  revert i pages. induction ps as [|p ps IH]; intros i pages; simpl.
  - by rewrite app_nil_r.
  - rewrite IH, map_app, <- app_assoc. done.
Qed.

(** C6.  For every manifest page the image field normalises to a list of
    absolute URLs: a single string gives the one-element list of its
    normalised name and a list of strings gives the list of their
    normalised names, where normalising strips a leading [./], appends a
    name that begins with [files/] to the root URL unchanged (no second
    prefix), and puts any other name below [files/large/]. *)
Theorem C6_image_field_normalisation (id : string) :
  (forall s, imagesOf id (JString s) = [normalizeImage_spec id s])
  /\ (forall l, imagesOf id (JArray (map JString l)) = map (normalizeImage_spec id) l)
  /\ (forall ps, map ImageUrls (pagesOf id ps)
                 = map (fun p => imagesOf id (Images p)) ps)
  /\ (forall r, strings.TrimPrefix ("./" +:+ r) "./" = r)
  /\ (forall r, normalizeImage_spec id ("files/" +:+ r) = fileRoot id +:+ "files/" +:+ r)
  /\ (forall r, normalizeImage_spec id ("./files/" +:+ r) = fileRoot id +:+ "files/" +:+ r)
  /\ (forall filename,
        normalizeImage_spec id filename
        = fileRoot id
          +:+ (if strings.HasPrefix (strings.TrimPrefix filename "./") "files/"
               then "" else "files/large/")
          +:+ strings.TrimPrefix filename "./")
  /\ (forall filename,
        strings.HasPrefix (normalizeImage_spec id filename) "https://" = true).
Proof.
  split_and!.
  - intros s. simpl. rewrite normalizeImage_spec_unfold.
    by destruct (strings.HasPrefix _ _).
  - intros l. simpl. by rewrite imagesOf_array_go.
  - intros ps. unfold pagesOf. by rewrite pagesOf_go_images.
  - intros r. apply TrimPrefix_app.
  - intros r. unfold normalizeImage_spec.
    rewrite (TrimPrefix_none ("files/" +:+ r) "./") by done.
    by rewrite HasPrefix_app.
  - intros r. unfold normalizeImage_spec.
    change ("./files/" +:+ r) with ("./" +:+ ("files/" +:+ r)).
    rewrite TrimPrefix_app. by rewrite HasPrefix_app.
  - intros filename. unfold normalizeImage_spec.
    by destruct (strings.HasPrefix _ _).
  - intros filename. rewrite normalizeImage_spec_unfold.
    by destruct (strings.HasPrefix (strings.TrimPrefix filename "./") "files/").
Qed.

(** ** C7: identifier resolution *)

Section idRegex.

Lemma spanWord_spec s :
  s = (spanWord s).1 +:+ (spanWord s).2
  /\ allWord (spanWord s).1 = true /\ noWordHead (spanWord s).2 = true.
Proof.
  induction s as [|c s (IH1 & IH2 & IH3)]; simpl; [done|].
  destruct (isWord c) eqn:Hc.
  - destruct (spanWord s) as [w r]; simpl in *.
    rewrite str_app_cons, <- IH1, Hc. done.
  - simpl. by rewrite Hc.
Qed.

Lemma spanWord_app w r :
  allWord w = true -> noWordHead r = true -> spanWord (w +:+ r) = (w, r).
Proof.
  induction w as [|c w IH]; intros Hw Hr.
  - destruct r as [|c r]; [done|]. simpl in *.
    by destruct (isWord c).
  - simpl in Hw. apply andb_prop in Hw as [Hc Hw].
    rewrite str_app_cons. simpl. rewrite Hc, IH by done. done.
Qed.

Lemma idRegex_sound s full g :
  idRegex_FindStringSubmatch s = Some [full; g] -> twoSegment s g.
Proof.
  unfold idRegex_FindStringSubmatch.
  destruct (spanWord_spec s) as (E1 & A1 & N1).
  destruct (spanWord s) as [w1 r1]; simpl in *.
  destruct w1 as [|c1 w1]; [done|].
  destruct r1 as [|c r2]; [done|].
  destruct (ascii_dec c "/") as [->|Hne].
  2:{ intros H. exfalso. revert H.
      destruct c as [[] [] [] [] [] [] [] []]; try done. }
  destruct (spanWord_spec r2) as (E2 & A2 & N2).
  destruct (spanWord r2) as [w2 r3]; simpl in *.
  destruct w2 as [|c2 w2]; [done|].
  intros H.
  assert (g = String c1 w1 +:+ "/" +:+ String c2 w2) as ->.
  { destruct r3 as [|c3 r3]; [by inversion H|].
    destruct c3 as [[] [] [] [] [] [] [] []]; by inversion H. }
  exists (String c1 w1), (String c2 w2), r3.
  split_and!; try done.
  rewrite E1. f_equal. by rewrite E2 at 1.
Qed.

Lemma idRegex_complete s g :
  twoSegment s g -> exists full, idRegex_FindStringSubmatch s = Some [full; g].
Proof.
  intros (w1 & w2 & rest & -> & -> & Hw1 & Hw2 & A1 & A2 & N).
  unfold idRegex_FindStringSubmatch.
  rewrite (spanWord_app w1 ("/" +:+ w2 +:+ rest)) by done.
  destruct w1 as [|c1 w1]; [done|].
  change ("/" +:+ w2 +:+ rest) with (String "/" (w2 +:+ rest)).
  cbv iota beta.
  rewrite (spanWord_app w2 rest) by done.
  destruct w2 as [|c2 w2]; [done|].
  destruct rest as [|c3 rest]; [by eexists|].
  destruct c3 as [[] [] [] [] [] [] [] []]; by eexists.
Qed.

Lemma idRegex_shape s :
  idRegex_FindStringSubmatch s = None
  \/ exists full g, idRegex_FindStringSubmatch s = Some [full; g].
Proof.
  unfold idRegex_FindStringSubmatch.
  destruct (spanWord s) as [w1 r1].
  destruct w1 as [|c1 w1]; [by left|].
  destruct r1 as [|c r2]; [by left|].
  destruct c as [[] [] [] [] [] [] [] []]; try by left.
  destruct (spanWord r2) as [w2 r3].
  destruct w2 as [|c2 w2]; [by left|].
  right. destruct r3 as [|c3 r3]; [by eauto|].
  destruct c3 as [[] [] [] [] [] [] [] []]; by eauto.
Qed.

Lemma twoSegment_functional s g g' : twoSegment s g -> twoSegment s g' -> g = g'.
Proof.
  intros [f Hf]%idRegex_complete [f' Hf']%idRegex_complete. congruence.
Qed.

Lemma idRegex_None s :
  idRegex_FindStringSubmatch s = None <-> ~ exists g, twoSegment s g.
Proof.
  split.
  - intros H [g [f Hf]%idRegex_complete]. congruence.
  - intros H. destruct (idRegex_shape s) as [|(f & g & Hfg)]; [done|].
    destruct H. exists g. by eapply idRegex_sound.
Qed.

End idRegex.

Lemma ParseId_raw url_Parse s id :
  twoSegment s id -> ParseId url_Parse s = inl id.
Proof.
  intros [full Hf]%idRegex_complete. unfold ParseId. by rewrite Hf.
Qed.

Lemma ParseId_url url_Parse s id :
  (forall id', ~ twoSegment s id') -> urlWithId url_Parse s id ->
  ParseId url_Parse s = inl id.
Proof.
  intros Hno (u & Hu & Hhost & [full Hf]%idRegex_complete).
  unfold ParseId.
  assert (idRegex_FindStringSubmatch s = None) as ->.
  { apply idRegex_None. intros [g Hg]. by eapply Hno. }
  rewrite Hu.
  destruct (String.eqb_spec (Host u) "") as [|_]; [done|]. simpl.
  by rewrite Hf.
Qed.

Lemma ParseId_inl_inv url_Parse s id :
  ParseId url_Parse s = inl id -> twoSegment s id \/ urlWithId url_Parse s id.
Proof.
  unfold ParseId.
  destruct (idRegex_shape s) as [Hs|(full & g & Hs)]; rewrite Hs.
  2:{ intros [= <-]. left. by eapply idRegex_sound. }
  destruct (url_Parse s) as [u|] eqn:Hu; [|done].
  destruct (String.eqb_spec (Host u) "") as [|Hhost]; [done|]. simpl.
  destruct (idRegex_shape (strings.Trim1 (Path u) "/")) as [Hp|(full & g & Hp)];
    rewrite Hp; [done|].
  intros [= <-]. right. exists u. split_and!; [done..|]. by eapply idRegex_sound.
Qed.

Lemma ParseId_total url_Parse s :
  (exists id, ParseId url_Parse s = inl id) \/ ParseId url_Parse s = inr (ErrInvalidId s).
Proof.
  unfold ParseId.
  destruct (idRegex_shape s) as [Hs|(full & g & Hs)]; rewrite Hs; [|by eauto].
  destruct (url_Parse s) as [u|]; [|by right].
  destruct (negb _); [|by right].
  destruct (idRegex_shape (strings.Trim1 (Path u) "/")) as [Hp|(full & g & Hp)];
    rewrite Hp; by eauto.
Qed.

(** C7.  For every input, [ParseId] succeeds exactly when the input
    begins with the two-segment pattern or parses as a URL with a
    non-empty host whose trimmed path begins with it; the identifier it
    returns is that two-segment beginning (the raw match when there is
    one), and every other input is rejected.  ["abcde/fg123"] and
    ["https://host/abcde/fg123/extra"] give ["abcde/fg123"], and
    ["not-an-id"] fails. *)
Theorem C7_ParseId_resolution (url_Parse : string -> option URL) (s : string) :
  ((exists id, ParseId url_Parse s = inl id)
   <-> (exists id, twoSegment s id \/ urlWithId url_Parse s id))
  /\ (forall id, ParseId url_Parse s = inl id ->
                 twoSegment s id \/ urlWithId url_Parse s id)
  /\ (forall id, twoSegment s id -> ParseId url_Parse s = inl id)
  /\ (forall id, urlWithId url_Parse s id -> (forall id', ~ twoSegment s id') ->
                 ParseId url_Parse s = inl id)
  /\ (ParseId url_Parse s = inr (ErrInvalidId s)
      <-> ~ exists id, twoSegment s id \/ urlWithId url_Parse s id)
  /\ ParseId url_Parse "abcde/fg123" = inl "abcde/fg123"
  /\ ParseId url_Parse_model "https://host/abcde/fg123/extra" = inl "abcde/fg123"
  /\ ParseId url_Parse_model "not-an-id" = inr (ErrInvalidId "not-an-id").
Proof.
  assert (forall id, twoSegment s id \/ urlWithId url_Parse s id ->
                     exists id', ParseId url_Parse s = inl id') as Hsucc.
  { intros id [H|H]; [by eauto using ParseId_raw|].
    destruct (idRegex_shape s) as [Hs|(full & g & Hs)].
    - exists id. apply ParseId_url; [|done].
      intros id' Hid'. apply idRegex_None in Hs. apply Hs. by exists id'.
    - exists g. apply ParseId_raw. by eapply idRegex_sound. }
  split_and!.
  - split.
    + intros [id H]. exists id. by apply ParseId_inl_inv.
    + intros [id H]. by eapply Hsucc.
  - apply ParseId_inl_inv.
  - intros id. apply ParseId_raw.
  - intros id H Hno. by apply ParseId_url.
  - split.
    + intros He [id H]. destruct (Hsucc id H) as [id' H']. congruence.
    + intros Hno. destruct (ParseId_total url_Parse s) as [[id H]|H]; [|done].
      destruct Hno. exists id. by apply ParseId_inl_inv.
  - reflexivity.
  - reflexivity.
  - reflexivity.
Qed.

Lemma C7_ParseId_resolution_witness :
  ParseId url_Parse_model "https://online.fliphtml5.com/kzpyj/cxnu/" = inl "kzpyj/cxnu"
  /\ ParseId url_Parse_model "kzpyj/cxnu/" = inl "kzpyj/cxnu".
Proof.
  split.
  - destruct (C7_ParseId_resolution url_Parse_model
                "https://online.fliphtml5.com/kzpyj/cxnu/")
      as (_ & _ & _ & Hurl & _).
    apply Hurl.
    + exists (mkURL "online.fliphtml5.com" "/kzpyj/cxnu/").
      split; [reflexivity|]. split; [discriminate|].
      exists "kzpyj", "cxnu", "". repeat split; discriminate.
    + intros id' Hid'. apply idRegex_complete in Hid' as [full Hfull].
      discriminate Hfull.
  - destruct (C7_ParseId_resolution url_Parse_model "kzpyj/cxnu/")
      as (_ & _ & Hraw & _).
    apply Hraw.
    exists "kzpyj", "cxnu", "/". repeat split; discriminate.
Defined.

(** ** C1: assembly of the ordered page list *)

Section assembly.

Lemma elem_of_map {A B} (f : A -> B) (l : list A) (y : B) :
  y ∈ map f l <-> exists x, y = f x /\ x ∈ l.
Proof.
  rewrite list_elem_of_In, in_map_iff.
  split; intros (x & H1 & H2); exists x; by rewrite ?list_elem_of_In in *.
Qed.

Lemma foldl_insert_lookup {A} (k : A -> Z) (v : A -> string) (l : list A)
    (m0 : gmap Z string) (n : Z) :
  foldl (fun m x => <[k x := v x]> m) m0 l !! n
  = match last (filter (fun x => k x = n) l) with
    | Some x => Some (v x)
    | None => m0 !! n
    end.
Proof.
  revert m0. induction l as [|x l IH]; intros m0; simpl; [done|].
  rewrite IH. rewrite filter_cons.
  destruct (decide (k x = n)) as [Hk|Hk].
  - destruct (filter (fun x => k x = n) l) as [|y l'] eqn:Hf; simpl.
    + by rewrite Hk, lookup_insert_eq.
    + rewrite last_cons. simpl.
      by destruct (last l').
  - destruct (last (filter (fun x => k x = n) l)); [done|].
    by rewrite lookup_insert_ne.
Qed.

Lemma last_filter_is_Some {A} (k : A -> Z) (l : list A) (n : Z) :
  is_Some (last (filter (fun x => k x = n) l)) <-> n ∈ map k l.
Proof.
  rewrite elem_of_map. split.
  - intros [x Hx]. apply last_Some_elem_of in Hx.
    apply list_elem_of_filter in Hx as [Hk Hx]. by exists x.
  - intros (x & -> & Hx).
    assert (x ∈ filter (fun y => k y = k x) l) as Hin
      by by apply list_elem_of_filter.
    destruct (filter (fun y => k y = k x) l) as [|y l'] using rev_ind.
    + by apply elem_of_nil in Hin.
    + rewrite last_snoc. by eexists.
Qed.

Lemma pageMapOf_lookup ds cs n :
  main.pageMapOf ds cs !! n
  = match last (filter (fun c => iPageNumber c = n) cs) with
    | Some c => Some (iFullPath c)
    | None =>
        match last (filter (fun d => dPageNumber d = n) ds) with
        | Some d => Some (dFullPath d)
        | None => None
        end
    end.
Proof.
  unfold main.pageMapOf. rewrite !foldl_insert_lookup.
  by rewrite lookup_empty.
Qed.

Lemma pageMapOf_chosen ds cs n :
  default "" (main.pageMapOf ds cs !! n) = chosenPath ds cs n.
Proof.
  rewrite pageMapOf_lookup. unfold chosenPath.
  destruct (last (filter _ cs)); [done|]. by destruct (last (filter _ ds)).
Qed.

Lemma pageMapOf_dom ds cs n :
  is_Some (main.pageMapOf ds cs !! n)
  <-> n ∈ map dPageNumber ds \/ n ∈ map iPageNumber cs.
Proof.
  rewrite pageMapOf_lookup, <- !last_filter_is_Some.
  destruct (last (filter _ cs)) as [c|]; destruct (last (filter _ ds)) as [d|];
    split; intros H; eauto.
  - by left.
  - by destruct H.
Qed.

End assembly.

(** C1.  For all lists of downloaded and captured assets, the assembly
    emits exactly one path for each page number that occurs in either
    list, in strictly ascending page order: the path of the (last)
    captured asset of the page when the page has one, otherwise the path
    of the last downloaded entry of the page. *)
Theorem C1_assembly_order_and_precedence
    (downloadedImages : list DownloadedImage)
    (interactiveImages : list InteractivePageImage) :
  exists pageNums : list Z,
    StronglySorted Z.lt pageNums
    /\ (forall n, n ∈ pageNums
                  <-> n ∈ map dPageNumber downloadedImages
                      \/ n ∈ map iPageNumber interactiveImages)
    /\ main.orderedImages downloadedImages interactiveImages
       = map (chosenPath downloadedImages interactiveImages) pageNums
    /\ length (main.orderedImages downloadedImages interactiveImages)
       = length pageNums.
Proof.
  set (m := main.pageMapOf downloadedImages interactiveImages).
  exists (sys.sortBy id (map fst (map_to_list m))).
  split_and!.
  - apply sortBy_id_strict. apply NoDup_fst_map_to_list.
  - intros n. rewrite sortBy_elem_of, <- pageMapOf_dom. fold m.
    rewrite elem_of_map. split.
    + intros ([k x] & -> & Hx). apply elem_of_map_to_list in Hx. by exists x.
    + intros [x Hx]. exists (n, x). split; [done|]. by apply elem_of_map_to_list.
  - unfold main.orderedImages. fold m. apply map_ext.
    intros n. apply pageMapOf_chosen.
  - unfold main.orderedImages. by rewrite length_map.
Qed.

(** ** Reasoning about runs *)

Section wp_rules.

Context {A B : Type}.

Lemma wp_ret (a : A) Q w : Q a w -> wp (sys.ret a) Q w.
Proof. done. Qed.

Lemma wp_bind (m : sys.M A) (k : A -> sys.M B) Q w :
  wp m (fun a w' => wp (k a) Q w') w -> wp (sys.bind m k) Q w.
Proof. unfold wp, sys.bind. by destruct (m w). Qed.

Lemma wp_mono (m : sys.M A) (Q Q' : A -> sys.World -> Prop) w :
  wp m Q w -> (forall a w', Q a w' -> Q' a w') -> wp m Q' w.
Proof. unfold wp. auto. Qed.

Lemma wp_eq (m : sys.M A) (Q : A -> sys.World -> Prop) w a w' :
  m w = (a, w') -> Q a w' -> wp m Q w.
Proof. unfold wp. by intros ->. Qed.

Lemma wp_conj (m : sys.M A) (Q1 Q2 : A -> sys.World -> Prop) w :
  wp m Q1 w -> wp m Q2 w -> wp m (fun a w' => Q1 a w' /\ Q2 a w') w.
Proof. unfold wp. auto. Qed.

Lemma wp_run (m : sys.M A) Q w a w' : wp m Q w -> m w = (a, w') -> Q a w'.
Proof. unfold wp. intros H E. by rewrite E in H. Qed.

End wp_rules.

Lemma wp_emit e Q w :
  Q tt (sys.mkWorld (sys.files w) (sys.log w ++ [e])) -> wp (sys.emit e) Q w.
Proof. done. Qed.

Lemma wp_Sleep d Q w :
  Q tt (sys.mkWorld (sys.files w) (sys.log w ++ [sys.EvSleep d])) ->
  wp (sys.time_Sleep d) Q w.
Proof. done. Qed.

Lemma wp_Stat path Q w :
  Q (bool_decide (path ∈ sys.files w)) w -> wp (sys.os_Stat path) Q w.
Proof. done. Qed.

Lemma wp_Do env cancelled url Q w :
  (cancelled = true -> Q sys.HttpFail w) ->
  (cancelled = false ->
   Q (sys.http_Do env (sys.now w) url)
     (sys.mkWorld (sys.files w) (sys.log w ++ [sys.EvGet url]))) ->
  wp (sys.client_Do env cancelled url) Q w.
Proof. unfold wp, sys.client_Do. destruct cancelled; auto. Qed.

Lemma wp_Create env path Q w :
  (sys.os_Create_ok env (sys.now w) path = true ->
   Q true (sys.mkWorld ({[path]} ∪ sys.files w) (sys.log w ++ [sys.EvCreate path]))) ->
  (sys.os_Create_ok env (sys.now w) path = false -> Q false w) ->
  wp (sys.os_Create env path) Q w.
Proof. unfold wp, sys.os_Create. destruct (sys.os_Create_ok _ _ _); auto. Qed.

Lemma wp_Remove env path Q w :
  (sys.os_Remove_ok env (sys.now w) path = true ->
   Q tt (sys.mkWorld (sys.files w ∖ {[path]}) (sys.log w ++ [sys.EvRemove path]))) ->
  (sys.os_Remove_ok env (sys.now w) path = false ->
   Q tt (sys.mkWorld (sys.files w) (sys.log w ++ [sys.EvRemove path]))) ->
  wp (sys.os_Remove env path) Q w.
Proof. unfold wp, sys.os_Remove. destruct (sys.os_Remove_ok _ _ _); auto. Qed.

Lemma wp_Copy env Q w : Q (sys.io_Copy_ok env (sys.now w)) w -> wp (sys.io_Copy env) Q w.
Proof. done. Qed.

Lemma wp_Flush env Q w :
  Q (sys.bufio_Flush_ok env (sys.now w)) w -> wp (sys.bufio_Flush env) Q w.
Proof. done. Qed.

Lemma wp_Close env Q w :
  Q (sys.file_Close_ok env (sys.now w)) w -> wp (sys.file_Close env) Q w.
Proof. done. Qed.

Lemma wp_WriteFile env path Q w :
  (sys.os_WriteFile_ok env (sys.now w) path = true ->
   Q true (sys.mkWorld ({[path]} ∪ sys.files w) (sys.log w ++ [sys.EvWriteFile path]))) ->
  (sys.os_WriteFile_ok env (sys.now w) path = false -> Q false w) ->
  wp (sys.os_WriteFile env path) Q w.
Proof. unfold wp, sys.os_WriteFile. destruct (sys.os_WriteFile_ok _ _ _); auto. Qed.

Lemma wp_chromedp env url Q w :
  Q (sys.chromedp_Run env (sys.now w) url)
    (sys.mkWorld (sys.files w) (sys.log w ++ [sys.EvChrome url])) ->
  wp (sys.chromedp_run env url) Q w.
Proof. done. Qed.

Lemma wp_ImportImagesFile env images pdfPath Q w :
  (sys.ImportImagesFile_ok env (sys.now w) = true ->
   Q true (sys.mkWorld ({[pdfPath]} ∪ sys.files w)
             (sys.log w ++ [sys.EvEncode images pdfPath]))) ->
  (sys.ImportImagesFile_ok env (sys.now w) = false ->
   Q false (sys.mkWorld (sys.files w) (sys.log w ++ [sys.EvEncode images pdfPath]))) ->
  wp (sys.ImportImagesFile env images pdfPath) Q w.
Proof.
  unfold wp, sys.ImportImagesFile. destruct (sys.ImportImagesFile_ok _ _); auto.
Qed.

Local Opaque wp.

(** One step of symbolic execution. *)
Ltac wp_step :=
  lazymatch goal with
  | |- wp (sys.bind _ _) _ _ => apply wp_bind
  | |- wp (sys.ret _) _ _ => apply wp_ret
  | |- wp (sys.emit _) _ _ => apply wp_emit
  | |- wp (sys.time_Sleep _) _ _ => apply wp_Sleep
  | |- wp (sys.os_Stat _) _ _ => apply wp_Stat
  | |- wp (sys.io_Copy _) _ _ => apply wp_Copy
  | |- wp (sys.bufio_Flush _) _ _ => apply wp_Flush
  | |- wp (sys.file_Close _) _ _ => apply wp_Close
  | |- wp (sys.chromedp_run _ _) _ _ => apply wp_chromedp
  | |- wp (sys.client_Do _ _ _) _ _ => apply wp_Do; intros ?
  | |- wp (sys.os_Create _ _) _ _ => apply wp_Create; intros ?
  | |- wp (sys.os_Remove _ _) _ _ => apply wp_Remove; intros ?
  | |- wp (sys.os_WriteFile _ _) _ _ => apply wp_WriteFile; intros ?
  | |- wp (sys.ImportImagesFile _ _ _) _ _ => apply wp_ImportImagesFile; intros ?
  end.

Ltac wp_steps := repeat wp_step.

Lemma extends_refl w : extends w w.
Proof. exists []. by rewrite app_nil_r. Qed.

Lemma extends_trans w1 w2 w3 : extends w1 w2 -> extends w2 w3 -> extends w1 w3.
Proof.
  intros [e1 H1] [e2 H2]. exists (e1 ++ e2). by rewrite H2, H1, app_assoc.
Qed.

Lemma extends_snoc w w' fs e :
  extends w w' -> extends w (sys.mkWorld fs (sys.log w' ++ [e])).
Proof. intros [evs H]. exists (evs ++ [e]). simpl. by rewrite H, app_assoc. Qed.

Lemma extends_elem_of w w' e : extends w w' -> e ∈ sys.log w -> e ∈ sys.log w'.
Proof. intros [evs ->] H. apply elem_of_app. by left. Qed.

Ltac ext_solve :=
  repeat first [ eassumption | apply extends_refl | apply extends_snoc ].

(** ** The capture of one page *)

Lemma capture_loop_frame env url w0 n attempt err buf w :
  sys.files w = sys.files w0 -> extends w0 w ->
  wp (book.capture_loop env url n attempt err buf)
     (fun _ w' => sys.files w' = sys.files w0 /\ extends w0 w') w.
Proof.
  revert attempt err buf w.
  induction n as [|n IH]; intros attempt err buf w Hf He; simpl.
  - by apply wp_ret.
  - apply wp_bind.
    apply (wp_mono _ (fun _ w' => sys.files w' = sys.files w0 /\ extends w0 w')).
    { destruct (0 <? attempt); wp_steps; simpl; split; try done; ext_solve. }
    intros _ w1 [Hf1 He1]. wp_steps.
    destruct (sys.chromedp_Run env (sys.now w1) url) as [k|]; simpl.
    + destruct (0 <? k)%nat; simpl.
      * wp_steps. split; [done|ext_solve].
      * apply IH; [done|ext_solve].
    + apply IH; [done|ext_solve].
Qed.

(** [CaptureInteractivePageQuiet] either returns the record of the page on
    its capture file, which then exists, or an error, and then the files
    are as before and the capture file is not among them. *)
Lemma CaptureInteractivePageQuiet_spec env url root n o w :
  wp (CaptureInteractivePageQuiet env url root n o)
     (fun r w' =>
        extends w w'
        /\ ((r = (Some (mkInteractivePageImage n o url (capturePath root n)), None)
             /\ sys.files w' = {[capturePath root n]} ∪ sys.files w)
            \/ ((exists e, r = (None, Some e))
                /\ sys.files w' = sys.files w
                /\ capturePath root n ∉ sys.files w))) w.
Proof.
  unfold CaptureInteractivePageQuiet. wp_steps.
  destruct (bool_decide_reflect (capturePath root n ∈ sys.files w)) as [Hin|Hout].
  { wp_steps. split; [apply extends_refl|]. left. split; [done|]. set_solver. }
  apply wp_bind.
  eapply wp_mono; [by apply (capture_loop_frame env url w); [|apply extends_refl]|].
  intros [err buf] w1 [Hf He]. simpl.
  destruct err.
  { wp_steps. split; [done|]. right. split_and!; [by eexists|done|done]. }
  destruct (buf =? 0)%nat.
  { wp_steps. split; [done|]. right. split_and!; [by eexists|done|done]. }
  wp_steps; simpl.
  - split; [ext_solve|]. left. by rewrite Hf.
  - split; [done|]. right. split_and!; [by eexists|done|done].
Qed.

(** ** C2: the records of one rendered page *)

Lemma rem2_even n : (Z.rem n 2 =? 0) = Z.even n.
Proof.
  destruct (Z.even n) eqn:He.
  - apply Z.eqb_eq. apply Z.even_spec in He as [k ->].
    rewrite Z.mul_comm. by apply Z.rem_mul.
  - apply Z.eqb_neq. intros Hr.
    assert (Z.even n = true); [|congruence].
    apply Z.even_spec. apply Z.rem_divide in Hr as [k ->]; [|done].
    exists k. lia.
Qed.

Lemma oddReference_spec b n path :
  (mkInteractivePageImage n n (main.pageUrl b n) path :: main.oddReference b n path)
  = spreadRecords b n path.
Proof.
  unfold main.oddReference, spreadRecords. rewrite rem2_even.
  destruct (Z.even n); simpl.
  - destruct (Z.ltb_spec 1 n), (Z.leb_spec 2 n); try lia; simpl; [|done].
    by destruct (n <? main.len (Pages b)).
  - by rewrite andb_false_r.
Qed.

Lemma captureOne_spec env b root captured failed n w :
  wp (main.captureOne env b root (captured, failed) n)
     (fun o w' =>
        extends w w'
        /\ ((o = sys.Returned (captured ++ spreadRecords b n (capturePath root n), failed)
             /\ sys.files w' = {[capturePath root n]} ∪ sys.files w)
            \/ (o = sys.Returned (captured, failed ++ [n])
                /\ sys.files w' = sys.files w
                /\ (capturePath root n ∉ sys.files w)
                /\ sys.EvPrint (sys.MsgCaptureError n) ∈ sys.log w'))) w.
Proof.
  unfold main.captureOne. wp_steps.
  destruct (bool_decide_reflect (capturePath root n ∈ sys.files w)) as [Hin|Hout].
  { wp_steps. split; [apply extends_refl|]. left.
    rewrite <- app_assoc. simpl. rewrite oddReference_spec.
    split; [done|]. set_solver. }
  wp_steps.
  eapply wp_mono; [apply CaptureInteractivePageQuiet_spec|].
  intros r w1 [He [[-> Hf]|[[e ->] [Hf Hn]]]]; simpl in *.
  - wp_steps. split; [eapply extends_trans; [|exact He]; ext_solve|].
    left. rewrite <- app_assoc. simpl. rewrite oddReference_spec. done.
  - wp_steps. simpl.
    split; [eapply extends_trans; [|apply extends_snoc; exact He]; ext_solve|].
    right. split_and!; try done.
    apply elem_of_app. right. by apply list_elem_of_singleton.
Qed.

Lemma retryOne_spec env b root captured n w :
  wp (main.retryOne env b root captured n)
     (fun o w' =>
        extends w w'
        /\ ((o = sys.Returned (captured ++ spreadRecords b n (capturePath root n))
             /\ sys.files w' = {[capturePath root n]} ∪ sys.files w)
            \/ (o = sys.Returned captured
                /\ sys.files w' = sys.files w
                /\ (capturePath root n ∉ sys.files w)
                /\ sys.EvPrint (sys.MsgStillFailed n) ∈ sys.log w'))) w.
Proof.
  unfold main.retryOne. wp_steps.
  eapply wp_mono; [apply CaptureInteractivePageQuiet_spec|].
  intros r w1 [He [[-> Hf]|[[e ->] [Hf Hn]]]]; simpl in *.
  - wp_steps. simpl.
    split; [eapply extends_trans; [|apply extends_snoc; exact He]; ext_solve|].
    left. rewrite <- app_assoc. simpl. rewrite oddReference_spec. done.
  - wp_steps. simpl.
    split; [eapply extends_trans; [|apply extends_snoc; exact He]; ext_solve|].
    right. split_and!; try done.
    apply elem_of_app. right. by apply list_elem_of_singleton.
Qed.


(** ** The download of one image *)

Section traces.

Lemma trace_refl w : trace w [] w.
Proof. unfold trace. by rewrite app_nil_r. Qed.

Lemma trace_snoc w evs w1 fs e :
  trace w evs w1 -> trace w (evs ++ [e]) (sys.mkWorld fs (sys.log w1 ++ [e])).
Proof. unfold trace. simpl. intros ->. by rewrite app_assoc. Qed.

Lemma trace_app w e1 w1 e2 w2 :
  trace w e1 w1 -> trace w1 e2 w2 -> trace w (e1 ++ e2) w2.
Proof. unfold trace. intros H1 H2. by rewrite H2, H1, app_assoc. Qed.

Lemma trace_extends w evs w' : trace w evs w' -> extends w w'.
Proof. intros H. by exists evs. Qed.

Lemma sleepsOf_app a b : sleepsOf (a ++ b) = sleepsOf a ++ sleepsOf b.
Proof. apply omap_app. Qed.

Lemma sleepsOf_gets gets : Forall isGet gets -> sleepsOf gets = [].
Proof.
  induction 1 as [|e gets He _ IH]; [done|]. by destruct e.
Qed.

Lemma removedAfterCreate_gets gets : Forall isGet gets -> removedAfterCreate gets.
Proof.
  induction 1 as [|e gets He _ IH]; [done|]. by destruct e.
Qed.

Lemma removedAfterCreate_app a b :
  removedAfterCreate a -> removedAfterCreate b -> removedAfterCreate (a ++ b).
Proof.
  induction a as [|e a IH]; [done|]. intros Ha Hb.
  destruct e; simpl in *; auto.
  destruct a as [|[] a]; simpl in *; try done.
  destruct Ha as [-> Ha]. split; [done|]. by apply IH.
Qed.

Lemma removedAfterCreate_sleepPart a : removedAfterCreate (sleepPart a).
Proof. unfold sleepPart. by destruct (0 <? a). Qed.

Lemma sleepsOf_sleepPart a :
  sleepsOf (sleepPart a) = if 0 <? a then [2 ^ a * sys.Second] else [].
Proof. unfold sleepPart. by destruct (0 <? a). Qed.

End traces.

Ltac trace_solve :=
  unfold trace in *; simpl in *;
  repeat match goal with
         | H : sys.log _ = _ |- _ => rewrite H
         end;
  rewrite <- ?app_assoc; simpl; rewrite ?app_nil_r; try done.

Lemma writeImage_spec env path i w :
  wp (writeImage env path i)
     (fun r w' => exists tail, writePost env path w i r tail w') w.
Proof.
  unfold writeImage. wp_steps; simpl.
  2:{ wp_steps. exists []. split; [apply trace_refl|]. by left. }
  wp_steps.
  set (w1 := sys.mkWorld ({[path]} ∪ sys.files w) (sys.log w ++ [sys.EvCreate path])).
  assert (trace w [sys.EvCreate path] w1) as Ht by done.
  assert (forall Q : unit -> sys.World -> Prop,
            (forall w2, trace w [sys.EvCreate path; sys.EvRemove path] w2 ->
                        (sys.files w2 = ({[path]} ∪ sys.files w) ∖ {[path]}
                         \/ (sys.files w2 = {[path]} ∪ sys.files w
                             /\ exists t, sys.os_Remove_ok env t path = false)) ->
                        Q tt w2) ->
            wp (sys.os_Remove env path) Q w1) as Hrm.
  { intros Q HQ. wp_steps; apply HQ; try (by trace_solve); simpl; eauto. }
  destruct (sys.io_Copy_ok env (sys.now w1)); simpl;
    [destruct (sys.bufio_Flush_ok env (sys.now w1)); simpl;
     [destruct (sys.file_Close_ok env (sys.now w1)); simpl|]|].
  - wp_steps. exists [sys.EvCreate path]. by split.
  - apply wp_bind, Hrm. intros w2 Ht2 Hf. wp_steps.
    eexists. split; [exact Ht2|]. right. by split.
  - apply wp_bind, Hrm. intros w2 Ht2 Hf. wp_steps.
    eexists. split; [exact Ht2|]. right. by split.
  - apply wp_bind, Hrm. intros w2 Ht2 Hf. wp_steps.
    eexists. split; [exact Ht2|]. right. by split.
Qed.

Lemma tryCandidates_spec env cancelled cands w :
  wp (tryCandidates env cancelled cands)
     (fun r w' =>
        sys.files w' = sys.files w
        /\ (exists gets, trace w gets w' /\ Forall isGet gets)
        /\ match r with
           | Some alt => alt ∈ cands /\ exists t, sys.http_Do env t alt = sys.HttpStatus 200
           | None => True
           end) w.
Proof.
  revert w. induction cands as [|alt rest IH]; intros w; simpl.
  { wp_steps. split_and!; [done| |done]. exists []. split; [apply trace_refl|done]. }
  assert (forall w1 : sys.World,
            sys.files w1 = sys.files w ->
            (exists gets, trace w gets w1 /\ Forall isGet gets) ->
            wp (tryCandidates env cancelled rest)
              (fun r w' =>
                 sys.files w' = sys.files w
                 /\ (exists gets, trace w gets w' /\ Forall isGet gets)
                 /\ match r with
                    | Some alt0 =>
                        alt0 ∈ alt :: rest
                        /\ exists t, sys.http_Do env t alt0 = sys.HttpStatus 200
                    | None => True
                    end) w1) as Hrest.
  { intros w1 Hf (g1 & Hg1 & Hg1').
    eapply wp_mono; [apply IH|].
    intros r w2 (Hf2 & (g2 & Hg2 & Hg2') & Hr).
    split_and!.
    - by rewrite Hf2.
    - exists (g1 ++ g2). split; [by eapply trace_app|by apply Forall_app].
    - destruct r as [a|]; [|done]. destruct Hr as [Hin Ht].
      split; [by apply elem_of_cons; right|done]. }
  destruct (sys.http_NewRequest_ok env alt).
  2:{ apply Hrest; [done|]. exists []. split; [apply trace_refl|done]. }
  wp_steps.
  - subst cancelled. apply Hrest; [done|].
    exists []. split; [apply trace_refl|done].
  - destruct (sys.http_Do env (sys.now w) alt) as [|code] eqn:Hdo.
    + apply Hrest; [done|].
      exists [sys.EvGet alt]. split; [done|by repeat constructor].
    + destruct (decide (code = 200)) as [->|Hne].
      * wp_steps. split; [done|]. split.
        -- exists [sys.EvGet alt]. split; [done|by repeat constructor].
        -- split; [by apply elem_of_cons; left|by eauto].
      * assert (forall X (a b : X),
                  match code with 200 => a | _ => b end = b) as Hm.
        { intros X a b. destruct code as [|p|p]; try done.
          do 8 (destruct p as [p|p|]; try done). }
        rewrite Hm. apply Hrest; [done|].
        exists [sys.EvGet alt]. split; [done|by repeat constructor].
Qed.

Lemma attemptPost_continue env path a w i i' e gets w2 :
  sameIds i i' ->
  (ImageUrl i' = ImageUrl i
   \/ exists t, sys.http_Do env t (ImageUrl i') = sys.HttpStatus 200) ->
  Forall isGet gets -> trace w (sleepPart a ++ gets) w2 ->
  sys.files w2 = sys.files w ->
  attemptPost env path a w i (i', Continue e) w2.
Proof.
  intros Hid Hurl Hg Ht Hf. split; [done|]. split; [done|].
  exists gets, [], w2. split_and!; try done.
  split; [apply trace_refl|]. by left.
Qed.

Lemma attemptPost_write env path a w i i' gets w2 :
  sameIds i i' ->
  (ImageUrl i' = ImageUrl i
   \/ exists t, sys.http_Do env t (ImageUrl i') = sys.HttpStatus 200) ->
  Forall isGet gets -> trace w (sleepPart a ++ gets) w2 ->
  sys.files w2 = sys.files w ->
  wp (writeImage env path i')
     (fun r w' => attemptPost env path a w i (i', r) w') w2.
Proof.
  intros Hid Hurl Hg Ht Hf.
  eapply wp_mono; [apply writeImage_spec|].
  intros r w' [tail Hw]. split; [done|]. split; [done|].
  by exists gets, tail, w2.
Qed.

Lemma status_match {X} (code : Z) (a b : X) :
  code <> 200 ->
  match code with 200 => a | _ => b end = b.
Proof.
  intros Hne. destruct code as [|p|p]; try done.
  do 8 (destruct p as [p|p|]; try done).
Qed.

Lemma sameIds_refl i : sameIds i i.
Proof. done. Qed.

Lemma sameIds_setUrl i url : sameIds i (setUrl i url).
Proof. done. Qed.

Ltac attempt_continue :=
  eapply attemptPost_continue;
    [ done
    | first [by left | by right; eauto]
    |
    | eassumption
    | first [done | simpl; congruence] ];
    eassumption.

Ltac attempt_write i0 :=
  eapply (attemptPost_write _ _ _ _ i0);
    [ done
    | first [by left | by right; eauto]
    |
    | eassumption
    | first [done | simpl; congruence] ];
    eassumption.

Lemma Download_attempt_spec env cancelled path a i w :
  wp (Download_attempt env cancelled path a i)
     (fun r w' => attemptPost env path a w i r w') w.
Proof.
  unfold Download_attempt. apply wp_bind.
  apply (wp_mono _ (fun _ w1 => sys.files w1 = sys.files w
                                /\ trace w (sleepPart a) w1)).
  { unfold sleepPart. destruct (0 <? a); wp_steps; split; trace_solve. }
  intros _ w1 [Hf1 Ht1].
  destruct (sys.http_NewRequest_ok env (ImageUrl i)); simpl.
  2:{ wp_steps.
      apply (attemptPost_continue _ _ _ _ _ _ _ []);
        [done|by left|done|by rewrite app_nil_r|done]. }
  wp_steps.
  { apply (attemptPost_continue _ _ _ _ _ _ _ []);
      [done|by left|done|by rewrite app_nil_r|done]. }
  set (w2 := sys.mkWorld (sys.files w1) (sys.log w1 ++ [sys.EvGet (ImageUrl i)])).
  assert (trace w (sleepPart a ++ [sys.EvGet (ImageUrl i)]) w2) as Ht2
    by by apply trace_snoc.
  assert (Forall isGet [sys.EvGet (ImageUrl i)]) as Hg2 by by repeat constructor.
  destruct (sys.http_Do env (sys.now w1) (ImageUrl i)) as [|code].
  { wp_steps. attempt_continue. }
  destruct (Z.eqb_spec code 200) as [->|Hcode].
  { apply wp_bind.
    eapply wp_mono; [attempt_write i|].
    intros r w' Hr. by wp_steps. }
  apply wp_bind.
  eapply wp_mono; [apply tryCandidates_spec|].
  intros found w3 (Hf3 & (g3 & Ht3 & Hg3) & Hfound).
  assert (trace w (sleepPart a ++ [sys.EvGet (ImageUrl i)] ++ g3) w3) as Ht3'.
  { rewrite app_assoc. by eapply trace_app. }
  assert (Forall isGet ([sys.EvGet (ImageUrl i)] ++ g3)) as Hg3'
    by by apply Forall_app.
  assert (sys.files w3 = sys.files w) as Hf3' by by rewrite Hf3.
  destruct found as [alt|].
  { destruct Hfound as [_ H200]. simpl. apply wp_bind.
    eapply wp_mono; [attempt_write i|].
    intros r w' Hr. by wp_steps. }
  destruct (sys.http_NewRequest_ok env _).
  2:{ wp_steps. attempt_continue. }
  wp_steps.
  { attempt_continue. }
  set (altUrl := strings.Replace1 (ImageUrl i) "/files/large/" "/files/") in *.
  set (w4 := sys.mkWorld (sys.files w3) (sys.log w3 ++ [sys.EvGet altUrl])).
  assert (trace w (sleepPart a ++ ([sys.EvGet (ImageUrl i)] ++ g3) ++ [sys.EvGet altUrl])
            w4) as Ht4.
  { rewrite app_assoc. by apply trace_snoc. }
  assert (Forall isGet (([sys.EvGet (ImageUrl i)] ++ g3) ++ [sys.EvGet altUrl]))
    as Hg4 by (apply Forall_app; split; [done|by repeat constructor]).
  destruct (sys.http_Do env (sys.now w3) altUrl) as [|code'] eqn:Hdo.
  { wp_steps. attempt_continue. }
  destruct (decide (code' = 200)) as [->|Hne].
  - wp_steps. attempt_continue.
  - rewrite status_match by done. wp_steps. attempt_continue.
Qed.

Lemma Download_loop_spec env cancelled path n a i lastErr w :
  wp (Download_loop env cancelled path n a i lastErr)
     (fun r w' => loopPost env path w a n lastErr i r w') w.
Proof.
  revert a i lastErr w.
  induction n as [|n IH]; intros a i lastErr w; simpl.
  { wp_steps. split; [done|]. split; [by left|].
    exists []. split; [apply trace_refl|]. simpl.
    split_and!; [|done|done|by left].
    exists lastErr. by split_and!. }
  apply wp_bind.
  eapply wp_mono; [apply Download_attempt_spec|].
  intros [i1 r1] w1 (Hid1 & Hurl1 & gets & tail & w2 & Hg & Ht2 & Hf2 & Htail & Hw).
  simpl in *.
  assert (trace w (sleepPart a ++ gets ++ tail) w1) as Ht1.
  { rewrite app_assoc. by eapply trace_app. }
  assert (sleepsOf (sleepPart a ++ gets ++ tail) = sleepsOf (sleepPart a)) as Hs1.
  { rewrite !sleepsOf_app, (sleepsOf_gets gets) by done.
    destruct r1 as [e|d].
    - destruct Hw as [[-> _]|[-> _]]; simpl; by rewrite app_nil_r.
    - destruct Hw as (-> & _). simpl. by rewrite app_nil_r. }
  destruct r1 as [e|d].
  - eapply wp_mono; [apply IH|].
    intros [i' [od oe]] w' (Hid & Hurl & evs & Ht & Hr). simpl in *.
    split; [|split].
    + destruct Hid as (?&?&?), Hid1 as (?&?&?). unfold sameIds. simpl.
      split_and!; congruence.
    + simpl. destruct Hurl as [Hu|Hu]; [|by right]. by rewrite Hu.
    + exists ((sleepPart a ++ gets ++ tail) ++ evs).
      split; [by eapply trace_app|]. simpl.
      rewrite sleepsOf_app, Hs1.
      destruct od as [d|], oe as [e'|]; try done.
      * destruct Hr as (Hd & Hin & k & Hk & Hsl).
        split_and!; [done..|]. exists (S k). split; [lia|].
        simpl. by rewrite Hsl.
      * destruct Hr as ((le & -> & Hle0 & Hle) & Hsl & Hbal & Hfiles).
        split_and!.
        -- exists le. split_and!; [done|done|]. intros _.
           destruct n; [rewrite Hle0 by done; by eexists|by apply Hle].
        -- by rewrite Hsl.
        -- apply removedAfterCreate_app; [|done].
           apply removedAfterCreate_app; [apply removedAfterCreate_sleepPart|].
           apply removedAfterCreate_app; [by apply removedAfterCreate_gets|].
           by destruct Hw as [[-> _]|[-> _]].
        -- intros Habs.
           assert (sys.files w1 = sys.files w
                   \/ exists t, sys.os_Remove_ok env t path = false) as [Hfw1|Hno].
           { destruct Hw as [[_ ->]|[_ [->|[_ Hno]]]]; [by left| |by right].
             left. rewrite Hf2. set_solver. }
           ++ destruct Hfiles as [Hfiles|Hno]; [by rewrite Hfw1| |by right].
              left. by rewrite Hfiles.
           ++ by right.
  - wp_steps. destruct Hw as (-> & -> & Hfw1).
    split; [done|]. split; [done|].
    exists (sleepPart a ++ gets ++ [sys.EvCreate path]).
    split; [done|]. simpl.
    split_and!; [done|rewrite Hfw1; set_solver|].
    exists 1%nat. split; [lia|]. simpl. by rewrite Hs1, app_nil_r.
Qed.

Lemma Download_spec env cancelled i root w :
  wp (Download env cancelled i root)
     (fun r w' => downloadPost env root w i r w') w.
Proof.
  unfold Download. wp_steps.
  destruct (bool_decide_reflect (imagePath root i ∈ sys.files w)) as [Hin|Hout].
  - wp_steps. by left.
  - eapply wp_mono; [apply Download_loop_spec|].
    intros r w' Hr. right. split; [done|]. exact Hr.
Qed.

(** ** C10: a failed write leaves no file behind *)



(** ** Batches *)

Section slices.

Context {A : Type}.
Implicit Types l : list A.

Lemma slice_clamp l a b :
  0 <= a ->
  main.slice l a (if main.len l <? b then main.len l else b) = main.slice l a b.
Proof.
  intros Ha. unfold main.slice, main.len.
  destruct (Z.ltb_spec (Z.of_nat (length l)) b); [|done].
  rewrite !take_ge; [done|rewrite length_drop; lia..].
Qed.

Lemma slice_app l a b c :
  0 <= a <= b -> b <= c -> main.slice l a b ++ main.slice l b c = main.slice l a c.
Proof.
  intros Hab Hbc. unfold main.slice.
  replace (Z.to_nat b) with (Z.to_nat a + Z.to_nat (b - a))%nat by lia.
  rewrite <- drop_drop, take_take_drop. f_equal. lia.
Qed.

Lemma slice_nil l a : main.slice l a a = [].
Proof. unfold main.slice. by rewrite Z.sub_diag. Qed.

Lemma slice_all l c : main.len l <= c -> main.slice l 0 c = l.
Proof.
  intros Hc. unfold main.slice, main.len in *. simpl.
  rewrite drop_0, take_ge; [done|lia].
Qed.

Lemma len_nil_iff l : main.len l = 0 <-> l = [].
Proof.
  unfold main.len. split.
  - intros H. destruct l; [done|]. simpl in H. lia.
  - intros Hl. rewrite Hl. reflexivity.
Qed.

End slices.

(** The number of batches covers the list. *)
Lemma numBatches_cover n bs :
  0 <= n -> 0 < bs -> n <= Z.quot (n + bs - 1) bs * bs.
Proof.
  intros Hn Hbs. rewrite Z.quot_div_nonneg by lia.
  pose proof (Z.div_mod (n + bs - 1) bs ltac:(lia)) as Hdm.
  pose proof (Z.mod_pos_bound (n + bs - 1) bs Hbs) as Hm.
  nia.
Qed.

Lemma numBatches_nonneg n bs : 0 <= n -> 0 < bs -> 0 <= Z.quot (n + bs - 1) bs.
Proof. intros. apply Z.quot_pos; lia. Qed.

Lemma forEach_wp {A S} (body : S -> A -> sys.M (sys.outcome S))
    (I : list A -> S -> sys.World -> Prop) (l : list A) :
  (forall seen s a w,
      I seen s w ->
      wp (body s a)
         (fun o w' => match o with
                      | sys.Returned s' => I (seen ++ [a]) s' w'
                      | sys.Panicked => False
                      end) w) ->
  forall seen s w,
    I seen s w ->
    wp (sys.forEach body l s)
       (fun o w' => match o with
                    | sys.Returned s' => I (seen ++ l) s' w'
                    | sys.Panicked => False
                    end) w.
Proof.
  intros Hbody. induction l as [|a l IH]; intros seen s w HI; simpl.
  - apply wp_ret. by rewrite app_nil_r.
  - apply wp_bind. eapply wp_mono; [by apply Hbody|].
    intros [s'|] w' Hs'; [|done].
    eapply wp_mono; [by apply IH|].
    intros o w'' Ho. destruct o; [|done]. by rewrite <- app_assoc in Ho.
Qed.

(** ** The download phase *)

Lemma downloadOne_step env root acc0 seen st a w :
  batchInv root acc0 seen st w ->
  wp (main.downloadOne env root st a)
     (fun o w' => match o with
                  | sys.Returned st' => batchInv root acc0 (seen ++ [a]) st' w'
                  | sys.Panicked => False
                  end) w.
Proof.
  destruct st as [acc fe]. intros HI. unfold main.downloadOne. wp_steps.
  assert (forall d, assetKey d = expectedKey root a ->
                    batchInv root acc0 (seen ++ [a]) (acc ++ [d], fe) w) as Hadd.
  { intros d Hd Hfe. destruct (HI Hfe) as (ds & Hacc & Hkeys). simpl in *.
    exists (ds ++ [d]). rewrite Hacc, <- app_assoc, !map_app, Hkeys. simpl.
    by rewrite Hd. }
  destruct (bool_decide (imagePath root a ∈ sys.files w)).
  { wp_steps. by apply Hadd. }
  wp_steps. eapply wp_mono; [apply Download_spec|].
  intros [i' [od oe]] w' Hpost. simpl.
  destruct Hpost as [(_ & [= -> -> ->] & ->)|[_ (Hid & _ & evs & _ & Hr)]].
  { wp_steps. by apply Hadd. }
  simpl in *. destruct od as [d|], oe as [e|]; simpl in Hr; try done.
  - destruct Hr as (-> & _). wp_steps.
    intros Hfe. destruct (HI Hfe) as (ds & Hacc & Hkeys). simpl in *.
    exists (ds ++ [downloaded i' (imagePath root a)]).
    rewrite Hacc, <- app_assoc, !map_app, Hkeys. simpl.
    split; [done|]. do 2 f_equal.
    destruct Hid as (H1 & H2 & H3). unfold assetKey, expectedKey. simpl.
    by rewrite H1, H2, H3.
  - wp_steps. intros Hfe. simpl in Hfe. by destruct fe.
Qed.

Lemma downloadBatches_spec env root images bs n k acc w :
  0 < bs -> 0 <= k ->
  wp (main.downloadBatches env root images bs n k acc)
     (fun o w' =>
        match o with
        | sys.Returned (acc', None) =>
            exists ds,
              acc' = acc ++ ds
              /\ map assetKey ds
                 = map (expectedKey root)
                     (main.slice images (k * bs) ((k + Z.of_nat n) * bs))
        | sys.Returned (acc', Some _) => acc' = []
        | sys.Panicked => False
        end) w.
Proof.
  intros Hbs. revert k acc w.
  induction n as [|n IH]; intros k acc w Hk.
  { simpl. wp_steps. exists []. rewrite app_nil_r, Z.add_0_r, slice_nil. done. }
  cbn [main.downloadBatches]. rewrite slice_clamp by nia.
  apply wp_bind.
  eapply wp_mono.
  { apply (forEach_wp _ (batchInv root acc) _ (downloadOne_step env root acc) []).
    intros _. exists []. by rewrite app_nil_r. }
  intros [[acc1 fe1]|] w1 H1; [|done]. simpl in H1.
  destruct fe1 as [e|]; [by wp_steps|].
  destruct (H1 eq_refl) as (ds1 & Hacc1 & Hk1). simpl in Hacc1. subst acc1.
  eapply wp_mono; [apply IH; lia|].
  intros [[acc2 [e|]]|] w2 H2; try done.
  destruct H2 as (ds2 & -> & Hk2).
  exists (ds1 ++ ds2). rewrite app_assoc. split; [done|].
  rewrite map_app, Hk1, Hk2, <- map_app. f_equal.
  rewrite slice_app; [f_equal; lia|nia|nia].
Qed.

Lemma downloadImages_spec env root images w :
  wp (main.downloadImages env root images)
     (fun o _ => downloadImagesPost root images o) w.
Proof.
  unfold main.downloadImages.
  set (bs := if main.len images <=? 50 then main.len images else 50).
  assert (0 <= main.len images) as Hlen by (unfold main.len; lia).
  destruct (Z.eqb_spec bs 0) as [Hz|Hnz].
  { wp_steps. simpl. apply len_nil_iff. subst bs.
    destruct (main.len images <=? 50); [done|lia]. }
  assert (0 < bs) as Hbs.
  { subst bs. destruct (Z.leb_spec (main.len images) 50); lia. }
  apply wp_bind.
  eapply wp_mono; [by apply downloadBatches_spec|].
  intros [[acc [e|]]|] w1 H1; [by wp_steps| |done].
  wp_steps. simpl.
  destruct H1 as (ds & -> & Hkeys). simpl in *.
  rewrite (sortBy_map assetKey dOverallOrder keyOrder) by done.
  rewrite Hkeys. do 2 f_equal.
  rewrite Z.mul_0_l. apply slice_all.
  rewrite Z2Nat.id by by apply numBatches_nonneg.
  rewrite Z.add_0_l. by apply numBatches_cover.
Qed.

(** *** Resuming over files that exist *)

Lemma Download_exists env cancelled i root w :
  imagePath root i ∈ sys.files w ->
  Download env cancelled i root w = ((i, (Some (synthesized root i), None)), w).
Proof.
  intros Hin. unfold Download, sys.bind, sys.os_Stat, sys.ret.
  by rewrite bool_decide_eq_true_2.
Qed.

Lemma downloadOne_exists env root acc fe a w :
  imagePath root a ∈ sys.files w ->
  main.downloadOne env root (acc, fe) a w
  = (sys.Returned (acc ++ [synthesized root a], fe), w).
Proof.
  intros Hin. unfold main.downloadOne, sys.bind, sys.os_Stat, sys.ret.
  by rewrite bool_decide_eq_true_2.
Qed.

Lemma forEach_exists env root batch acc fe w :
  (forall x, x ∈ batch -> imagePath root x ∈ sys.files w) ->
  sys.forEach (main.downloadOne env root) batch (acc, fe) w
  = (sys.Returned (acc ++ map (synthesized root) batch, fe), w).
Proof.
  revert acc. induction batch as [|a batch IH]; intros acc Hall;
    cbn [sys.forEach].
  - simpl. by rewrite app_nil_r.
  - unfold sys.bind. rewrite downloadOne_exists by (apply Hall; left).
    rewrite IH by (intros x Hx; apply Hall; by right).
    by rewrite <- app_assoc.
Qed.

Lemma elem_of_slice {A} (l : list A) a b x : x ∈ main.slice l a b -> x ∈ l.
Proof.
  unfold main.slice. intros H.
  rewrite <- (take_drop (Z.to_nat a) l). apply elem_of_app. right.
  rewrite <- (take_drop (Z.to_nat (b - a)) (drop (Z.to_nat a) l)).
  apply elem_of_app. by left.
Qed.

Lemma downloadBatches_exists env root images bs n k acc w :
  0 < bs -> 0 <= k ->
  (forall x, x ∈ images -> imagePath root x ∈ sys.files w) ->
  main.downloadBatches env root images bs n k acc w
  = (sys.Returned
       (acc ++ map (synthesized root)
                 (main.slice images (k * bs) ((k + Z.of_nat n) * bs)),
        None), w).
Proof.
  intros Hbs Hk Hall. revert k acc Hk.
  induction n as [|n IH]; intros k acc Hk.
  { simpl. unfold sys.ret. by rewrite Z.add_0_r, slice_nil, app_nil_r. }
  cbn [main.downloadBatches]. rewrite slice_clamp by nia.
  unfold sys.bind. rewrite forEach_exists
    by (intros x Hx; apply Hall; by eapply elem_of_slice).
  rewrite IH by lia. rewrite <- app_assoc, <- map_app.
  rewrite slice_app by nia.
  by replace ((k + 1 + Z.of_nat n) * bs) with ((k + Z.of_nat (S n)) * bs) by lia.
Qed.

Lemma downloadImages_nil env root w :
  main.downloadImages env root [] w = (sys.Panicked, w).
Proof. reflexivity. Qed.

Lemma downloadImages_exists env root images w :
  images <> [] ->
  (forall x, x ∈ images -> imagePath root x ∈ sys.files w) ->
  main.downloadImages env root images w
  = (sys.Returned
       (sys.sortBy dOverallOrder (map (synthesized root) images), None), w).
Proof.
  intros Hne Hall. unfold main.downloadImages.
  set (bs := if main.len images <=? 50 then main.len images else 50).
  assert (0 < main.len images) as Hlen.
  { destruct images; [done|]. unfold main.len. simpl. lia. }
  assert (0 < bs) as Hbs.
  { subst bs. destruct (Z.leb_spec (main.len images) 50); lia. }
  destruct (Z.eqb_spec bs 0) as [|_]; [lia|].
  unfold sys.bind. rewrite downloadBatches_exists by done.
  unfold sys.ret. simpl.
  rewrite Z.mul_0_l, slice_all; [done|].
  rewrite Z2Nat.id by (apply numBatches_nonneg; lia).
  rewrite Z.add_0_l. apply numBatches_cover; lia.
Qed.

(** ** C5: resuming a download *)

(** On [envAlternate] the first run stores the image under the alternate
    URL it found; the second run, with the file on disk, makes no request
    and returns the asset under the URL of the descriptor: the two
    results are not identical. *)
Lemma C5_second_run_differs :
  let first := main.downloadImages envAlternate "out" [image11] emptyWorld in
  let second := main.downloadImages envAlternate "out" [image11] first.2 in
  (forall i, i ∈ [image11] -> imagePath "out" i ∈ sys.files first.2)
  /\ (exists r1, first.1 = sys.Returned (r1, None))
  /\ sys.log second.2 = sys.log first.2
  /\ second.1 <> first.1.
Proof.
  split_and!.
  - intros i ->%list_elem_of_singleton.
    apply (bool_decide_unpack _). by vm_compute.
  - eexists. by vm_compute.
  - by vm_compute.
  - vm_compute. discriminate.
Qed.

(** C5 (amended).  When the files of all descriptors are on disk,
    [Download] answers each descriptor with the asset made up from the
    descriptor and the existing path without touching the world, and the
    download phase over a non-empty descriptor list leaves the world as
    it is (no request) and returns these assets in global order;
    compared with any successful earlier run over the same list they
    agree in page number, image number, global order and file path, and
    carry the URLs of the descriptors. *)
Theorem C5_resume_without_network (env : sys.Env) (root : string)
    (images : list PageImage) (w : sys.World)
    (Hpresent : forall i, i ∈ images -> imagePath root i ∈ sys.files w) :
  (forall cancelled i, i ∈ images ->
     Download env cancelled i root w
     = ((i, (Some (mkDownloadedImage (PageNumber i) (ImageNumber i)
                     (OverallOrder i) (ImageUrl i) (imagePath root i)), None)), w))
  /\ (images <> [] ->
      main.downloadImages env root images w
      = (sys.Returned
           (sys.sortBy dOverallOrder (map (synthesized root) images), None), w))
  /\ (forall env0 w0 r1 w1,
        main.downloadImages env0 root images w0 = (sys.Returned (r1, None), w1) ->
        exists r2,
          main.downloadImages env root images w = (sys.Returned (r2, None), w)
          /\ map assetKey r2 = map assetKey r1
          /\ map dUrl r2 = map ImageUrl (sys.sortBy OverallOrder images)).
Proof.
  split_and!.
  - intros cancelled i Hi. by apply Download_exists, Hpresent.
  - intros Hne. by apply downloadImages_exists.
  - intros env0 w0 r1 w1 Hrun.
    assert (images <> []) as Hne.
    { intros ->. by rewrite downloadImages_nil in Hrun. }
    eexists. split; [by apply downloadImages_exists|].
    pose proof (downloadImages_spec env0 root images w0) as H1.
    apply (wp_run _ _ _ _ _ H1) in Hrun. simpl in Hrun.
    split.
    + rewrite Hrun.
      rewrite (sortBy_map assetKey dOverallOrder keyOrder) by done.
      by rewrite map_map.
    + rewrite <- (sortBy_map (synthesized root) OverallOrder dOverallOrder) by done.
      by rewrite map_map.
Qed.

Lemma C5_resume_without_network_witness :
  main.downloadImages envAlternate "out" [image11] worldWithImage
  = (sys.Returned
       (sys.sortBy dOverallOrder (map (synthesized "out") [image11]), None),
     worldWithImage).
Proof.
  apply (C5_resume_without_network envAlternate "out" [image11] worldWithImage);
    [|done].
  intros i ->%list_elem_of_singleton.
  apply (bool_decide_unpack _). by vm_compute.
Defined.

(** ** C9: the limit of 1000 images *)









(** ** C3: retries, alternate URLs and the failure of the phase *)


Lemma Download_loop_S env cancelled path n a i lastErr :
  Download_loop env cancelled path (S n) a i lastErr
  = sys.bind (Download_attempt env cancelled path a i)
      (fun r =>
         match r with
         | (i', Return d) => sys.ret (i', (Some d, None))
         | (i', Continue e) =>
             Download_loop env cancelled path n (a + 1) i' (Some e)
         end).
Proof. reflexivity. Qed.

Section alternates.

Variable env : sys.Env.
Variables pre post : list string.
Variable alt : string.
Hypothesis Halt_req : sys.http_NewRequest_ok env alt = true.
Hypothesis Halt_ok : forall t, sys.http_Do env t alt = sys.HttpStatus 200.
Hypothesis Hpre : forall u t, u ∈ pre -> sys.http_Do env t u <> sys.HttpStatus 200.






End alternates.




(** ** The capture phase *)

Example pagesToCapture_7 : main.pagesToCapture (bookOfPages 7) = [1; 2; 4; 6].
Proof. reflexivity. Qed.

Lemma str_app_inj_r (a b c : string) : a +:+ c = b +:+ c -> a = b.
Proof.
  revert b. induction a as [|x a IH]; intros b H.
  - apply (f_equal String.length) in H. rewrite !str_length_app in H.
    destruct b; [done|]. simpl in H. lia.
  - destruct b as [|y b].
    + apply (f_equal String.length) in H. rewrite !str_length_app in H.
      simpl in H. lia.
    + rewrite !str_app_cons in H. injection H as -> H. f_equal. by apply IH.
Qed.


Lemma captureBatches_wp env b root pages bs nb
    (I : list Z -> main.captureState -> sys.World -> Prop) :
  (forall seen st a w,
      I seen st w ->
      wp (main.captureOne env b root st a)
         (fun o w' => match o with
                      | sys.Returned st' => I (seen ++ [a]) st' w'
                      | sys.Panicked => False
                      end) w) ->
  (forall seen st w e,
      I seen st w -> I seen st (sys.mkWorld (sys.files w) (sys.log w ++ [e]))) ->
  0 < bs ->
  forall n k st w,
    0 <= k ->
    I (main.slice pages 0 (k * bs)) st w ->
    wp (main.captureBatches env b root pages bs nb n k st)
       (fun o w' => match o with
                    | sys.Returned st' =>
                        I (main.slice pages 0 ((k + Z.of_nat n) * bs)) st' w'
                    | sys.Panicked => False
                    end) w.
Proof.
  intros Hone Hlog Hbs. induction n as [|n IH]; intros k st w Hk HI.
  { simpl. wp_steps. by rewrite Z.add_0_r. }
  cbn [main.captureBatches]. rewrite slice_clamp by nia.
  apply wp_bind.
  eapply wp_mono; [by apply (forEach_wp _ I _ Hone)|].
  intros [st'|] w1 H1; [|done].
  rewrite slice_app in H1 by nia.
  apply wp_bind.
  apply (wp_mono _ (fun _ w2 => I (main.slice pages 0 ((k + 1) * bs)) st' w2)).
  { destruct (k <? nb - 1); wp_steps; [by apply Hlog|done]. }
  intros _ w2 H2.
  eapply wp_mono; [apply IH; [lia|done]|].
  intros o w3 Ho. destruct o; [|done].
  by replace ((k + Z.of_nat (S n)) * bs) with ((k + 1 + Z.of_nat n) * bs) by lia.
Qed.

Section capture_phase.

Variables (env : sys.Env) (b : Book) (root : string).

Lemma recordsOf_snoc S n :
  recordsOf b root (S ++ [n])
  = recordsOf b root S ++ spreadRecords b n (capturePath root n).
Proof. unfold recordsOf. rewrite flat_map_app. simpl. by rewrite app_nil_r. Qed.

Lemma recordsOf_app S1 S2 :
  recordsOf b root (S1 ++ S2) = recordsOf b root S1 ++ recordsOf b root S2.
Proof. apply flat_map_app. Qed.

Lemma filesOf_snoc S n : filesOf root (S ++ [n]) = {[capturePath root n]} ∪ filesOf root S.
Proof.
  unfold filesOf. rewrite map_app, list_to_set_app_L. simpl. set_solver.
Qed.

Lemma filesOf_app S1 S2 : filesOf root (S1 ++ S2) = filesOf root S1 ∪ filesOf root S2.
Proof. unfold filesOf. by rewrite map_app, list_to_set_app_L. Qed.


Lemma spreadRecords_nonempty n path : spreadRecords b n path <> [].
Proof.
  unfold spreadRecords.
  destruct (Z.even n && (2 <=? n)); [destruct (n <? main.len (Pages b))|]; done.
Qed.

Lemma recordsOf_nil_inv S : recordsOf b root S = [] -> S = [].
Proof.
  destruct S as [|n S]; [done|]. unfold recordsOf. simpl.
  intros H. apply app_eq_nil in H as [H _].
  by apply spreadRecords_nonempty in H.
Qed.

Lemma elem_of_recordsOf S c :
  c ∈ recordsOf b root S
  <-> exists n, n ∈ S /\ c ∈ spreadRecords b n (capturePath root n).
Proof.
  unfold recordsOf. rewrite list_elem_of_In, in_flat_map.
  split; intros (n & H1 & H2); exists n; by rewrite ?list_elem_of_In in *.
Qed.

Lemma captureInv_log w0 seen st w e :
  captureInv b root w0 seen st w ->
  captureInv b root w0 seen st (sys.mkWorld (sys.files w) (sys.log w ++ [e])).
Proof.
  intros (He & S & H1 & H2 & H3 & H4).
  split; [by apply extends_snoc|]. by exists S.
Qed.

Lemma captureOne_step w0 seen st a w :
  captureInv b root w0 seen st w ->
  wp (main.captureOne env b root st a)
     (fun o w' => match o with
                  | sys.Returned st' => captureInv b root w0 (seen ++ [a]) st' w'
                  | sys.Panicked => False
                  end) w.
Proof.
  destruct st as [captured failed].
  intros (He & S & Hperm & Hrec & Hfiles & Hfailed). simpl in *.
  eapply wp_mono; [apply captureOne_spec|].
  intros o w' [He' [[-> Hf]|(-> & Hf & Habs & _)]].
  - split; [by eapply extends_trans|]. exists (S ++ [a]). simpl.
    split_and!.
    + rewrite Hperm, <- !app_assoc. apply Permutation_app_head, Permutation_app_comm.
    + by rewrite recordsOf_snoc, Hrec.
    + rewrite Hf, Hfiles, filesOf_snoc. set_solver.
    + done.
  - split; [by eapply extends_trans|]. exists S. simpl.
    split_and!.
    + by rewrite Hperm, app_assoc.
    + done.
    + by rewrite Hf.
    + intros n [Hn| ->%list_elem_of_singleton]%elem_of_app; [by apply Hfailed|].
      rewrite Hfiles in Habs. set_solver.
Qed.

Lemma retryOne_step w1 captured1 seen captured a w :
  retryInv b root w1 captured1 seen captured w ->
  wp (main.retryOne env b root captured a)
     (fun o w' => match o with
                  | sys.Returned captured' =>
                      retryInv b root w1 captured1 (seen ++ [a]) captured' w'
                  | sys.Panicked => False
                  end) w.
Proof.
  intros (He & S2 & F2 & Hperm & Hrec & Hfiles & Hlog).
  eapply wp_mono; [apply retryOne_spec|].
  intros o w' [He' [[-> Hf]|(-> & Hf & Habs & Hev)]].
  - split; [by eapply extends_trans|]. exists (S2 ++ [a]), F2.
    split_and!.
    + rewrite Hperm, <- !app_assoc. apply Permutation_app_head, Permutation_app_comm.
    + by rewrite recordsOf_snoc, Hrec, app_assoc.
    + rewrite Hf, Hfiles, filesOf_snoc. set_solver.
    + intros n Hn. eapply extends_elem_of; [exact He'|]. by apply Hlog.
  - split; [by eapply extends_trans|]. exists S2, (F2 ++ [a]).
    split_and!.
    + by rewrite Hperm, app_assoc.
    + done.
    + by rewrite Hf.
    + intros n [Hn| ->%list_elem_of_singleton]%elem_of_app; [|done].
      eapply extends_elem_of; [exact He'|]. by apply Hlog.
Qed.

End capture_phase.

Lemma captureInteractivePages_spec env args b root w :
  wp (main.captureInteractivePages env args b root)
     (fun o w' => capturePhasePost b root w o w') w.
Proof.
  unfold main.captureInteractivePages.
  set (cl := if (0 <? main.Concurrency args) && (main.Concurrency args <? 4)
             then main.Concurrency args else 4).
  set (bs0 := if 0 <? main.BatchSize args then main.BatchSize args else 8).
  set (bs := if bs0 <? cl then cl else bs0).
  set (pages := main.pagesToCapture b).
  set (nb := Z.quot (main.len pages + bs - 1) bs).
  assert (0 < bs) as Hbs.
  { subst bs bs0 cl.
    repeat match goal with
           | |- context [?x <? ?y] => destruct (Z.ltb_spec x y); simpl
           end; lia. }
  assert (0 <= main.len pages) as Hlen by (unfold main.len; lia).
  apply wp_bind.
  eapply wp_mono.
  { apply (captureBatches_wp env b root pages bs nb (captureInv b root w)
             (captureOne_step env b root w) (captureInv_log b root w) Hbs
             (Z.to_nat nb) 0 ([], []) w); [lia|].
    rewrite Z.mul_0_l, slice_nil.
    split; [apply extends_refl|]. exists []. simpl.
    split_and!; [done|done| |].
    - unfold filesOf. simpl. set_solver.
    - intros n Hn. by apply elem_of_nil in Hn. }
  intros [[captured failed]|] w1 H1; [|done].
  rewrite Z2Nat.id, Z.add_0_l in H1 by by apply numBatches_nonneg.
  rewrite slice_all in H1 by by apply numBatches_cover.
  destruct H1 as (He1 & S & Hperm & Hrec & Hfiles & Hfailed). simpl in *.
  apply wp_bind.
  apply (wp_mono _ (fun _ w2 => sys.files w2 = sys.files w1 /\ extends w1 w2)).
  { destruct (0 <? main.len (sys.sortBy id failed)); wp_steps;
      (split; [done|]); [apply extends_snoc|]; apply extends_refl. }
  intros _ w2 [Hf2 He2].
  assert (main.len pages = main.len S + main.len failed) as Hlens.
  { unfold main.len. rewrite Hperm, length_app. lia. }
  destruct (Z.eqb_spec (main.len (sys.sortBy iOverallOrder captured)) 0) as [Hz|Hnz].
  { wp_steps. unfold main.len in Hz. rewrite sortBy_length in Hz.
    assert (captured = []) as Hc by (destruct captured; [done|simpl in Hz; lia]).
    assert (S = []) as ->.
    { apply (recordsOf_nil_inv b root). by rewrite <- Hrec. }
    exists [], failed. split_and!; [exact Hperm|by rewrite Hf2|done|].
    by left. }
  assert (S <> []) as HS.
  { intros ->. apply Hnz. by rewrite Hrec. }
  assert (0 < main.len S) as HlenS.
  { destruct S; [done|]. unfold main.len. simpl. lia. }
  assert (main.len (sys.sortBy id failed) = main.len failed) as Hlf.
  { unfold main.len. by rewrite sortBy_length. }
  rewrite Hlf.
  destruct (Z.ltb_spec 0 (main.len failed)) as [Hpos|Hzero]; simpl.
  - destruct (Z.ltb_spec (main.len failed) (main.len pages)) as [_|Hge]; [|lia].
    apply wp_bind.
    eapply wp_mono.
    { apply (forEach_wp _
               (retryInv b root w2 (sys.sortBy iOverallOrder captured))
               _ (retryOne_step env b root w2 (sys.sortBy iOverallOrder captured))
               []).
      split; [apply extends_refl|]. exists [], []. simpl.
      split_and!; [done|by rewrite app_nil_r| |].
      - unfold filesOf. simpl. set_solver.
      - intros n Hn. by apply elem_of_nil in Hn. }
    intros [captured'|] w3 H3; [|done]. simpl in H3.
    destruct H3 as (He3 & S2 & F2 & Hperm2 & Hrec2 & Hfiles2 & Hlog2).
    wp_steps. exists (S ++ S2), F2.
    split_and!.
    + etrans; [exact Hperm|].
      rewrite <- (sortBy_Permutation id failed), Hperm2.
      by rewrite app_assoc.
    + rewrite Hfiles2, Hf2, Hfiles, filesOf_app. set_solver.
    + intros n Hn. apply Hfailed.
      rewrite <- (sortBy_Permutation id failed), Hperm2.
      apply elem_of_app. by right.
    + right. split_and!; [done| | |apply sortBy_Sorted|done].
      * intros H. by apply app_eq_nil in H as [-> _].
      * rewrite sortBy_Permutation, Hrec2, sortBy_Permutation, Hrec.
        by rewrite recordsOf_app.
  - assert (failed = []) as ->.
    { destruct failed; [done|]. unfold main.len in Hzero. simpl in Hzero. lia. }
    wp_steps. exists S, []. split_and!; [exact Hperm|by rewrite Hf2| |].
    + intros n Hn. by apply elem_of_nil in Hn.
    + right. split_and!; [done|done| |apply sortBy_Sorted|].
      * by rewrite sortBy_Permutation, Hrec.
      * intros n Hn. by apply elem_of_nil in Hn.
Qed.

(** ** C4: how the capture phase ends *)




(** * Further properties *)

(** ** File names *)

Section bytes.

Lemma bytes_inj (a b : string) :
  list_ascii_of_string a = list_ascii_of_string b -> a = b.
Proof.
  intros H. rewrite <- (string_of_list_ascii_of_string a),
    <- (string_of_list_ascii_of_string b). by rewrite H.
Qed.

Lemma bytes_app (a b : string) :
  list_ascii_of_string (a +:+ b) = list_ascii_of_string a ++ list_ascii_of_string b.
Proof.
  induction a as [|x a IH]; [done|].
  rewrite str_app_cons. simpl. by rewrite IH.
Qed.

Lemma occurs_bytes c s : occurs c s = true <-> c ∈ list_ascii_of_string s.
Proof.
  induction s as [|a s IH]; simpl.
  - split; [done|]. by intros ?%elem_of_nil.
  - rewrite orb_true_iff, IH, elem_of_cons, Ascii.eqb_eq. naive_solver.
Qed.

Lemma occurs_false_bytes c s : occurs c s = false <-> c ∉ list_ascii_of_string s.
Proof.
  rewrite <- occurs_bytes. destruct (occurs c s); naive_solver.
Qed.

Lemma occurs_app c a b : occurs c (a +:+ b) = occurs c a || occurs c b.
Proof.
  induction a as [|x a IH]; [done|].
  rewrite str_app_cons. simpl. rewrite IH. by rewrite orb_assoc.
Qed.

Lemma filter_all {A} (P : A -> Prop) `{forall x, Decision (P x)} (l : list A) :
  (forall x, x ∈ l -> P x) -> filter P l = l.
Proof.
  induction l as [|x l IH]; intros Hl; [done|].
  rewrite filter_cons_True by (apply Hl; left).
  f_equal. apply IH. intros y Hy. apply Hl. by right.
Qed.

Lemma ReplaceAll1_bytes s c :
  list_ascii_of_string (strings.ReplaceAll1 s c "")
  = filter (fun a => a <> c) (list_ascii_of_string s).
Proof.
  induction s as [|a s IH]; [done|]. simpl.
  destruct (Ascii.eqb_spec a c) as [->|Hne].
  - rewrite filter_cons_False by naive_solver. exact IH.
  - rewrite filter_cons_True by done. simpl. by rewrite IH.
Qed.

Lemma removeAll_bytes cs s :
  list_ascii_of_string
    (foldl (fun filename char => strings.ReplaceAll1 filename char "") s cs)
  = filter (fun a => a ∉ cs) (list_ascii_of_string s).
Proof.
  revert s. induction cs as [|c cs IH]; intros s; simpl.
  - symmetry. apply filter_all. intros a _. apply not_elem_of_nil.
  - rewrite IH, ReplaceAll1_bytes, list_filter_filter.
    apply list_filter_iff. intros a. rewrite not_elem_of_cons. naive_solver.
Qed.

Lemma sanitizeFilename_bytes filename :
  list_ascii_of_string (main.sanitizeFilename filename)
  = filter (fun a => a ∉ main.invalidChars) (list_ascii_of_string filename).
Proof. apply removeAll_bytes. Qed.

Lemma sanitizeFilename_occurs filename c :
  c ∈ main.invalidChars -> occurs c (main.sanitizeFilename filename) = false.
Proof.
  intros Hc. apply occurs_false_bytes. rewrite sanitizeFilename_bytes.
  intros [Hn _]%list_elem_of_filter. done.
Qed.

End bytes.

(** X1.  [sanitizeFilename] keeps the bytes of a name in their order and
    removes exactly the bytes of [invalidChars] (slash, backslash, colon,
    star, question mark, double quote, less, greater, bar): none of them
    occurs in the result. *)
Theorem X1_sanitizeFilename_removes (filename : string) :
  list_ascii_of_string (main.sanitizeFilename filename)
  = filter (fun a => a ∉ main.invalidChars) (list_ascii_of_string filename)
  /\ (forall c, c ∈ main.invalidChars ->
                occurs c (main.sanitizeFilename filename) = false).
Proof.
  split; [apply sanitizeFilename_bytes|].
  intros c Hc. by apply sanitizeFilename_occurs.
Qed.

(** X2.  Sanitising a name twice is sanitising it once; a name without
    invalid bytes is left as it is; and the sanitised form of a
    concatenation is the concatenation of the sanitised forms. *)
Theorem X2_sanitizeFilename_idempotent (filename : string) :
  main.sanitizeFilename (main.sanitizeFilename filename) = main.sanitizeFilename filename
  /\ ((forall c, c ∈ main.invalidChars -> occurs c filename = false) ->
      main.sanitizeFilename filename = filename)
  /\ (forall a b, main.sanitizeFilename (a +:+ b)
                  = main.sanitizeFilename a +:+ main.sanitizeFilename b).
Proof.
  assert (Hfix : forall s, (forall c, c ∈ main.invalidChars -> occurs c s = false) ->
                           main.sanitizeFilename s = s).
  { intros s Hs. apply bytes_inj. unfold main.sanitizeFilename.
    rewrite removeAll_bytes. apply filter_all.
    intros a Ha Hin. apply Hs in Hin. apply occurs_false_bytes in Hin. done. }
  split; [|split]; [|apply Hfix|].
  - apply Hfix. intros c Hc. by apply sanitizeFilename_occurs.
  - intros a b. apply bytes_inj. unfold main.sanitizeFilename.
    rewrite bytes_app, !removeAll_bytes, bytes_app. apply filter_app.
Qed.

(** ** From the manifest script to the JSON text *)

Section trims.

Lemma startTrim_app pre r :
  occurs "{" pre = false -> startTrim (pre +:+ String "{" r) = String "{" r.
Proof.
  induction pre as [|a pre IH]; [done|].
  rewrite str_app_cons. simpl. intros [Ha Hp]%orb_false_iff.
  rewrite Ha. by apply IH.
Qed.

Lemma startTrim_none s : occurs "{" s = false -> startTrim s = "".
Proof.
  induction s as [|a s IH]; [done|]. simpl.
  intros [Ha Hp]%orb_false_iff. rewrite Ha. by apply IH.
Qed.

Lemma startTrim_shape s : startTrim s = "" \/ exists r, startTrim s = String "{" r.
Proof.
  induction s as [|a s IH]; [by left|]. simpl.
  destruct (Ascii.eqb_spec a "{") as [->|_]; [right; by eexists|exact IH].
Qed.

Lemma endTrim_none s : occurs "}" s = false -> endTrim s = "".
Proof.
  induction s as [|a s IH]; [done|]. simpl.
  intros [Ha Hp]%orb_false_iff. rewrite IH, Ha by done. done.
Qed.

Lemma endTrim_keep a t : endTrim t <> "" -> endTrim (a +:+ t) = a +:+ endTrim t.
Proof.
  intros Ht. induction a as [|x a IH]; [done|].
  rewrite !str_app_cons. simpl. rewrite IH.
  destruct (a +:+ endTrim t) eqn:E; [|done].
  destruct a; [|by rewrite str_app_cons in E]. by destruct (endTrim t).
Qed.

Lemma endTrim_app a post :
  occurs "}" post = false -> endTrim (a +:+ String "}" post) = a +:+ "}".
Proof.
  intros Hp.
  assert (endTrim (String "}" post) = "}") as H.
  { simpl. by rewrite endTrim_none. }
  rewrite endTrim_keep; rewrite H; done.
Qed.

Lemma endTrim_shape s : endTrim s = "" \/ exists a, endTrim s = a +:+ "}".
Proof.
  induction s as [|c s IH]; [by left|]. simpl.
  destruct IH as [->|[a ->]].
  - destruct (Ascii.eqb_spec c "}") as [->|_]; [right; by exists ""|by left].
  - right. exists (String c a). rewrite str_app_cons.
    destruct (a +:+ "}") eqn:E; [|done]. by destruct a.
Qed.

End trims.

(** X3.  The text that [downloadHtmlConfig] hands to the JSON decoder
    runs from the first opening brace of the script to its last closing
    brace: what stands before a brace-free prefix and after a brace-free
    suffix is cut off.  It is empty when the script has no opening brace
    or no closing brace; otherwise it begins with an opening and ends
    with a closing brace; trimming it again changes nothing. *)
Theorem X3_jsonConfigOf_braces :
  (forall pre body post,
      occurs "{" pre = false -> occurs "}" post = false ->
      jsonConfigOf (pre +:+ "{" +:+ body +:+ "}" +:+ post) = "{" +:+ body +:+ "}")
  /\ (forall s, occurs "{" s = false -> jsonConfigOf s = "")
  /\ (forall s, occurs "}" s = false -> jsonConfigOf s = "")
  /\ (forall s, jsonConfigOf s = ""
                \/ exists body, jsonConfigOf s = "{" +:+ body +:+ "}")
  /\ (forall s, jsonConfigOf (jsonConfigOf s) = jsonConfigOf s).
Proof.
  assert (Hwrap : forall pre body post,
      occurs "{" pre = false -> occurs "}" post = false ->
      jsonConfigOf (pre +:+ "{" +:+ body +:+ "}" +:+ post) = "{" +:+ body +:+ "}").
  { intros pre body post Hpre Hpost. unfold jsonConfigOf.
    change ("{" +:+ body +:+ "}" +:+ post) with (String "{" (body +:+ "}" +:+ post)).
    rewrite startTrim_app by done.
    change (String "{" (body +:+ "}" +:+ post))
      with (String "{" body +:+ String "}" post).
    by rewrite endTrim_app. }
  assert (Hshape : forall s, jsonConfigOf s = ""
                \/ exists body, jsonConfigOf s = "{" +:+ body +:+ "}").
  { intros s. unfold jsonConfigOf.
    destruct (startTrim_shape s) as [->|[r ->]]; [by left|].
    simpl. destruct (endTrim_shape r) as [->|[a ->]].
    - left. done.
    - right. exists a. destruct (a +:+ "}") eqn:E; [by destruct a|done]. }
  split; [exact Hwrap|]. split; [|split; [|split; [exact Hshape|]]].
  - intros s Hs. unfold jsonConfigOf. by rewrite startTrim_none.
  - intros s Hs. unfold jsonConfigOf. apply endTrim_none.
    clear -Hs. induction s as [|a s IH]; [done|]. simpl in *.
    apply orb_false_iff in Hs as [Ha Hs].
    destruct (Ascii.eqb a "{"); [|by apply IH]. simpl. by rewrite Ha, Hs.
  - intros s. destruct (Hshape s) as [->|[body ->]]; [done|].
    apply (Hwrap "" body ""); done.
Qed.

(** ** Suffixes of byte strings *)

Section suffixes.

Lemma str_take_app (a b : string) : strings.take (String.length a) (a +:+ b) = a.
Proof.
  induction a as [|x a IH]; [by destruct b|].
  rewrite str_app_cons. simpl. by rewrite IH.
Qed.

Lemma take_drop_str n (s : string) : strings.take n s +:+ strings.drop n s = s.
Proof.
  revert s. induction n as [|n IH]; intros [|x s]; simpl; try done.
  rewrite str_app_cons. by rewrite IH.
Qed.

Lemma str_take_length n (s : string) :
  String.length (strings.take n s) = Nat.min n (String.length s).
Proof.
  revert s. induction n as [|n IH]; intros [|x s]; simpl; try done.
  by rewrite IH.
Qed.

Lemma HasSuffix_app (a suf : string) : strings.HasSuffix (a +:+ suf) suf = true.
Proof.
  unfold strings.HasSuffix. rewrite str_length_app.
  replace (String.length a + String.length suf - String.length suf)%nat
    with (String.length a) by lia.
  rewrite drop_app, String.eqb_refl, andb_true_r.
  apply Nat.leb_le. lia.
Qed.

Lemma TrimSuffix_app (a suf : string) : strings.TrimSuffix (a +:+ suf) suf = a.
Proof.
  unfold strings.TrimSuffix. rewrite HasSuffix_app, str_length_app.
  replace (String.length a + String.length suf - String.length suf)%nat
    with (String.length a) by lia.
  apply str_take_app.
Qed.

Lemma HasSuffix_inv (s suf : string) :
  strings.HasSuffix s suf = true -> exists a, s = a +:+ suf.
Proof.
  unfold strings.HasSuffix. intros [_ H]%andb_true_iff.
  apply String.eqb_eq in H.
  exists (strings.take (String.length s - String.length suf) s).
  set (n := (String.length s - String.length suf)%nat) in *.
  rewrite <- H. symmetry. apply take_drop_str.
Qed.

Lemma TrimSuffix_inv (s suf : string) :
  strings.TrimSuffix s suf = s \/ s = strings.TrimSuffix s suf +:+ suf.
Proof.
  unfold strings.TrimSuffix. destruct (strings.HasSuffix s suf) eqn:E; [|by left].
  right. destruct (HasSuffix_inv _ _ E) as [a ->].
  rewrite str_length_app.
  replace (String.length a + String.length suf - String.length suf)%nat
    with (String.length a) by lia.
  by rewrite str_take_app.
Qed.

Lemma allBytes_app P (a b : string) :
  allBytes P (a +:+ b) = allBytes P a && allBytes P b.
Proof.
  induction a as [|x a IH]; [done|].
  rewrite str_app_cons. simpl. rewrite IH. by rewrite andb_assoc.
Qed.

Lemma allBytes_occurs P c s : allBytes P s = true -> P c = false -> occurs c s = false.
Proof.
  intros Hs Hc. induction s as [|a s IH]; [done|]. simpl in *.
  apply andb_true_iff in Hs as [Ha Hs]. rewrite IH by done.
  destruct (Ascii.eqb_spec a c) as [->|]; [congruence|done].
Qed.

Lemma allWord_occurs c s : allWord s = true -> isWord c = false -> occurs c s = false.
Proof.
  intros Hs Hc. apply allBytes_occurs with isWord; [|done].
  clear Hc. induction s as [|a s IH]; [done|]. simpl in *.
  apply andb_true_iff in Hs as [-> Hs]. by apply IH.
Qed.

End suffixes.

(** ** Identifiers of queue entries: [extractBookID] *)

Section split.

Lemma Split1_nonempty s c : exists p ps, strings.Split1 s c = p :: ps.
Proof.
  induction s as [|a s (p & ps & IH)]; simpl; [by eexists _, _|].
  destruct (Ascii.eqb a c); [by eexists _, _|]. rewrite IH. by eexists _, _.
Qed.

Lemma Split1_none s c : occurs c s = false -> strings.Split1 s c = [s].
Proof.
  induction s as [|a s IH]; [done|]. simpl.
  intros [Ha Hs]%orb_false_iff. rewrite Ha, IH by done. done.
Qed.

Lemma Split1_app a b c :
  strings.Split1 (a +:+ String c b) c = strings.Split1 a c ++ strings.Split1 b c.
Proof.
  induction a as [|x a IH].
  - simpl. change ("" +:+ String c b) with (String c b). simpl.
    by rewrite Ascii.eqb_refl.
  - rewrite str_app_cons. simpl. rewrite IH.
    destruct (Ascii.eqb x c); [done|].
    destruct (Split1_nonempty a c) as (p & ps & ->). done.
Qed.

Lemma Split1_single s c p : strings.Split1 s c = [p] -> occurs c s = false /\ p = s.
Proof.
  revert p. induction s as [|a s IH]; intros p; simpl.
  - by intros [= <-].
  - destruct (Ascii.eqb a c) eqn:E.
    + destruct (Split1_nonempty s c) as (q & qs & ->). done.
    + destruct (strings.Split1 s c) as [|q [|q' qs]] eqn:Es; intros [= <-].
      * destruct (Split1_nonempty s c) as (? & ? & ?). congruence.
      * destruct (IH q eq_refl) as [-> ->]. done.
Qed.

Lemma Split1_pieces s c p : p ∈ strings.Split1 s c -> occurs c p = false.
Proof.
  revert p. induction s as [|a s IH]; intros p; simpl.
  - by intros ->%list_elem_of_singleton.
  - destruct (Ascii.eqb a c) eqn:E.
    + intros [->|H]%elem_of_cons; [done|by apply IH].
    + destruct (strings.Split1 s c) as [|q qs] eqn:Es.
      * intros ->%list_elem_of_singleton. simpl. by rewrite E.
      * intros [->|H]%elem_of_cons.
        -- simpl. rewrite E. apply IH. by left.
        -- apply IH. by right.
Qed.

Lemma index_app_last init a b :
  termui.index (init ++ [a; b]) (main.len (init ++ [a; b]) - 1) = sys.Returned b
  /\ termui.index (init ++ [a; b]) (main.len (init ++ [a; b]) - 2) = sys.Returned a.
Proof.
  unfold termui.index, main.len. rewrite length_app. simpl length.
  split.
  - replace (Z.to_nat (Z.of_nat (length init + 2) - 1)) with (length init + 1)%nat by lia.
    replace ((0 <=? _) && (_ <? _)) with true
      by (symmetry; apply andb_true_iff; split; [apply Z.leb_le|apply Z.ltb_lt]; lia).
    rewrite lookup_app_r by lia.
    by replace (length init + 1 - length init)%nat with 1%nat by lia.
  - replace (Z.to_nat (Z.of_nat (length init + 2) - 2)) with (length init + 0)%nat by lia.
    replace ((0 <=? _) && (_ <? _)) with true
      by (symmetry; apply andb_true_iff; split; [apply Z.leb_le|apply Z.ltb_lt]; lia).
    rewrite lookup_app_r by lia.
    by replace (length init + 0 - length init)%nat with 0%nat by lia.
Qed.

Lemma two_last {A} (l : list A) :
  (2 <= length l)%nat -> exists init a b, l = init ++ [a; b].
Proof.
  induction l as [|x l IH]; simpl; [lia|]. intros H.
  destruct l as [|y [|z l]].
  - simpl in H. lia.
  - by exists [], x, y.
  - destruct IH as (init & a & b & E); [simpl; lia|].
    exists (x :: init), a, b. by rewrite E.
Qed.

Lemma extractBookID_parts url init a b :
  strings.Split1 (strings.TrimSuffix url "/") "/" = init ++ [a; b] ->
  termui.extractBookID url = sys.Returned (inl (a +:+ "_" +:+ b)).
Proof.
  intros E. unfold termui.extractBookID. rewrite E.
  destruct (index_app_last init a b) as [-> ->].
  unfold main.len. rewrite length_app. simpl length.
  replace (Z.of_nat (length init + 2) <? 2) with false
    by (symmetry; apply Z.ltb_ge; lia).
  replace ((0 <=? _) && (0 <=? _)) with true; [done|].
  symmetry; apply andb_true_iff; split; apply Z.leb_le; lia.
Qed.

Lemma extractBookID_none url :
  occurs "/" (strings.TrimSuffix url "/") = false ->
  termui.extractBookID url = sys.Returned (inr termui.ErrInvalidUrlFormat).
Proof.
  intros H. unfold termui.extractBookID. by rewrite Split1_none.
Qed.

End split.

(** X4.  [extractBookID] never panics and never returns its second
    error.  It fails with the invalid-format error exactly when the URL,
    without one trailing slash, has no slash; otherwise it returns the
    last two slash-separated pieces joined by an underscore, and neither
    piece has a slash. *)
Theorem X4_extractBookID_total (url : string) :
  (occurs "/" (strings.TrimSuffix url "/") = false
   /\ termui.extractBookID url = sys.Returned (inr termui.ErrInvalidUrlFormat))
  \/ (occurs "/" (strings.TrimSuffix url "/") = true
      /\ exists init a b,
           strings.Split1 (strings.TrimSuffix url "/") "/" = init ++ [a; b]
           /\ occurs "/" a = false /\ occurs "/" b = false
           /\ termui.extractBookID url = sys.Returned (inl (a +:+ "_" +:+ b))).
Proof.
  destruct (occurs "/" (strings.TrimSuffix url "/")) eqn:E.
  - right. split; [done|].
    destruct (two_last (strings.Split1 (strings.TrimSuffix url "/") "/"))
      as (init & a & b & Hs).
    { destruct (strings.Split1 (strings.TrimSuffix url "/") "/") as [|p [|q l]] eqn:Es.
      - destruct (Split1_nonempty (strings.TrimSuffix url "/") "/") as (? & ? & ?).
        congruence.
      - apply Split1_single in Es as [Hn _]. congruence.
      - simpl. lia. }
    exists init, a, b. split; [done|].
    split; [|split].
    + apply (Split1_pieces (strings.TrimSuffix url "/") "/"). rewrite Hs.
      apply elem_of_app. right. left.
    + apply (Split1_pieces (strings.TrimSuffix url "/") "/"). rewrite Hs.
      apply elem_of_app. right. right. left.
    + by apply extractBookID_parts with init.
  - left. split; [done|]. by apply extractBookID_none.
Qed.

(** X5.  For an identifier that [ParseId] returns, the book URL that
    [Get] builds from it is mapped by [extractBookID] to the identifier
    with its slash replaced by an underscore. *)
Theorem X5_extractBookID_of_book_url (url_Parse : string -> option URL)
    (s id : string) (Hid : ParseId url_Parse s = inl id) :
  exists w1 w2,
    id = w1 +:+ "/" +:+ w2
    /\ termui.extractBookID (fileRoot id) = sys.Returned (inl (w1 +:+ "_" +:+ w2)).
Proof.
  assert (exists t, twoSegment t id) as [t (w1 & w2 & rest & _ & -> & _ & _ & H1 & H2 & _)].
  { apply ParseId_inl_inv in Hid as [H|(u & _ & _ & H)]; eauto. }
  exists w1, w2. split; [done|].
  assert (occurs "/" w1 = false) as O1 by (by apply allWord_occurs).
  assert (occurs "/" w2 = false) as O2 by (by apply allWord_occurs).
  apply extractBookID_parts with ["https:"; ""; "online.fliphtml5.com"].
  unfold fileRoot.
  replace ("https://online.fliphtml5.com/" +:+ (w1 +:+ "/" +:+ w2) +:+ "/")
    with (("https://online.fliphtml5.com/" +:+ w1 +:+ "/" +:+ w2) +:+ "/")
    by (by rewrite !str_app_assoc).
  rewrite TrimSuffix_app.
  change ("https://online.fliphtml5.com/" +:+ w1 +:+ "/" +:+ w2)
    with ("https:" +:+ String "/" ("" +:+ String "/"
            ("online.fliphtml5.com" +:+ String "/" (w1 +:+ String "/" w2)))).
  rewrite !Split1_app, (Split1_none w1), (Split1_none w2) by done. done.
Qed.

Lemma X5_extractBookID_of_book_url_witness :
  exists w1 w2,
    "kzpyj/cxnu" = w1 +:+ "/" +:+ w2
    /\ termui.extractBookID (fileRoot "kzpyj/cxnu")
       = sys.Returned (inl (w1 +:+ "_" +:+ w2)).
Proof.
  apply (X5_extractBookID_of_book_url url_Parse_model
           "https://online.fliphtml5.com/kzpyj/cxnu/").
  by vm_compute.
Defined.

(** ** Identifiers of queue entries: [generateSafeID] *)

Section safe_id.

Lemma replaceUnsafe_safe skip s : allBytes termui.isSafe (termui.replaceUnsafe skip s) = true.
Proof.
  revert skip. induction s as [|c s IH]; intros skip; [done|]. simpl.
  destruct skip as [|k]; [|apply IH].
  destruct (termui.isSafe c) eqn:E; simpl.
  - by rewrite E, IH.
  - apply IH.
Qed.

Lemma replaceUnsafe_length skip s :
  (String.length (termui.replaceUnsafe skip s) <= String.length s)%nat.
Proof.
  revert skip. induction s as [|c s IH]; intros skip; [done|]. simpl.
  destruct skip as [|k].
  - destruct (termui.isSafe c); simpl; apply le_n_S, IH.
  - specialize (IH k). lia.
Qed.

Lemma replaceUnsafe_id s : allBytes termui.isSafe s = true -> termui.replaceUnsafe 0 s = s.
Proof.
  induction s as [|c s IH]; [done|]. simpl.
  intros [-> Hs]%andb_true_iff. by rewrite IH.
Qed.

Lemma allBytes_take P n s : allBytes P s = true -> allBytes P (strings.take n s) = true.
Proof.
  revert s. induction n as [|n IH]; intros [|c s]; simpl; try done.
  intros [-> Hs]%andb_true_iff. by apply IH.
Qed.

Lemma TrimSuffix_safe s : allBytes termui.isSafe s = true -> strings.TrimSuffix s ".txt" = s.
Proof.
  intros Hs. destruct (TrimSuffix_inv s ".txt") as [H|H]; [done|].
  rewrite H, allBytes_app in Hs. apply andb_true_iff in Hs as [_ Hs]. done.
Qed.

Lemma generateSafeID_safe fileName :
  allBytes termui.isSafe (termui.generateSafeID fileName) = true.
Proof.
  unfold termui.generateSafeID. case_match.
  - apply allBytes_take, replaceUnsafe_safe.
  - apply replaceUnsafe_safe.
Qed.

Lemma generateSafeID_length fileName :
  (String.length (termui.generateSafeID fileName) <= 64)%nat.
Proof.
  unfold termui.generateSafeID. case_match eqn:E.
  - rewrite str_take_length. lia.
  - apply Nat.ltb_ge in E. done.
Qed.

End safe_id.

(** X6.  The result of [generateSafeID] consists of letters, digits,
    underscores and hyphens only, has at most 64 bytes, is no longer than
    the file name, and has none of the bytes that [sanitizeFilename]
    removes. *)
Theorem X6_generateSafeID_safe (fileName : string) :
  allBytes termui.isSafe (termui.generateSafeID fileName) = true
  /\ (String.length (termui.generateSafeID fileName) <= 64)%nat
  /\ (String.length (termui.generateSafeID fileName) <= String.length fileName)%nat
  /\ (forall c, c ∈ main.invalidChars ->
                occurs c (termui.generateSafeID fileName) = false).
Proof.
  split; [apply generateSafeID_safe|]. split; [apply generateSafeID_length|]. split.
  - unfold termui.generateSafeID.
    assert (String.length (strings.TrimSuffix fileName ".txt") <= String.length fileName)%nat.
    { destruct (TrimSuffix_inv fileName ".txt") as [->|H]; [done|].
      rewrite H at 2. rewrite str_length_app. lia. }
    pose proof (replaceUnsafe_length 0 (strings.TrimSuffix fileName ".txt")).
    case_match; [rewrite str_take_length|]; lia.
  - intros c Hc. apply allBytes_occurs with termui.isSafe; [apply generateSafeID_safe|].
    revert c Hc. apply Forall_forall. unfold main.invalidChars.
    repeat constructor.
Qed.

(** X7.  [generateSafeID] is idempotent, and it returns a name of at
    most 64 safe bytes as it is. *)
Theorem X7_generateSafeID_idempotent (fileName : string) :
  termui.generateSafeID (termui.generateSafeID fileName) = termui.generateSafeID fileName
  /\ (allBytes termui.isSafe fileName = true ->
      (String.length fileName <= 64)%nat ->
      termui.generateSafeID fileName = fileName).
Proof.
  assert (Hid : forall s, allBytes termui.isSafe s = true ->
                          (String.length s <= 64)%nat -> termui.generateSafeID s = s).
  { intros s Hs Hl. unfold termui.generateSafeID.
    rewrite TrimSuffix_safe, replaceUnsafe_id by done.
    by replace (64 <? String.length s)%nat with false by (symmetry; apply Nat.ltb_ge; lia). }
  split; [|apply Hid].
  apply Hid; [apply generateSafeID_safe|apply generateSafeID_length].
Qed.

(** ** Decimal numerals *)

Section numerals.

Lemma pretty_N_go_app (x : N) (s : string) : pretty_N_go x s = pretty_N_go x "" +:+ s.
Proof.
  revert s. induction (N.lt_wf_0 x) as [x _ IH]; intros s.
  assert (x = 0 \/ 0 < x)%N as [->|Hx] by lia; [by rewrite !pretty_N_go_0|].
  rewrite !(pretty_N_go_step x) by done.
  assert (x `div` 10 < x)%N as Hlt by (by apply N.div_lt).
  rewrite (IH _ Hlt (String _ s)), (IH _ Hlt (String _ "")).
  by rewrite str_app_assoc.
Qed.

Lemma pretty_N_go_snoc (x : N) :
  (0 < x)%N ->
  pretty_N_go x "" = pretty_N_go (x `div` 10) "" +:+ String (pretty_N_char (x `mod` 10)) "".
Proof. intros Hx. rewrite pretty_N_go_step by done. apply pretty_N_go_app. Qed.

Lemma isDigit_char (d : N) : isDigit (pretty_N_char d) = true.
Proof. unfold pretty_N_char. by repeat case_match. Qed.

Lemma digitVal_char (d : N) :
  (d < 10)%N -> strconv.digitVal (pretty_N_char d) = Some (Z.of_N d).
Proof.
  intros Hd.
  assert (d = 0 \/ d = 1 \/ d = 2 \/ d = 3 \/ d = 4 \/ d = 5 \/ d = 6
          \/ d = 7 \/ d = 8 \/ d = 9)%N as H by lia.
  repeat (destruct H as [->|H]; [reflexivity|]). by subst.
Qed.

Lemma parseDigits_app (a b : string) (acc : Z) :
  strconv.parseDigits (a +:+ b) acc
  = match strconv.parseDigits a acc with
    | Some v => strconv.parseDigits b v
    | None => None
    end.
Proof.
  revert acc. induction a as [|c a IH]; intros acc; [done|].
  rewrite str_app_cons. simpl. destruct (strconv.digitVal c); [apply IH|done].
Qed.

Lemma parseDigits_go (x : N) :
  strconv.parseDigits (pretty_N_go x "") 0 = Some (Z.of_N x).
Proof.
  induction (N.lt_wf_0 x) as [x _ IH].
  assert (x = 0 \/ 0 < x)%N as [->|Hx] by lia; [done|].
  rewrite pretty_N_go_snoc, parseDigits_app by done.
  rewrite IH by (by apply N.div_lt). simpl.
  rewrite digitVal_char by (apply N.mod_lt; lia).
  f_equal. rewrite (N.div_mod x 10) at 3 by lia. lia.
Qed.

Lemma digits_go (x : N) : allBytes isDigit (pretty_N_go x "") = true.
Proof.
  induction (N.lt_wf_0 x) as [x _ IH].
  assert (x = 0 \/ 0 < x)%N as [->|Hx] by lia; [done|].
  rewrite pretty_N_go_snoc, allBytes_app by done.
  rewrite IH by (by apply N.div_lt). simpl. by rewrite isDigit_char.
Qed.

Lemma go_nonempty (x : N) : (0 < x)%N -> pretty_N_go x "" <> "".
Proof.
  intros Hx. rewrite pretty_N_go_snoc by done.
  by destruct (pretty_N_go (x `div` 10) "").
Qed.

(** The numeral of a number that is not negative: digits only. *)
Lemma pretty_nonneg (z : Z) :
  0 <= z ->
  allBytes isDigit (pretty z) = true /\ pretty z <> ""
  /\ strconv.parseDigits (pretty z) 0 = Some z.
Proof.
  intros Hz. destruct z as [|p|p]; [done| |lia].
  change (pretty (Z.pos p)) with (pretty_N_go (N.pos p) "").
  split; [apply digits_go|]. split; [by apply go_nonempty|].
  by rewrite parseDigits_go.
Qed.

Lemma pretty_neg (z : Z) : z < 0 -> pretty z = "-" +:+ pretty (- z).
Proof. by destruct z. Qed.

Lemma Atoi_digits (s : string) (n : Z) :
  allBytes isDigit s = true -> s <> "" -> strconv.parseDigits s 0 = Some n ->
  0 <= n <= 2 ^ 63 ->
  (n <= 2 ^ 63 - 1 -> strconv.Atoi s = Some n)
  /\ (0 < n -> strconv.Atoi ("-" +:+ s) = Some (- n)).
Proof.
  intros Hd Hne Hp Hn. split.
  - intros Hmax. destruct s as [|c r]; [done|].
    unfold strconv.Atoi. simpl in Hd. apply andb_true_iff in Hd as [Hc _].
    assert (Ascii.eqb c "-" = false) as ->
      by (destruct (Ascii.eqb_spec c "-") as [->|]; done).
    assert (Ascii.eqb c "+" = false) as ->
      by (destruct (Ascii.eqb_spec c "+") as [->|]; done).
    cbn [orb]. rewrite Hp. cbn [String.eqb].
    replace ((- 2 ^ 63 <=? n) && (n <=? 2 ^ 63 - 1)) with true; [done|].
    symmetry. apply andb_true_iff. split; apply Z.leb_le; lia.
  - intros Hpos. change ("-" +:+ s) with (String "-" s).
    unfold strconv.Atoi. cbn [Ascii.eqb Bool.eqb orb].
    replace (String.eqb s "") with false
      by (symmetry; by apply String.eqb_neq).
    rewrite Hp.
    replace ((- 2 ^ 63 <=? - n) && (- n <=? 2 ^ 63 - 1)) with true; [done|].
    symmetry. apply andb_true_iff. split; apply Z.leb_le; lia.
Qed.

Lemma Atoi_pretty (z : Z) :
  - 2 ^ 63 <= z <= 2 ^ 63 - 1 -> strconv.Atoi (pretty z) = Some z.
Proof.
  intros Hz. destruct (Z.lt_ge_cases z 0) as [Hneg|Hpos].
  - rewrite pretty_neg by done.
    destruct (pretty_nonneg (- z)) as (Hd & Hne & Hp); [lia|].
    destruct (Atoi_digits _ _ Hd Hne Hp) as [_ H]; [lia|].
    rewrite H by lia. f_equal. lia.
  - destruct (pretty_nonneg z Hpos) as (Hd & Hne & Hp).
    destruct (Atoi_digits _ _ Hd Hne Hp) as [H _]; [lia|].
    apply H. lia.
Qed.

Lemma pretty_no_slash (z : Z) : occurs "/" (pretty z) = false.
Proof.
  destruct (Z.lt_ge_cases z 0) as [Hneg|Hpos].
  - rewrite pretty_neg by done. change ("-" +:+ pretty (- z)) with (String "-" (pretty (- z))).
    simpl. apply allBytes_occurs with isDigit; [|done].
    apply pretty_nonneg. lia.
  - apply allBytes_occurs with isDigit; [|done]. by apply pretty_nonneg.
Qed.

End numerals.

(** ** The page number of a capture file *)

Section base.

Lemma lastElement_none (s acc : string) :
  occurs "/" s = false -> filepath.lastElement s acc = acc +:+ s.
Proof.
  revert acc. induction s as [|a s IH]; intros acc; simpl.
  - by rewrite str_app_nil_r.
  - intros [Ha Hs]%orb_false_iff. rewrite Ha, IH by done.
    by rewrite str_app_assoc.
Qed.

Lemma lastElement_app (a b acc : string) :
  filepath.lastElement (a +:+ String "/" b) acc = filepath.lastElement b "".
Proof.
  revert acc. induction a as [|x a IH]; intros acc.
  - done.
  - rewrite str_app_cons. simpl. destruct (Ascii.eqb x "/"); apply IH.
Qed.

Lemma TrimRightByte_last (a : string) (x c : ascii) :
  x <> c -> strings.TrimRightByte (a +:+ String x "") c = a +:+ String x "".
Proof.
  intros Hx. induction a as [|y a IH].
  - simpl. change ("" +:+ String x "") with (String x ""). simpl.
    by destruct (Ascii.eqb_spec x c).
  - rewrite str_app_cons. simpl. rewrite IH.
    destruct (a +:+ String x "") eqn:E; [by destruct a|done].
Qed.

Lemma Base_Join (dir name : string) (x : ascii) :
  occurs "/" (name +:+ String x "") = false ->
  filepath.Base (sys.filepath_Join dir (name +:+ String x "")) = name +:+ String x "".
Proof.
  intros Hn. unfold filepath.Base, sys.filepath_Join.
  assert (x <> "/"%char) as Hx.
  { intros ->. rewrite occurs_app in Hn. apply orb_false_iff in Hn as [_ Hn]. done. }
  replace (String.eqb (dir +:+ "/" +:+ name +:+ String x "") "") with false
    by (symmetry; apply String.eqb_neq; by destruct dir).
  replace (dir +:+ "/" +:+ name +:+ String x "")
    with ((dir +:+ "/" +:+ name) +:+ String x "") by (by rewrite !str_app_assoc).
  rewrite TrimRightByte_last by done.
  replace ((dir +:+ "/" +:+ name) +:+ String x "")
    with (dir +:+ String "/" (name +:+ String x "")) by (by rewrite !str_app_assoc).
  rewrite lastElement_app, lastElement_none by done.
  change ("" +:+ (name +:+ String x "")) with (name +:+ String x "").
  replace (String.eqb (name +:+ String x "") "") with false; [done|].
  symmetry; apply String.eqb_neq; by destruct name.
Qed.

End base.

(** X8.  [extractPageNumber] recovers the page number from the path of
    the capture file that [CaptureInteractivePageQuiet] writes for it,
    for every page number of 64 bits and every output folder. *)
Theorem X8_extractPageNumber_capturePath (root : string) (n : Z)
    (Hn : - 2 ^ 63 <= n <= 2 ^ 63 - 1) :
  main.extractPageNumber (capturePath root n) = n.
Proof.
  unfold main.extractPageNumber, capturePath.
  replace ("interactive-" +:+ pretty n +:+ ".png")
    with (("interactive-" +:+ pretty n +:+ ".pn") +:+ String "g" "")
    by (by rewrite !str_app_assoc).
  rewrite Base_Join.
  - replace (("interactive-" +:+ pretty n +:+ ".pn") +:+ String "g" "")
      with ("interactive-" +:+ (pretty n +:+ ".png")) by (by rewrite !str_app_assoc).
    rewrite TrimPrefix_app, TrimSuffix_app, Atoi_pretty by done. done.
  - rewrite !occurs_app, pretty_no_slash. done.
Qed.

Lemma X8_extractPageNumber_capturePath_witness :
  main.extractPageNumber (capturePath "out/interactive" 12) = 12.
Proof. apply X8_extractPageNumber_capturePath. lia. Defined.

(** ** Image descriptors and their files *)

Section positions.

Lemma FindAllImages_inner_descr i j order urls images :
  map descr (FindAllImages_inner i j order urls images).1
  = map descr images
    ++ imap (fun k url => (i + 1, j + Z.of_nat k + 1, url)) urls.
Proof.
  revert j order images. induction urls as [|u urls IH]; intros j order images.
  - simpl. by rewrite app_nil_r.
  - simpl. rewrite IH, map_app, <- app_assoc. simpl. f_equal. f_equal.
    + unfold descr. simpl. f_equal. f_equal. lia.
    + apply imap_ext. intros k x _. simpl. f_equal. f_equal. lia.
Qed.

Lemma FindAllImages_outer_descr i order pages images :
  map descr (FindAllImages_outer i order pages images)
  = map descr images
    ++ concat (imap (fun p page =>
                       imap (fun k url => (i + Z.of_nat p + 1, Z.of_nat k + 1, url))
                         (ImageUrls page)) pages).
Proof.
  revert i order images. induction pages as [|page pages IH]; intros i order images.
  - simpl. by rewrite app_nil_r.
  - simpl.
    destruct (FindAllImages_inner i 0 order (ImageUrls page) images)
      as [images' order'] eqn:E.
    rewrite IH.
    pose proof (FindAllImages_inner_descr i 0 order (ImageUrls page) images) as H.
    rewrite E in H. simpl in H. rewrite H, <- app_assoc. f_equal. f_equal.
    + apply imap_ext. intros k x _. simpl. f_equal. f_equal. lia.
    + f_equal. apply imap_ext. intros p x _. simpl.
      apply imap_ext. intros k y _. simpl. f_equal. f_equal. lia.
Qed.

Lemma FindAllImages_inner_sorted i j order urls images :
  0 <= i -> 0 <= j ->
  StronglySorted lexLt images ->
  Forall (inPage i j) images ->
  Forall (fun x => 1 <= PageNumber x /\ 1 <= ImageNumber x) images ->
  let r := (FindAllImages_inner i j order urls images).1 in
  StronglySorted lexLt r
  /\ Forall (fun x => PageNumber x < (i + 1) + 1) r
  /\ Forall (fun x => 1 <= PageNumber x /\ 1 <= ImageNumber x) r.
Proof.
  intros Hi. revert j order images.
  induction urls as [|u urls IH]; intros j order images Hj Hs Hin Hpos; simpl.
  - split; [done|]. split; [|done].
    eapply Forall_impl; [exact Hin|]. unfold inPage. intros x. simpl. lia.
  - apply IH; [lia| | |].
    + apply StronglySorted_app_2; [|done|repeat constructor].
      intros x y Hx ->%list_elem_of_singleton.
      rewrite Forall_forall in Hin. specialize (Hin x Hx).
      unfold lexLt, inPage in *. simpl. lia.
    + apply Forall_app. split.
      * eapply Forall_impl; [exact Hin|]. unfold inPage. intros x. simpl. lia.
      * apply Forall_singleton. unfold inPage. simpl. lia.
    + apply Forall_app. split; [done|]. apply Forall_singleton. simpl. lia.
Qed.

Lemma FindAllImages_outer_sorted i order pages images :
  0 <= i ->
  StronglySorted lexLt images ->
  Forall (fun x => PageNumber x < i + 1) images ->
  Forall (fun x => 1 <= PageNumber x /\ 1 <= ImageNumber x) images ->
  let r := FindAllImages_outer i order pages images in
  StronglySorted lexLt r
  /\ Forall (fun x => 1 <= PageNumber x /\ 1 <= ImageNumber x) r.
Proof.
  revert i order images.
  induction pages as [|page pages IH]; intros i order images Hi Hs Hlt Hpos; simpl.
  - done.
  - destruct (FindAllImages_inner i 0 order (ImageUrls page) images)
      as [images' order'] eqn:E.
    destruct (FindAllImages_inner_sorted i 0 order (ImageUrls page) images)
      as (Hs' & Hlt' & Hpos'); [lia|lia|done| |done|].
    { eapply Forall_impl; [exact Hlt|]. unfold inPage. intros x. simpl. lia. }
    rewrite E in Hs', Hlt', Hpos'. simpl in *.
    apply IH; [lia|done|done|done].
Qed.

Lemma digits_dash_inj (a a' r r' : string) :
  allBytes isDigit a = true -> allBytes isDigit a' = true ->
  a +:+ "-" +:+ r = a' +:+ "-" +:+ r' -> a = a' /\ r = r'.
Proof.
  revert a'. induction a as [|c a IH]; intros [|c' a'] Ha Ha' H.
  - change (String "-" r = String "-" r') in H. by injection H.
  - change (String "-" r = String c' (a' +:+ "-" +:+ r')) in H.
    injection H as <- _. done.
  - change (String c (a +:+ "-" +:+ r) = String "-" r') in H.
    injection H as -> _. done.
  - change (String c (a +:+ "-" +:+ r) = String c' (a' +:+ "-" +:+ r')) in H.
    injection H as -> H. simpl in Ha, Ha'.
    apply andb_true_iff in Ha as [_ Ha]. apply andb_true_iff in Ha' as [_ Ha'].
    destruct (IH a' Ha Ha' H) as [-> ->]. done.
Qed.

Lemma imagePath_inj root (x y : PageImage) :
  0 <= PageNumber x -> 0 <= ImageNumber x ->
  0 <= PageNumber y -> 0 <= ImageNumber y ->
  imagePath root x = imagePath root y ->
  PageNumber x = PageNumber y /\ ImageNumber x = ImageNumber y.
Proof.
  intros Hx1 Hx2 Hy1 Hy2. unfold imagePath, sys.filepath_Join. intros H.
  apply (inj (String.app root)) in H. apply (inj (String.app "/")) in H.
  apply digits_dash_inj in H as [H1 H2]; [| by apply pretty_nonneg..].
  apply str_app_inj_r in H2.
  split; by apply (inj pretty).
Qed.

Lemma sorted_paths_NoDup root (l : list PageImage) :
  StronglySorted lexLt l ->
  Forall (fun x => 1 <= PageNumber x /\ 1 <= ImageNumber x) l ->
  NoDup (map (imagePath root) l).
Proof.
  induction 1 as [|x l Hs IH Hx]; intros Hpos; simpl; [constructor|].
  apply Forall_cons in Hpos as [Hpx Hpl].
  constructor; [|by apply IH].
  intros (y & Hy & Hin)%elem_of_map.
  rewrite Forall_forall in Hx, Hpl.
  specialize (Hx y Hin). specialize (Hpl y Hin).
  apply imagePath_inj in Hy; [|lia..].
  unfold lexLt in Hx. lia.
Qed.

End positions.

(** X9.  [FindAllImages] lists the image URLs page by page and, within
    a page, in their order: the URL at index [k] of the page at index
    [p] gets the page number [p + 1] and the image number [k + 1],
    whatever the [Number] field of the page holds. *)
Theorem X9_FindAllImages_positions (b : Book) :
  map (fun i => (PageNumber i, ImageNumber i, ImageUrl i)) (FindAllImages b)
  = concat (imap (fun p page =>
                    imap (fun k url => (Z.of_nat p + 1, Z.of_nat k + 1, url))
                      (ImageUrls page)) (Pages b)).
Proof.
  unfold FindAllImages.
  pose proof (FindAllImages_outer_descr 0 1 (Pages b) []) as H.
  unfold descr in H. rewrite H. simpl. f_equal.
Qed.

(** X10.  The descriptors of [FindAllImages] are strictly ascending in
    (page number, image number), both at least 1, and no two of them have
    the same local file: skipping a download because the file exists
    never takes the file of another image. *)
Theorem X10_image_files_distinct (b : Book) (root : string) :
  StronglySorted (fun x y => PageNumber x < PageNumber y
                             \/ (PageNumber x = PageNumber y
                                 /\ ImageNumber x < ImageNumber y))
    (FindAllImages b)
  /\ Forall (fun x => 1 <= PageNumber x /\ 1 <= ImageNumber x) (FindAllImages b)
  /\ NoDup (map (imagePath root) (FindAllImages b)).
Proof.
  destruct (FindAllImages_outer_sorted 0 1 (Pages b) []) as [Hs Hpos];
    [lia|constructor|constructor|constructor|].
  split; [exact Hs|]. split; [exact Hpos|].
  by apply sorted_paths_NoDup.
Qed.

(** ** The pages of the manifest *)

Section pages.

Lemma pagesOf_go_numbers id i ps pages :
  map Number (pagesOf_go id i ps pages) = map Number pages ++ seqZ (i + 1) (main.len ps)
  /\ map ThumbnailUrl (pagesOf_go id i ps pages)
     = map ThumbnailUrl pages ++ map ThumbUrl ps.
Proof.
  revert i pages. induction ps as [|p ps IH]; intros i pages.
  - simpl. by rewrite !app_nil_r.
  - simpl. destruct (IH (i + 1) (pages ++ [mkPage (i + 1) (ThumbUrl p) (imagesOf id (Images p))]))
      as [-> ->].
    rewrite !map_app, <- !app_assoc. simpl. split; [|done].
    f_equal. unfold main.len. simpl length.
    rewrite (seqZ_cons (i + 1)) by lia. f_equal. f_equal; lia.
Qed.

Lemma map_lookup {A B} (f : A -> B) (l : list A) (i : nat) :
  map f l !! i = f <$> l !! i.
Proof. revert i. induction l as [|x l IH]; intros [|i]; simpl; auto. Qed.

Lemma FindAllImages_elem (b : Book) (img : PageImage) :
  img ∈ FindAllImages b ->
  exists p page k,
    Pages b !! p = Some page /\ ImageUrls page !! k = Some (ImageUrl img)
    /\ PageNumber img = Z.of_nat p + 1 /\ ImageNumber img = Z.of_nat k + 1.
Proof.
  intros Hin.
  assert (descr img ∈ map descr (FindAllImages b)) as H
    by (apply elem_of_map; eauto).
  unfold FindAllImages in H. rewrite FindAllImages_outer_descr in H. simpl in H.
  apply list_elem_of_In, in_concat in H as (l & Hl & Hx).
  apply list_elem_of_In, elem_of_lookup_imap in Hl as (p & page & -> & Hp).
  apply list_elem_of_In, elem_of_lookup_imap in Hx as (k & url & Hd & Hk).
  unfold descr in Hd. injection Hd as H1 H2 H3. subst url.
  exists p, page, k. repeat split; try done; lia.
Qed.

Lemma imagesOf_foldl id (l : list jsonValue) (acc : list string) :
  foldl (fun images img =>
           match img with
           | JString imgStr =>
               let trimmed := strings.TrimPrefix imgStr "./" in
               if strings.HasPrefix trimmed "files/"
               then images ++ ["https://online.fliphtml5.com/" +:+ id +:+ "/" +:+ trimmed]
               else images ++ ["https://online.fliphtml5.com/" +:+ id +:+ "/files/large/" +:+ trimmed]
           | _ => images
           end) acc l
  = acc ++ map (normalizeImage_spec id) (omap stringOf l).
Proof.
  revert acc. induction l as [|v l IH]; intros acc; simpl.
  - by rewrite app_nil_r.
  - rewrite IH. destruct v as [s| |]; simpl; try done.
    rewrite normalizeImage_spec_unfold.
    destruct (strings.HasPrefix (strings.TrimPrefix s "./") "files/");
      by rewrite <- app_assoc.
Qed.

End pages.

(** X11.  The pages that [Get] builds from the manifest are numbered
    1, 2, ... in the order of the manifest, keep their thumbnails, and
    are as many as the manifest has; so the page number of every
    descriptor of [FindAllImages] is the [Number] of the page that holds
    its URL. *)
Theorem X11_pagesOf_numbers (id : string) (ps : list page) :
  map Number (pagesOf id ps) = seqZ 1 (main.len ps)
  /\ map ThumbnailUrl (pagesOf id ps) = map ThumbUrl ps
  /\ length (pagesOf id ps) = length ps
  /\ (forall url title img,
        img ∈ FindAllImages (mkBook url id title (pagesOf id ps)) ->
        exists pg, pg ∈ pagesOf id ps /\ Number pg = PageNumber img
                   /\ ImageUrl img ∈ ImageUrls pg).
Proof.
  destruct (pagesOf_go_numbers id 0 ps []) as [Hn Ht]. simpl in Hn, Ht.
  split; [exact Hn|]. split; [exact Ht|]. split.
  - unfold pagesOf. rewrite <- (length_map ThumbnailUrl), Ht. apply length_map.
  - intros url title img (p & pg & k & Hp & Hk & Hpn & _)%FindAllImages_elem.
    simpl in Hp. exists pg. split; [by eapply list_elem_of_lookup_2|]. split.
    + assert (map Number (pagesOf id ps) !! p = Some (Number pg)) as H.
      { by rewrite map_lookup, Hp. }
      fold (pagesOf id ps) in Hn. rewrite Hn in H.
      apply lookup_seqZ in H as [-> _]. lia.
    + by eapply list_elem_of_lookup_2.
Qed.

(** X12.  In an array-valued image field the entries that are not
    strings are skipped and the strings are normalised in their order; a
    field that is neither a string nor an array, or an array without
    strings, gives a page without images. *)
Theorem X12_imagesOf_skips_non_strings (id : string) :
  (forall l, imagesOf id (JArray l) = map (normalizeImage_spec id) (omap stringOf l))
  /\ imagesOf id JOther = []
  /\ (forall l, (length (imagesOf id (JArray l)) <= length l)%nat)
  /\ (forall l, Forall (fun v => stringOf v = None) l -> imagesOf id (JArray l) = []).
Proof.
  assert (H : forall l, imagesOf id (JArray l)
                        = map (normalizeImage_spec id) (omap stringOf l)).
  { intros l. unfold imagesOf. by rewrite imagesOf_foldl. }
  split; [exact H|]. split; [done|]. split.
  - intros l. rewrite H, length_map. clear H.
    induction l as [|v l IH]; simpl; [done|]. destruct (stringOf v); simpl;
      change (list_omap jsonValue string stringOf l) with (omap stringOf l); lia.
  - intros l Hl. rewrite H. clear H.
    induction Hl as [|v l Hv _ IH]; simpl; [done|]. by rewrite Hv.
Qed.

(** ** The pages that are rendered *)

Section selection.

Lemma evenPages_spec fuel i n acc :
  (Z.max 0 ((n - i + 2) `div` 2) <= Z.of_nat fuel) ->
  main.evenPages fuel i n acc
  = acc ++ map (fun k => i + 2 * k) (seqZ 0 ((n - i + 2) `div` 2)).
Proof.
  revert i acc. induction fuel as [|fuel IH]; intros i acc Hf; simpl.
  - rewrite seqZ_nil by lia. by rewrite app_nil_r.
  - destruct (Z.leb_spec i n) as [Hle|Hgt].
    + assert ((n - (i + 2) + 2) `div` 2 = (n - i + 2) `div` 2 - 1
              /\ 1 <= (n - i + 2) `div` 2) as [Hc H1]
        by (Z.div_mod_to_equations; lia).
      rewrite IH by lia. rewrite Hc.
      rewrite <- app_assoc. f_equal.
      rewrite (seqZ_cons 0 ((n - i + 2) `div` 2)) by lia. simpl.
      f_equal; [f_equal; lia|].
      replace (Z.pred ((n - i + 2) `div` 2)) with ((n - i + 2) `div` 2 - 1) by lia.
      generalize ((n - i + 2) `div` 2 - 1). intros m.
      change (Z.succ 0) with (1 + 0).
      rewrite <- (fmap_add_seqZ 1 0 m).
      change (map (fun k => i + 2 * k) ((Z.add 1) <$> seqZ 0 m))
        with (map (fun k => i + 2 * k) (map (Z.add 1) (seqZ 0 m))).
      rewrite map_map. apply map_ext. intros k. lia.
    + rewrite seqZ_nil; [by rewrite app_nil_r|].
      Z.div_mod_to_equations; lia.
Qed.

Lemma pagesToCapture_closed (b : Book) :
  main.pagesToCapture b = 1 :: map (Z.mul 2) (seqZ 1 (main.len (Pages b) `div` 2)).
Proof.
  unfold main.pagesToCapture. rewrite evenPages_spec.
  - simpl. f_equal.
    replace (main.len (Pages b) - 2 + 2) with (main.len (Pages b)) by lia.
    generalize (main.len (Pages b) `div` 2). intros m.
    change (seqZ 1 m) with (seqZ (1 + 0) m).
    rewrite <- (fmap_add_seqZ 1 0 m).
    change (map (Z.mul 2) ((Z.add 1) <$> seqZ 0 m))
      with (map (Z.mul 2) (map (Z.add 1) (seqZ 0 m))).
    rewrite map_map. apply map_ext. intros k. lia.
  - unfold main.len.
    replace (Z.of_nat (length (Pages b)) - 2 + 2) with (Z.of_nat (length (Pages b))) by lia.
    Z.div_mod_to_equations; lia.
Qed.

End selection.

(** X13.  The pages that the capture phase renders are page 1 and the
    even pages up to the page count, in ascending order: 1, 2, 4, ...
    Page 1 is rendered even when the book has no page. *)
Theorem X13_pagesToCapture_selection (b : Book) :
  main.pagesToCapture b = 1 :: map (Z.mul 2) (seqZ 1 (main.len (Pages b) `div` 2))
  /\ (forall n, n ∈ main.pagesToCapture b
                <-> n = 1 \/ (Z.even n = true /\ 2 <= n <= main.len (Pages b)))
  /\ StronglySorted Z.lt (main.pagesToCapture b).
Proof.
  split; [apply pagesToCapture_closed|]. rewrite pagesToCapture_closed. split.
  - intros n. rewrite elem_of_cons, elem_of_map.
    setoid_rewrite elem_of_seqZ. split.
    + intros [->|(k & -> & Hk)]; [by left|right]. split.
      * rewrite Z.even_mul. done.
      * Z.div_mod_to_equations; lia.
    + intros [->|[He Hn]]; [by left|right].
      exists (n `div` 2). apply Zeven_bool_iff, Zeven_ex_iff in He as [k ->].
      rewrite (Z.mul_comm 2 k), Z.div_mul by lia.
      split; [lia|]. Z.div_mod_to_equations; lia.
  - constructor.
    + generalize (main.len (Pages b) `div` 2). intros m.
      assert (H : forall a m, StronglySorted Z.lt (map (Z.mul 2) (seqZ a m))).
      { clear. intros a m. destruct (Z.le_gt_cases m 0) as [Hm|Hm].
        { rewrite seqZ_nil by done. constructor. }
        rewrite <- (Z2Nat.id m) by lia. generalize (Z.to_nat m). clear. intros n.
        revert a. induction n as [|n IH]; intros a.
        - constructor.
        - rewrite seqZ_cons by lia. simpl. constructor.
          + replace (Z.pred (Z.of_nat (S n))) with (Z.of_nat n) by lia. apply IH.
          + apply Forall_forall. intros x (k & -> & Hk)%elem_of_map.
            apply elem_of_seqZ in Hk. lia. }
      apply H.
    + apply Forall_forall. intros x (k & -> & Hk)%elem_of_map.
      apply elem_of_seqZ in Hk. lia.
Qed.

Section coverage.

Variables (b : Book) (root : string).

Lemma spreadRecords_pages n path :
  map iPageNumber (spreadRecords b n path)
  = if Z.even n && (2 <=? n) && (n <? main.len (Pages b)) then [n; n + 1] else [n].
Proof.
  unfold spreadRecords.
  destruct (Z.even n && (2 <=? n)); simpl; [|done].
  by destruct (n <? main.len (Pages b)).
Qed.

Lemma evens_pages (m : nat) :
  2 * Z.of_nat m <= main.len (Pages b) ->
  map iPageNumber (recordsOf b root (map (Z.mul 2) (seqZ 1 (Z.of_nat m))))
  = seqZ 2 (Z.min (2 * Z.of_nat m) (main.len (Pages b) - 1)).
Proof.
  induction m as [|m IH]; intros Hm.
  - simpl. rewrite seqZ_nil; [done|]. lia.
  - rewrite seqZ_S, map_app, recordsOf_app, map_app, IH by lia.
    simpl map at 2. unfold recordsOf at 1. simpl flat_map. rewrite app_nil_r.
    rewrite spreadRecords_pages.
    replace (Z.min (2 * Z.of_nat m) (main.len (Pages b) - 1)) with (2 * Z.of_nat m) by lia.
    replace (Z.even (2 * (1 + Z.of_nat m))) with true by (by rewrite Z.even_mul).
    replace (2 <=? 2 * (1 + Z.of_nat m)) with true by (symmetry; apply Z.leb_le; lia).
    simpl andb.
    destruct (Z.ltb_spec (2 * (1 + Z.of_nat m)) (main.len (Pages b))) as [Hlt|Hge].
    + replace (Z.min (2 * Z.of_nat (S m)) (main.len (Pages b) - 1))
        with (2 * Z.of_nat m + 2) by lia.
      rewrite seqZ_app by lia. f_equal.
      rewrite seqZ_cons by lia. rewrite seqZ_cons by lia. rewrite seqZ_nil by lia.
      f_equal; [lia|]. f_equal. lia.
    + replace (Z.min (2 * Z.of_nat (S m)) (main.len (Pages b) - 1))
        with (2 * Z.of_nat m + 1) by lia.
      rewrite seqZ_app by lia. f_equal.
      rewrite seqZ_cons by lia. rewrite seqZ_nil by lia. f_equal. lia.
Qed.

Lemma pagesToCapture_pages :
  map iPageNumber (recordsOf b root (main.pagesToCapture b))
  = seqZ 1 (Z.max 1 (main.len (Pages b))).
Proof.
  rewrite pagesToCapture_closed.
  change (recordsOf b root (1 :: ?l))
    with (spreadRecords b 1 (capturePath root 1) ++ recordsOf b root l).
  rewrite map_app, spreadRecords_pages. simpl andb. cbv iota.
  assert (0 <= main.len (Pages b)) as Hn by (unfold main.len; lia).
  assert (0 <= main.len (Pages b) `div` 2) as Hd by (Z.div_mod_to_equations; lia).
  rewrite <- (Z2Nat.id (main.len (Pages b) `div` 2)) by done.
  rewrite evens_pages by (rewrite Z2Nat.id by done; Z.div_mod_to_equations; lia).
  rewrite Z2Nat.id by done.
  replace (Z.min (2 * (main.len (Pages b) `div` 2)) (main.len (Pages b) - 1))
    with (main.len (Pages b) - 1) by (Z.div_mod_to_equations; lia).
  destruct (Z.eq_dec (main.len (Pages b)) 0) as [->|Hne]; [done|].
  replace (Z.max 1 (main.len (Pages b))) with (main.len (Pages b)) by lia.
  rewrite (seqZ_cons 1) by lia. simpl. repeat f_equal; lia.
Qed.

Lemma recordsOf_order S c : c ∈ recordsOf b root S -> iOverallOrder c = iPageNumber c.
Proof.
  intros (n & _ & Hc)%elem_of_recordsOf. unfold spreadRecords in Hc.
  repeat case_match; set_solver.
Qed.

Lemma recordsOf_Permutation S S' :
  S ≡ₚ S' -> recordsOf b root S ≡ₚ recordsOf b root S'.
Proof. intros H. unfold recordsOf. by apply Permutation_flat_map. Qed.

Lemma recordsOf_part_NoDup S F :
  main.pagesToCapture b ≡ₚ S ++ F -> NoDup (map iPageNumber (recordsOf b root S)).
Proof.
  intros H. apply recordsOf_Permutation in H.
  rewrite recordsOf_app in H.
  assert (map iPageNumber (recordsOf b root (main.pagesToCapture b))
          ≡ₚ map iPageNumber (recordsOf b root S) ++ map iPageNumber (recordsOf b root F))
    as H' by (rewrite <- map_app; by apply Permutation_map).
  rewrite pagesToCapture_pages in H'.
  assert (NoDup (map iPageNumber (recordsOf b root S)
                 ++ map iPageNumber (recordsOf b root F))) as Hnd
    by (rewrite <- H'; apply NoDup_seqZ).
  by apply NoDup_app in Hnd as [? _].
Qed.

Lemma recordsOf_part_range S F c :
  main.pagesToCapture b ≡ₚ S ++ F -> c ∈ recordsOf b root S ->
  1 <= iPageNumber c <= Z.max 1 (main.len (Pages b)).
Proof.
  intros H Hc. apply recordsOf_Permutation in H. rewrite recordsOf_app in H.
  assert (iPageNumber c ∈ map iPageNumber (recordsOf b root (main.pagesToCapture b))) as Hin.
  { apply elem_of_map. exists c. split; [done|]. rewrite H. apply elem_of_app. by left. }
  rewrite pagesToCapture_pages in Hin. apply elem_of_seqZ in Hin. lia.
Qed.

End coverage.

Lemma sorted_strict {A} (key : A -> Z) (l : list A) :
  StronglySorted (keyLe key) l -> NoDup (map key l) -> StronglySorted Z.lt (map key l).
Proof.
  induction 1 as [|x l Hs IH Hx]; simpl; [constructor|].
  intros [Hnin Hnd]%NoDup_cons. constructor; [by apply IH|].
  apply Forall_forall. intros k (y & -> & Hy)%elem_of_map.
  rewrite Forall_forall in Hx. specialize (Hx y Hy). unfold keyLe in Hx.
  assert (key x <> key y); [|lia].
  intros E. apply Hnin. rewrite E. apply elem_of_map. eauto.
Qed.

(** X14.  The records that the rendered pages give, each with the
    reference [oddReference] adds for the odd page of its spread, cover
    the pages 1, 2, ..., page count, each once and in order (page 1
    alone for a book without pages). *)
Theorem X14_capture_covers_every_page (b : Book) (root : string) :
  map iPageNumber
    (flat_map (fun n =>
                 mkInteractivePageImage n n (main.pageUrl b n) (capturePath root n)
                 :: main.oddReference b n (capturePath root n))
       (main.pagesToCapture b))
  = seqZ 1 (Z.max 1 (main.len (Pages b))).
Proof.
  rewrite <- (pagesToCapture_pages b root). f_equal. unfold recordsOf.
  apply flat_map_ext. intros n. apply oddReference_spec.
Qed.

(** X15.  The capture phase never panics, and the records it returns
    are strictly ascending in their page numbers, so no page has two
    records; the order of each record is its page number, and this
    number lies between 1 and the page count (or is 1). *)
Theorem X15_capture_one_record_per_page (env : sys.Env) (args : main.Args)
    (b : Book) (root : string) (w : sys.World) :
  exists images err,
    (main.captureInteractivePages env args b root w).1 = sys.Returned (images, err)
    /\ StronglySorted Z.lt (map iPageNumber images)
    /\ (forall c, c ∈ images ->
          iOverallOrder c = iPageNumber c
          /\ 1 <= iPageNumber c <= Z.max 1 (main.len (Pages b))).
Proof.
  pose proof (captureInteractivePages_spec env args b root w) as H.
  destruct (main.captureInteractivePages env args b root w) as [o w'] eqn:E.
  apply (wp_run _ _ _ o w') in H; [|done].
  destruct o as [[images err]|]; [|done]. simpl in H.
  destruct H as (S & F & Hperm & _ & _ & [(-> & -> & _)|(-> & _ & Hrec & Hs & _)]).
  - exists [], (Some ErrNoCaptures). split; [done|]. split; [constructor|].
    by intros c ?%elem_of_nil.
  - exists images, None. split; [done|].
    assert (Hord : forall c, c ∈ images -> iOverallOrder c = iPageNumber c).
    { intros c Hc. rewrite Hrec in Hc. by apply recordsOf_order in Hc. }
    split.
    + assert (map iOverallOrder images = map iPageNumber images) as Hmap.
      { apply map_ext_in. intros c Hc. apply Hord. by apply list_elem_of_In. }
      rewrite <- Hmap. apply sorted_strict; [done|]. rewrite Hmap.
      assert (map iPageNumber images ≡ₚ map iPageNumber (recordsOf b root S)) as ->
        by (by apply Permutation_map).
      by eapply recordsOf_part_NoDup.
    + intros c Hc. split; [by apply Hord|].
      rewrite Hrec in Hc. by eapply recordsOf_part_range.
Qed.

(** ** The download phase: the empty book, and the files on disk *)

Section download_files.




Lemma wp_any {A} (m : sys.M A) w : wp m (fun _ _ => True) w.
Proof. eapply wp_eq; [apply surjective_pairing|done]. Qed.



Variables (env : sys.Env) (root : string).

Lemma Download_attempt_files cancelled path a i w (F0 : gset string) :
  path ∉ F0 -> F0 ⊆ sys.files w -> sys.files w ⊆ F0 ∪ {[path]} ->
  wp (Download_attempt env cancelled path a i)
     (fun r w' => F0 ⊆ sys.files w' /\ sys.files w' ⊆ F0 ∪ {[path]}
                  /\ forall d, r.2 = Return d -> path ∈ sys.files w') w.
Proof.
  intros Hp H1 H2. eapply wp_mono; [apply Download_attempt_spec|].
  intros [i' r] w' (_ & _ & gets & tail & w2 & _ & _ & Hf & _ & Hw). simpl in *.
  destruct r as [e|d].
  - destruct Hw as [[_ Hw]|[_ [Hw|[Hw _]]]]; rewrite Hw, Hf;
      (split; [|split]; [set_solver..|done]).
  - destruct Hw as (_ & _ & Hw). rewrite Hw, Hf. set_solver.
Qed.

Lemma Download_loop_files cancelled path n a i lastErr w (F0 : gset string) :
  path ∉ F0 -> F0 ⊆ sys.files w -> sys.files w ⊆ F0 ∪ {[path]} ->
  wp (Download_loop env cancelled path n a i lastErr)
     (fun r w' => F0 ⊆ sys.files w'
                  /\ forall d, r.2 = (Some d, None) -> path ∈ sys.files w') w.
Proof.
  intros Hp. revert a i lastErr w.
  induction n as [|n IH]; intros a i lastErr w H1 H2.
  - simpl. wp_steps. split; [done|]. done.
  - rewrite Download_loop_S. apply wp_bind.
    eapply wp_mono; [by apply Download_attempt_files|].
    intros [i' [e|d]] w' (H1' & H2' & Hd); simpl in *.
    + by apply IH.
    + wp_steps. split; [done|]. intros _ _. by eapply Hd.
Qed.

Lemma Download_files cancelled i w :
  wp (Download env cancelled i root)
     (fun r w' => sys.files w ⊆ sys.files w'
                  /\ forall d, r.2 = (Some d, None) ->
                               imagePath root i ∈ sys.files w') w.
Proof.
  unfold Download. wp_steps.
  destruct (bool_decide_reflect (imagePath root i ∈ sys.files w)) as [Hin|Hnin].
  - wp_steps. done.
  - apply Download_loop_files; set_solver.
Qed.

Lemma downloadOne_keeps F0 seen st a w :
  keepsFiles root F0 seen st.2 w ->
  wp (main.downloadOne env root st a)
     (fun o w' => match o with
                  | sys.Returned st' => keepsFiles root F0 (seen ++ [a]) st'.2 w'
                  | sys.Panicked => False
                  end) w.
Proof.
  destruct st as [acc fe]. intros [HF Hseen]. unfold main.downloadOne, keepsFiles.
  simpl in *. wp_steps.
  destruct (bool_decide_reflect (imagePath root a ∈ sys.files w)) as [Hin|Hnin].
  { wp_steps. simpl. split; [done|]. intros Hfe i [Hi| ->%list_elem_of_singleton]%elem_of_app; auto. }
  wp_steps. eapply wp_mono.
  { apply wp_conj; [apply Download_spec|apply Download_files]. }
  intros [i' [od oe]] w' [Hpost [Hmono Hok]]. simpl in *.
  assert (od = None -> oe = None -> False) as Hnn.
  { intros -> ->. destruct Hpost as [(_ & [=] & _)|[_ (_ & _ & evs & _ & Hr)]].
    simpl in Hr. done. }
  destruct oe as [e|].
  - destruct od; wp_steps; simpl; (split; [set_solver|]); by destruct fe.
  - destruct od as [d|]; [|by destruct Hnn].
    wp_steps. simpl. split; [set_solver|].
    intros Hfe i [Hi| ->%list_elem_of_singleton]%elem_of_app.
    + specialize (Hseen Hfe i Hi). set_solver.
    + by eapply Hok.
Qed.

Lemma downloadBatches_keeps F0 images bs n k acc w :
  0 < bs -> 0 <= k ->
  keepsFiles root F0 (main.slice images 0 (k * bs)) None w ->
  wp (main.downloadBatches env root images bs n k acc)
     (fun o w' =>
        match o with
        | sys.Returned (_, None) =>
            keepsFiles root F0 (main.slice images 0 ((k + Z.of_nat n) * bs)) None w'
        | sys.Returned (_, Some _) => F0 ⊆ sys.files w'
        | sys.Panicked => False
        end) w.
Proof.
  intros Hbs. revert k acc w.
  induction n as [|n IH]; intros k acc w Hk HI.
  { simpl. wp_steps. by rewrite Z.add_0_r. }
  cbn [main.downloadBatches]. rewrite slice_clamp by nia.
  apply wp_bind.
  eapply wp_mono.
  { apply (forEach_wp (main.downloadOne env root)
             (fun seen st w =>
                keepsFiles root F0 (main.slice images 0 (k * bs) ++ seen) st.2 w))
      with (seen := []).
    - intros seen st a w' H. simpl in *. rewrite app_assoc.
      by apply downloadOne_keeps.
    - simpl. by rewrite app_nil_r. }
  intros [[acc1 fe1]|] w1 H1; [|done]. simpl in H1.
  destruct fe1 as [e|]; [wp_steps; apply H1|].
  rewrite slice_app in H1 by nia.
  eapply wp_mono; [apply IH; [lia|]|].
  - replace ((k + 1) * bs) with ((k + 1) * bs) by done. exact H1.
  - intros [[acc2 [e|]]|] w2 H2; try done.
    by replace ((k + Z.of_nat (S n)) * bs) with ((k + 1 + Z.of_nat n) * bs) by lia.
Qed.

Lemma downloadImages_keeps images w :
  wp (main.downloadImages env root images)
     (fun o w' =>
        sys.files w ⊆ sys.files w'
        /\ forall ds, o = sys.Returned (ds, None) ->
                      forall i, i ∈ images -> imagePath root i ∈ sys.files w') w.
Proof.
  unfold main.downloadImages.
  set (bs := if main.len images <=? 50 then main.len images else 50).
  assert (0 <= main.len images) as Hlen by (unfold main.len; lia).
  destruct (Z.eqb_spec bs 0) as [Hz|Hnz].
  { wp_steps. split; [done|]. done. }
  assert (0 < bs) as Hbs.
  { subst bs. destruct (Z.leb_spec (main.len images) 50); lia. }
  apply wp_bind.
  eapply wp_mono.
  { apply (downloadBatches_keeps (sys.files w)); [done|done|].
    rewrite Z.mul_0_l, slice_nil. split; [done|]. by intros _ i ?%elem_of_nil. }
  intros [[acc [e|]]|] w1 H1; [wp_steps; by split| |done].
  wp_steps. destruct H1 as [HF Hall]. split; [done|].
  intros ds _ i Hi. apply Hall; [done|].
  rewrite slice_all; [done|].
  rewrite Z2Nat.id by by apply numBatches_nonneg.
  rewrite Z.add_0_l. by apply numBatches_cover.
Qed.

End download_files.


(** X17.  The download phase removes no file that was there before it
    started, and when it succeeds the file of every descriptor, and so
    the file of every returned asset, is on disk. *)
Theorem X17_download_phase_keeps_files (env : sys.Env) (root : string)
    (images : list PageImage) (w : sys.World) :
  let r := main.downloadImages env root images w in
  sys.files w ⊆ sys.files r.2
  /\ (forall ds, r.1 = sys.Returned (ds, None) ->
        (forall i, i ∈ images -> imagePath root i ∈ sys.files r.2)
        /\ (forall d, d ∈ ds -> dFullPath d ∈ sys.files r.2)).
Proof.
  intros r. subst r.
  pose proof (downloadImages_keeps env root images w) as H.
  pose proof (downloadImages_spec env root images w) as Hs.
  destruct (main.downloadImages env root images w) as [o w'] eqn:E.
  apply (wp_run _ _ _ o w') in H; [|done].
  apply (wp_run _ _ _ o w') in Hs; [|done].
  destruct H as [Hmono Hall]. simpl. split; [done|].
  intros ds ->. split; [by apply (Hall ds)|].
  intros d Hd. simpl in Hs.
  assert (assetKey d ∈ map assetKey ds) as Hk by (apply elem_of_map; eauto).
  rewrite Hs in Hk. apply sortBy_elem_of, elem_of_map in Hk as (i & Hk & Hi).
  unfold assetKey, expectedKey in Hk. injection Hk as _ _ _ ->.
  by apply (Hall ds).
Qed.

(** ** One download: cancellation and the quick retry *)

Section one_download.

Lemma Replace1_absent (s old new : string) :
  strings.Contains s old = false -> strings.Replace1 s old new = s.
Proof.
  induction s as [|c s IH]; simpl.
  - intros H. apply orb_false_iff in H as [-> _]. done.
  - intros H. apply orb_false_iff in H as [-> H]. by rewrite IH.
Qed.

Lemma candidates_nil (url : string) :
  candidates url = []
  <-> strings.Contains url "/files/large/" = false
      /\ strings.HasSuffix url ".webp" = false.
Proof.
  unfold candidates.
  destruct (strings.Contains url "/files/large/"), (strings.HasSuffix url ".webp");
    simpl; naive_solver.
Qed.

Lemma setUrl_same (i : PageImage) : setUrl i (ImageUrl i) = i.
Proof. by destruct i. Qed.

Lemma Download_attempt_cancelled env path a i w :
  Download_attempt env true path a i w
  = ((i, Continue (if sys.http_NewRequest_ok env (ImageUrl i)
                   then ErrCanceled else ErrNewRequest (ImageUrl i))),
     sys.mkWorld (sys.files w) (sys.log w ++ sleepPart a)).
Proof.
  unfold Download_attempt, sys.bind, sys.time_Sleep, sys.emit, sys.ret,
    sys.client_Do, sleepPart.
  destruct (0 <? a), (sys.http_NewRequest_ok env (ImageUrl i)); simpl;
    rewrite ?app_nil_r; by destruct w.
Qed.

Lemma quick_retry_run env path attempt i w code :
  sys.http_NewRequest_ok env (ImageUrl i) = true ->
  sys.http_Do env (length (sys.log w ++ sleepPart attempt)) (ImageUrl i)
  = sys.HttpStatus code ->
  code <> 200 ->
  candidates (ImageUrl i) = [] ->
  exists c,
    (c = 200 \/ c = code)
    /\ (sys.http_Do env (S (length (sys.log w ++ sleepPart attempt))) (ImageUrl i)
        = sys.HttpStatus 200 -> c = 200)
    /\ Download_attempt env false path attempt i w
       = ((i, Continue (ErrStatus c)),
          sys.mkWorld (sys.files w)
            (sys.log w ++ sleepPart attempt
             ++ [sys.EvGet (ImageUrl i); sys.EvGet (ImageUrl i)])).
Proof.
  intros Hreq Hfirst Hcode Hnone.
  apply candidates_nil in Hnone as Hc. destruct Hc as [Hc _].
  unfold Download_attempt.
  assert (Hs : (if 0 <? attempt then sys.time_Sleep (2 ^ attempt * sys.Second)
                else sys.ret tt) w
               = (tt, sys.mkWorld (sys.files w) (sys.log w ++ sleepPart attempt))).
  { unfold sleepPart, sys.time_Sleep, sys.emit, sys.ret.
    destruct (0 <? attempt); [done|]. rewrite app_nil_r. by destruct w. }
  unfold sys.bind at 1. rewrite Hs, Hreq. cbn [negb]. cbv beta iota.
  unfold sys.bind at 1. unfold sys.client_Do at 1. unfold sys.now.
  cbn [sys.log sys.files]. cbv beta iota. rewrite Hfirst.
  apply Z.eqb_neq in Hcode as Hcode'. rewrite Hcode', Hnone.
  unfold sys.bind at 1. cbn [tryCandidates]. unfold sys.ret at 1.
  rewrite (Replace1_absent _ _ _ Hc), Hreq.
  unfold sys.bind, sys.client_Do, sys.now. cbn [sys.log sys.files].
  rewrite (length_app _ [sys.EvGet (ImageUrl i)]). cbn [length].
  rewrite Nat.add_1_r.
  rewrite <- !app_assoc. cbn [app].
  destruct (sys.http_Do env (S (length (sys.log w ++ sleepPart attempt))) (ImageUrl i))
    as [|c2] eqn:E2.
  - exists code. unfold sys.ret. split; [by right|]. split; [done|]. done.
  - destruct (Z.eq_dec c2 200) as [->|Hne].
    + exists 200. unfold sys.ret. rewrite setUrl_same. split; [by left|]. done.
    + exists code. rewrite status_match by done. unfold sys.ret.
      split; [by right|]. split; [|done]. intros [= ?]. done.
Qed.

End one_download.

(** X18.  On a cancelled context a [Download] whose file is missing
    sends no request and changes no file, but still sleeps 2 s and then
    4 s before it returns its error, which wraps the cancellation (or the
    failure to build the request). *)
Theorem X18_cancelled_download_still_waits (env : sys.Env) (i : PageImage)
    (root : string) (w : sys.World)
    (Habsent : imagePath root i ∉ sys.files w) :
  Download env true i root w
  = ((i, (None,
          Some (ErrWrap (ErrExhausted "failed to download image" 3
                  (Some (if sys.http_NewRequest_ok env (ImageUrl i)
                         then ErrCanceled
                         else ErrNewRequest (ImageUrl i))))))),
     sys.mkWorld (sys.files w)
       (sys.log w ++ [sys.EvSleep (2 * sys.Second); sys.EvSleep (4 * sys.Second)])).
Proof.
  unfold Download, sys.bind, sys.os_Stat.
  rewrite bool_decide_eq_false_2 by done.
  change (Z.to_nat maxRetries) with 3%nat.
  rewrite Download_loop_S. unfold sys.bind at 1. rewrite Download_attempt_cancelled.
  rewrite Download_loop_S. unfold sys.bind at 1. rewrite Download_attempt_cancelled.
  rewrite Download_loop_S. unfold sys.bind at 1. rewrite Download_attempt_cancelled.
  simpl. unfold sys.ret. rewrite app_nil_r, <- app_assoc. reflexivity.
Qed.

Lemma X18_cancelled_download_still_waits_witness :
  sys.log (Download envCopyFails true image11 "out" emptyWorld).2
  = [sys.EvSleep (2 * sys.Second); sys.EvSleep (4 * sys.Second)].
Proof.
  rewrite (X18_cancelled_download_still_waits envCopyFails image11 "out" emptyWorld).
  - reflexivity.
  - apply not_elem_of_empty.
Defined.

(** X19.  For a URL without alternative forms (no [/files/large/], no
    [.webp] suffix), an attempt whose first answer is not 200 requests
    the same URL a second time and fails whatever the second answer is:
    even a 200 is dropped, and reported as the status of the failure. *)
Theorem X19_quick_retry_answer_is_dropped (env : sys.Env) (path : string)
    (attempt : Z) (i : PageImage) (w : sys.World) (code : Z)
    (Hreq : sys.http_NewRequest_ok env (ImageUrl i) = true)
    (Hfirst : sys.http_Do env (length (sys.log w ++ sleepPart attempt)) (ImageUrl i)
              = sys.HttpStatus code)
    (Hcode : code <> 200)
    (Hnone : candidates (ImageUrl i) = []) :
  let r := Download_attempt env false path attempt i w in
  r.1.1 = i
  /\ (r.1.2 = Continue (ErrStatus 200) \/ r.1.2 = Continue (ErrStatus code))
  /\ (sys.http_Do env (S (length (sys.log w ++ sleepPart attempt))) (ImageUrl i)
      = sys.HttpStatus 200 -> r.1.2 = Continue (ErrStatus 200))
  /\ sys.files r.2 = sys.files w
  /\ sys.log r.2
     = sys.log w ++ sleepPart attempt ++ [sys.EvGet (ImageUrl i); sys.EvGet (ImageUrl i)].
Proof.
  intros r. subst r.
  destruct (quick_retry_run env path attempt i w code Hreq Hfirst Hcode Hnone)
    as (c & Hc & H200 & ->).
  simpl. split; [done|]. split; [destruct Hc as [->| ->]; auto|].
  split; [|done]. intros H. by rewrite H200.
Qed.

Lemma X19_quick_retry_answer_is_dropped_witness :
  (Download_attempt envSecondAnswer false "out/1-1.jpg" 0 imageFlat emptyWorld).1.2
  = Continue (ErrStatus 200).
Proof.
  destruct (X19_quick_retry_answer_is_dropped envSecondAnswer "out/1-1.jpg" 0
              imageFlat emptyWorld 404) as (_ & _ & H & _);
    [reflexivity|reflexivity|done|reflexivity|].
  apply H. reflexivity.
Defined.

(** ** One capture: browser runs *)




(** X21.  An identifier that [ParseId] returns is resolved to itself by
    [ParseId], with any URL parser. *)
Theorem X21_ParseId_idempotent (url_Parse url_Parse' : string -> option URL)
    (s id : string) (Hid : ParseId url_Parse s = inl id) :
  ParseId url_Parse' id = inl id.
Proof.
  assert (exists t, twoSegment t id) as [t (w1 & w2 & rest & _ & -> & N1 & N2 & H1 & H2 & _)].
  { apply ParseId_inl_inv in Hid as [H|(u & _ & _ & H)]; eauto. }
  apply ParseId_raw. exists w1, w2, "".
  rewrite str_app_nil_r. repeat split; done.
Qed.

Lemma X21_ParseId_idempotent_witness :
  ParseId (fun _ => None) "kzpyj/cxnu" = inl "kzpyj/cxnu".
Proof.
  apply (X21_ParseId_idempotent url_Parse_model (fun _ => None)
           "https://online.fliphtml5.com/kzpyj/cxnu/").
  by vm_compute.
Defined.

(** ** The PDF file *)

Section pdf.

Lemma generatePDF_exists env ds pdfPath force w :
  wp (main.generatePDF env ds pdfPath force)
     (fun e w' => e = None -> pdfPath ∈ sys.files w') w.
Proof.
  unfold main.generatePDF. wp_steps.
  destruct (bool_decide (pdfPath ∈ sys.files w) && negb force); wp_steps; simpl;
    [done|set_solver|done].
Qed.

Lemma generateInteractivePDF_exists env ds cs pdfPath force w :
  wp (main.generateInteractivePDF env ds cs pdfPath force)
     (fun e w' => e = None -> pdfPath ∈ sys.files w') w.
Proof.
  unfold main.generateInteractivePDF. wp_steps.
  destruct (bool_decide (pdfPath ∈ sys.files w) && negb force); wp_steps; simpl;
    [done|set_solver|done].
Qed.

Lemma wrapErr_None e : main.wrapErr e = None -> e = None.
Proof. by destruct e. Qed.

Lemma downloadPdf2_exists env args b r1 r2 pdfPath w :
  wp (main.downloadPdf2 env args b r1 r2 pdfPath)
     (fun o w' => o = sys.Returned None -> pdfPath ∈ sys.files w') w.
Proof.
  unfold main.downloadPdf2. apply wp_bind.
  eapply wp_mono; [apply wp_any|]. intros images w1 _.
  apply wp_bind. eapply wp_mono; [apply wp_any|].
  intros [[ds [e|]]|] w2 _; [by wp_steps| |by wp_steps].
  destruct (main.Interactive args).
  - apply wp_bind. eapply wp_mono; [apply wp_any|].
    intros [[cs [e|]]|] w3 _; [by wp_steps| |by wp_steps].
    destruct (0 <? main.len cs); apply wp_bind.
    + eapply wp_mono; [apply generateInteractivePDF_exists|].
      intros e w4 He. wp_steps. intros [= H%wrapErr_None]. auto.
    + eapply wp_mono; [apply generatePDF_exists|].
      intros e w4 He. wp_steps. intros [= H%wrapErr_None]. auto.
  - apply wp_bind. eapply wp_mono; [apply generatePDF_exists|].
    intros e w4 He. wp_steps. intros [= H%wrapErr_None]. auto.
Qed.

Lemma defaultConcurrency_Force numCPU args :
  main.Force (main.defaultConcurrency numCPU args) = main.Force args.
Proof. unfold main.defaultConcurrency. by destruct (main.Concurrency args <=? 0). Qed.

End pdf.

(** X22.  [downloadPdf2], from the check of the PDF on: when the PDF
    exists and overwriting is off, nothing is done and the result is
    [nil]; and whenever the result is [nil] the PDF exists afterwards.
    The PDF lies directly in the output directory, under the sanitised
    title. *)
Theorem X22_success_means_pdf_exists (env : sys.Env) (numCPU : Z) (args : main.Args)
    (b : Book) (outputDir imageOutputRoot interactiveOutputRoot : string)
    (w : sys.World) :
  let pdfPath := main.pdfPathOf b outputDir in
  let r := main.downloadPdf2_book env numCPU args b outputDir
             imageOutputRoot interactiveOutputRoot w in
  (pdfPath ∈ sys.files w -> main.Force args = false -> r = (sys.Returned None, w))
  /\ (r.1 = sys.Returned None -> pdfPath ∈ sys.files r.2)
  /\ filepath.Base pdfPath = main.sanitizeFilename (Title b) +:+ ".pdf".
Proof.
  intros pdfPath r. subst r pdfPath. split; [|split].
  - intros Hin Hf. unfold main.downloadPdf2_book, sys.bind, sys.os_Stat.
    rewrite bool_decide_eq_true_2, defaultConcurrency_Force, Hf by done. done.
  - assert (wp (main.downloadPdf2_book env numCPU args b outputDir
                  imageOutputRoot interactiveOutputRoot)
              (fun o w' => o = sys.Returned None ->
                           main.pdfPathOf b outputDir ∈ sys.files w') w) as H.
    2:{ eapply wp_run in H; [exact H|apply surjective_pairing]. }
    unfold main.downloadPdf2_book. wp_steps.
    destruct (bool_decide_reflect (main.pdfPathOf b outputDir ∈ sys.files w)) as [Hin|Hnin];
      simpl.
    + destruct (main.Force (main.defaultConcurrency numCPU args)); simpl.
      * apply downloadPdf2_exists.
      * by wp_steps.
    + apply downloadPdf2_exists.
  - unfold main.pdfPathOf.
    replace (main.sanitizeFilename (Title b) +:+ ".pdf")
      with ((main.sanitizeFilename (Title b) +:+ ".pd") +:+ String "f" "")
      by (by rewrite str_app_assoc).
    apply Base_Join. rewrite !occurs_app, sanitizeFilename_occurs; [done|].
    unfold main.invalidChars. simpl. left.
Qed.

(** ** Durations *)

Section durations.

Lemma int64_id x : - 2 ^ 63 <= x < 2 ^ 63 -> main.int64 x = x.
Proof.
  intros H. unfold main.int64. rewrite Z.mod_small; lia.
Qed.

Lemma uint64_id x : 0 <= x < 2 ^ 64 -> main.uint64 x = x.
Proof. intros H. unfold main.uint64. by apply Z.mod_small. Qed.

Lemma Round_Second d :
  0 <= d <= main.maxDuration - sys.Second ->
  main.Round d sys.Second = ((d + 500000000) `div` 1000000000) * 1000000000.
Proof.
  unfold main.maxDuration, sys.Second. intros Hd.
  change (2 ^ 63) with 9223372036854775808 in Hd.
  unfold main.Round. change (1000000000 <=? 0) with false. cbv iota.
  replace (d <? 0) with false by (symmetry; apply Z.ltb_ge; lia).
  rewrite Z.rem_mod_nonneg by lia.
  assert (0 <= d `mod` 1000000000 < 1000000000) as Hr by (apply Z.mod_pos_bound; lia).
  unfold main.lessThanHalf.
  change (2 ^ 63) with 9223372036854775808.
  rewrite (uint64_id (d `mod` 1000000000))
    by (change (2 ^ 64) with 18446744073709551616; lia).
  rewrite (uint64_id (_ + _)) by (change (2 ^ 64) with 18446744073709551616; lia).
  rewrite (uint64_id 1000000000) by (change (2 ^ 64) with 18446744073709551616; lia).
  destruct (Z.ltb_spec (d `mod` 1000000000 + d `mod` 1000000000) 1000000000) as [Hlt|Hge].
  - rewrite int64_id by (change (2 ^ 63) with 9223372036854775808; lia).
    Z.div_mod_to_equations. lia.
  - rewrite (int64_id (d + 1000000000))
      by (change (2 ^ 63) with 9223372036854775808; lia).
    rewrite int64_id by (change (2 ^ 63) with 9223372036854775808; lia).
    replace (d <? d + 1000000000 - d `mod` 1000000000) with true
      by (symmetry; apply Z.ltb_lt; lia).
    Z.div_mod_to_equations. lia.
Qed.

End durations.

(** X23.  For a duration [d >= 0] (below the largest one by a second)
    [formatDuration] prints the number [t] of seconds nearest to [d],
    halves rounded up, as minutes and seconds [mm:ss] with the seconds
    below 60, and from one hour on as [hh:mm:ss] with minutes and seconds
    below 60. *)
Theorem X23_formatDuration_fields (d : Z)
    (Hd : 0 <= d <= main.maxDuration - sys.Second) :
  let t := (d + 500000000) `div` 1000000000 in
  main.formatDuration d
  = if 3600 <=? t
    then main.fmt02d (t `div` 3600) +:+ ":" +:+ main.fmt02d ((t `div` 60) `mod` 60)
         +:+ ":" +:+ main.fmt02d (t `mod` 60)
    else main.fmt02d (t `div` 60) +:+ ":" +:+ main.fmt02d (t `mod` 60).
Proof.
  intros t. unfold main.formatDuration. rewrite Round_Second by done. fold t.
  assert (0 <= t <= 9223372036) as Ht.
  { unfold main.maxDuration, sys.Second in Hd.
    change (2 ^ 63) with 9223372036854775808 in Hd.
    subst t. Z.div_mod_to_equations. lia. }
  clearbody t. unfold main.Hour, main.Minute, sys.Second.
  change (60 * (60 * 1000000000)) with 3600000000000.
  change (60 * 1000000000) with 60000000000.
  rewrite (Z.quot_div_nonneg (t * 1000000000)) by lia.
  assert ((t * 1000000000) `div` 3600000000000 = t `div` 3600) as ->
    by (Z.div_mod_to_equations; lia).
  rewrite (int64_id ((t `div` 3600) * 3600000000000))
    by (change (2 ^ 63) with 9223372036854775808; Z.div_mod_to_equations; lia).
  rewrite (int64_id (t * 1000000000 - _))
    by (change (2 ^ 63) with 9223372036854775808; Z.div_mod_to_equations; lia).
  assert (t * 1000000000 - (t `div` 3600) * 3600000000000 = (t `mod` 3600) * 1000000000) as ->
    by (Z.div_mod_to_equations; lia).
  assert (0 <= t `mod` 3600 < 3600) as Hm by (apply Z.mod_pos_bound; lia).
  rewrite (Z.quot_div_nonneg ((t `mod` 3600) * 1000000000)) by lia.
  assert (((t `mod` 3600) * 1000000000) `div` 60000000000 = (t `div` 60) `mod` 60) as ->
    by (Z.div_mod_to_equations; lia).
  assert (0 <= (t `div` 60) `mod` 60 < 60) as Hm2 by (apply Z.mod_pos_bound; lia).
  rewrite (int64_id (((t `div` 60) `mod` 60) * 60000000000))
    by (change (2 ^ 63) with 9223372036854775808; lia).
  rewrite (int64_id ((t `mod` 3600) * 1000000000 - _))
    by (change (2 ^ 63) with 9223372036854775808; lia).
  assert ((t `mod` 3600) * 1000000000 - ((t `div` 60) `mod` 60) * 60000000000
          = (t `mod` 60) * 1000000000) as ->
    by (Z.div_mod_to_equations; lia).
  assert (0 <= t `mod` 60 < 60) as Hs by (apply Z.mod_pos_bound; lia).
  rewrite (Z.quot_div_nonneg ((t `mod` 60) * 1000000000)) by lia.
  rewrite Z.div_mul by lia.
  destruct (Z.leb_spec 3600 t) as [Hh|Hh].
  - replace (0 <? t `div` 3600) with true; [done|].
    symmetry. apply Z.ltb_lt. Z.div_mod_to_equations. lia.
  - replace (0 <? t `div` 3600) with false.
    2:{ symmetry. apply Z.ltb_ge. Z.div_mod_to_equations. lia. }
    rewrite (Z.mod_small (t `div` 60)); [done|].
    Z.div_mod_to_equations. lia.
Qed.

Lemma X23_formatDuration_fields_witness :
  main.formatDuration 3599500000000 = "01:00:00".
Proof.
  rewrite X23_formatDuration_fields.
  - reflexivity.
  - by vm_compute.
Defined.

(** ** The number of requests of a download *)

Section requests.

Lemma getsOf_app a b : getsOf (a ++ b) = getsOf a ++ getsOf b.
Proof. unfold getsOf. apply omap_app. Qed.

Lemma requests_snoc fs l e :
  requests (sys.mkWorld fs (l ++ [e]))
  = (length (getsOf l) + match e with sys.EvGet _ => 1 | _ => 0 end)%nat.
Proof.
  unfold requests. simpl. rewrite getsOf_app, length_app. by destruct e.
Qed.

Ltac req := unfold requests in *; simpl in *;
            rewrite ?getsOf_app, ?length_app in *; simpl in *; try lia.

Variable env : sys.Env.

Lemma candidates_length url : (length (candidates url) <= 3)%nat.
Proof.
  unfold candidates.
  destruct (strings.Contains url "/files/large/"), (strings.HasSuffix url ".webp");
    simpl; lia.
Qed.

Lemma tryCandidates_requests cancelled cands w :
  wp (tryCandidates env cancelled cands)
     (fun _ w' =>
        (requests w <= requests w'
         <= requests w + (if cancelled then 0 else length cands))%nat) w.
Proof.
  revert w. induction cands as [|alt rest IH]; intros w; simpl.
  { wp_steps. destruct cancelled; lia. }
  assert (forall w1 : sys.World,
            (requests w <= requests w1
             <= requests w + (if cancelled then 0 else 1))%nat ->
            wp (tryCandidates env cancelled rest)
              (fun _ w' =>
                 (requests w <= requests w'
                  <= requests w + (if cancelled then 0 else S (length rest)))%nat) w1)
    as Hrest.
  { intros w1 H1. eapply wp_mono; [apply IH|].
    intros r w2 H2. simpl in *. destruct cancelled; lia. }
  destruct (sys.http_NewRequest_ok env alt).
  2:{ apply Hrest. destruct cancelled; lia. }
  wp_steps.
  - subst cancelled. apply Hrest. lia.
  - subst cancelled.
    assert (requests w <= requests (sys.mkWorld (sys.files w) (sys.log w ++ [sys.EvGet alt]))
            <= requests w + 1)%nat as H1 by req.
    destruct (sys.http_Do env (sys.now w) alt) as [|code].
    + by apply Hrest.
    + destruct (decide (code = 200)) as [->|Hne].
      * wp_steps. req.
      * rewrite status_match by done. by apply Hrest.
Qed.

Lemma writeImage_requests path i w :
  wp (writeImage env path i) (fun _ w' => requests w' = requests w) w.
Proof.
  eapply wp_mono; [apply writeImage_spec|].
  intros r w' (tail & Ht & Hr). unfold trace in Ht. unfold requests. rewrite Ht.
  rewrite getsOf_app, length_app.
  destruct r as [e|d].
  - destruct Hr as [[-> _]|[-> _]]; simpl; lia.
  - destruct Hr as (-> & _). simpl. lia.
Qed.

Lemma Download_attempt_requests cancelled path a i w :
  wp (Download_attempt env cancelled path a i)
     (fun _ w' =>
        (requests w <= requests w'
         <= requests w + (if cancelled then 0 else 5))%nat) w.
Proof.
  unfold Download_attempt. apply wp_bind.
  apply (wp_mono _ (fun _ w1 => requests w1 = requests w)).
  { destruct (0 <? a); wp_steps; req. }
  intros r0 w1 H1. simpl in H1.
  destruct (sys.http_NewRequest_ok env (ImageUrl i)); simpl.
  2:{ wp_steps. destruct cancelled; lia. }
  wp_steps.
  { subst cancelled. lia. }
  subst cancelled.
  set (w2 := sys.mkWorld (sys.files w1) (sys.log w1 ++ [sys.EvGet (ImageUrl i)])).
  assert (requests w2 = S (requests w)) as H2 by (subst w2; req).
  destruct (sys.http_Do env (sys.now w1) (ImageUrl i)) as [|code].
  { wp_steps. simpl in *. lia. }
  destruct (Z.eqb_spec code 200) as [->|Hcode].
  { apply wp_bind. eapply wp_mono; [apply writeImage_requests|].
    intros r w' Hr. wp_steps. simpl in *. lia. }
  apply wp_bind.
  eapply wp_mono; [apply tryCandidates_requests|].
  intros found w3 H3. simpl in H3.
  pose proof (candidates_length (ImageUrl i)) as Hc.
  destruct found as [alt|].
  { apply wp_bind. eapply wp_mono; [apply writeImage_requests|].
    intros r w' Hr. wp_steps. simpl in *. lia. }
  destruct (sys.http_NewRequest_ok env _).
  2:{ wp_steps. simpl in *. lia. }
  wp_steps.
  { done. }
  set (altUrl := strings.Replace1 (ImageUrl i) "/files/large/" "/files/") in *.
  assert (requests (sys.mkWorld (sys.files w3) (sys.log w3 ++ [sys.EvGet altUrl]))
          = S (requests w3)) as H4 by req.
  destruct (sys.http_Do env (sys.now w3) altUrl) as [|code'].
  { wp_steps. simpl in *. lia. }
  destruct (decide (code' = 200)) as [->|Hne].
  - wp_steps. simpl in *. lia.
  - rewrite status_match by done. wp_steps. simpl in *. lia.
Qed.

Lemma Download_loop_requests cancelled path n a i lastErr w :
  wp (Download_loop env cancelled path n a i lastErr)
     (fun _ w' =>
        (requests w <= requests w'
         <= requests w + (if cancelled then 0 else 5 * n))%nat) w.
Proof.
  revert a i lastErr w. induction n as [|n IH]; intros a i lastErr w.
  - simpl. wp_steps. destruct cancelled; lia.
  - rewrite Download_loop_S. apply wp_bind.
    eapply wp_mono; [apply Download_attempt_requests|].
    intros [i' [e|d]] w1 H1.
    + eapply wp_mono; [apply IH|]. intros r w2 H2. simpl in *.
      destruct cancelled; lia.
    + wp_steps. destruct cancelled; lia.
Qed.

Lemma Download_requests cancelled i root w :
  wp (Download env cancelled i root)
     (fun _ w' =>
        (requests w <= requests w'
         <= requests w + (if cancelled then 0 else 15))%nat) w.
Proof.
  unfold Download. wp_steps.
  destruct (bool_decide (imagePath root i ∈ sys.files w)).
  - wp_steps. destruct cancelled; lia.
  - eapply wp_mono; [apply Download_loop_requests|].
    intros r w' H. simpl in H. exact H.
Qed.

End requests.

(** X24.  A [Download] sends at most 15 requests, at most 5 in each
    attempt; it sends none on a cancelled context, and when the file
    exists it does nothing at all. *)
Theorem X24_requests_per_image (env : sys.Env) (cancelled : bool) (i : PageImage)
    (root : string) (w : sys.World) :
  let w' := (Download env cancelled i root w).2 in
  (requests w <= requests w' <= requests w + 15)%nat
  /\ (cancelled = true -> requests w' = requests w)
  /\ (imagePath root i ∈ sys.files w -> w' = w)
  /\ (forall path attempt,
        (requests (Download_attempt env cancelled path attempt i w).2
         <= requests w + 5)%nat).
Proof.
  intros w'. subst w'.
  pose proof (Download_requests env cancelled i root w) as H.
  eapply wp_run in H; [|apply surjective_pairing].
  split; [destruct cancelled; lia|]. split; [intros ->; lia|]. split.
  - intros Hin. by rewrite Download_exists.
  - intros path attempt.
    pose proof (Download_attempt_requests env cancelled path attempt i w) as Ha.
    eapply wp_run in Ha; [|apply surjective_pairing].
    destruct cancelled; lia.
Qed.

(** ** A capture phase without failures *)

Section full_capture.




End full_capture.


